(** * AI-NOTE: transcript normaliser, segmenter, enrichment queue and
      live-connection retry, embedded from the two revisions of [App.tsx].

    The repository carries two revisions of the application component:
    - the one stored after the type declarations in [src/types.ts]
      ([cleanText], [connectToLive], fixed cooldown), embedded in
      [Module FixedCooldown];
    - the one in [src/unnamed/part_002] ([cleanHallucinations], adaptive
      cooldown, no reconnect), embedded in [Module AdaptiveCooldown].

    Strings are JavaScript strings, i.e. sequences of UTF-16 code units;
    numbers are the integers the code counts with.  The [useState] values a
    callback closes over are passed to it as an explicit [Render]: a
    callback keeps the render it was created in, whatever the state has
    become since.  The [useRef] cells are fields of one record threaded
    through every callback.  Timers and awaited promises are entries of a
    task list; the scheduler is an arbitrary sequence of [Event]s, each a
    user action, an expiring timer, a settling call or a callback of the
    live session.  A state update is applied when it is requested, and a
    user action reads the render current at that moment.

    Left out, as they take no part in the properties below: audio capture
    and forwarding, local storage, the text of the prompts (the response
    of a call is arbitrary), the deep analysis, the knowledge base and the
    search of the sidebar.  The title request that follows [stopRecording]
    is a single call outside the queue: its settling is [titleGenerated].
    The helpers of the views ([formatTime] and the rows of
    [TranscriptionList], the file name of an export, the bars of
    [Waveform]) are embedded after the event loop. *)

From Stdlib Require Import String Ascii NArith ZArith Bool Arith Lia List.
From Stdlib Require DecimalString DecimalN DecimalZ QArith.
Import ListNotations.

(* ================================================================== *)
(** ** JavaScript strings *)

Definition codeunit := N.
Definition jsstring := list codeunit.

(** ASCII literal to code units (every ASCII character is one unit). *)
Definition js (s : string) : jsstring :=
  map N_of_ascii (list_ascii_of_string s).

(** ECMAScript [LineTerminator]: the characters [.] does not match. *)
Definition isLineTerminator (c : codeunit) : bool :=
  ((c =? 0x0A) || (c =? 0x0D) || (c =? 0x2028) || (c =? 0x2029))%N.

(** ECMAScript [WhiteSpace] and [LineTerminator]: what [trim] strips. *)
Definition isWhiteSpace (c : codeunit) : bool :=
  (((0x09 <=? c) && (c <=? 0x0D)) || (c =? 0x20) || (c =? 0xA0)
   || (c =? 0x1680) || ((0x2000 <=? c) && (c <=? 0x200A))
   || (c =? 0x2028) || (c =? 0x2029) || (c =? 0x202F) || (c =? 0x205F)
   || (c =? 0x3000) || (c =? 0xFEFF))%N.

Fixpoint trimStart (s : jsstring) : jsstring :=
  match s with
  | [] => []
  | c :: t => if isWhiteSpace c then trimStart t else s
  end.

Definition trimEnd (s : jsstring) : jsstring := rev (trimStart (rev s)).

(** [String.prototype.trim]. *)
Definition trim (s : jsstring) : jsstring := trimEnd (trimStart s).

(* ================================================================== *)
(** ** Regular expressions

    The fragment of ECMAScript patterns the normaliser uses, without
    flags other than [g]: [.], one capture group, the back-reference [\1],
    sequence and the greedy quantifier [{min,max}].  The matcher is the
    continuation-passing one of the language specification. *)

Inductive regex :=
| Dot
    (** [.]: any unit but a line terminator *)
| Backref
    (** [\1] *)
| Group (r : regex)
    (** [( r )], capture 1 *)
| Seq (r1 r2 : regex)
| Repeat (r : regex) (min : nat) (max : option nat).
    (** [r{min,max}], greedy; [max = None] is [r{min,}] *)

(** Input still to be matched, and capture 1 (empty while undefined: a
    back-reference to an undefined capture matches the empty string). *)
Definition MatchState := (jsstring * jsstring)%type.
Definition Continuation := MatchState -> option MatchState.
Definition Matcher := MatchState -> Continuation -> option MatchState.

(** One match of the back-reference [\1] with capture [g]: the rest of the
    input when [g] is a prefix of it. *)
Fixpoint matchBackref (g s : jsstring) : option jsstring :=
  match g, s with
  | [], _ => Some s
  | _ :: _, [] => None
  | a :: g', b :: s' => if (a =? b)%N then matchBackref g' s' else None
  end.

(** [RepeatMatcher] for a greedy quantifier: try one more round of [m],
    and fall back to the continuation when that fails and no round is
    owed.  A round that consumed nothing with [min = 0] is rejected.  Every
    round consumes input or pays one of the [min] rounds owed, so
    [length input + min] rounds of [fuel] are enough. *)
Fixpoint repeatMatcher (m : Matcher) (min : nat) (max : option nat)
  (fuel : nat) (x : MatchState) (c : Continuation) : option MatchState :=
  match max with
  | Some 0 => c x
  | _ =>
      match fuel with
      | 0 => if min =? 0 then c x else None
      | S fuel' =>
          let d : Continuation := fun y =>
            if (min =? 0) && (length (fst y) =? length (fst x)) then None
            else repeatMatcher m (pred min) (option_map pred max) fuel' y c
          in
          match m x d with
          | Some z => Some z
          | None => if min =? 0 then c x else None
          end
      end
  end.

Fixpoint compile (r : regex) : Matcher :=
  fun x c =>
    match r with
    | Dot =>
        match fst x with
        | [] => None
        | ch :: t => if isLineTerminator ch then None else c (t, snd x)
        end
    | Backref =>
        match matchBackref (snd x) (fst x) with
        | Some t => c (t, snd x)
        | None => None
        end
    | Group r' =>
        compile r' x
          (fun y =>
             c (fst y, firstn (length (fst x) - length (fst y)) (fst x)))
    | Seq r1 r2 => compile r1 x (fun y => compile r2 y c)
    | Repeat r' min max =>
        repeatMatcher (compile r') min max (length (fst x) + min) x c
    end.

(** Match anchored at the start of [s]: capture 1 and length of the
    match. *)
Definition execAt (re : regex) (s : jsstring) : option (jsstring * nat) :=
  match compile re (s, []) (fun y => Some y) with
  | Some (rest, capture) => Some (capture, length s - length rest)
  | None => None
  end.

(** The scan of a global replace by ['$1'], left to right, for a matcher
    [m] anchored at the current position whose matches are not empty:
    [skip] counts the units of the current match still to be passed
    over. *)
Fixpoint replaceFrom (m : jsstring -> option (jsstring * nat)) (skip : nat)
  (s : jsstring) : jsstring :=
  match s with
  | [] => []
  | c :: t =>
      match skip with
      | S n => replaceFrom m n t
      | 0 =>
          match m s with
          | Some (g, len) => g ++ replaceFrom m (len - 1) t
          | None => c :: replaceFrom m 0 t
          end
      end
  end.

(** [s.replace(re, '$1')] for a pattern [re] with the [g] flag. *)
Definition replace (re : regex) (s : jsstring) : jsstring :=
  replaceFrom (execAt re) 0 s.

(* ================================================================== *)
(** ** Text normaliser, both revisions *)

(** [cleanText] of [src/types.ts]:
    [/(.)\1{6,}/g] and [/(.{4,})\1{2,}/g]. *)
Definition cleanText (text : jsstring) : jsstring :=
  match text with
  | [] => []
  | _ =>
      let cleaned :=
        replace (Seq (Group Dot) (Repeat Backref 6 None)) text in
      let cleaned :=
        replace (Seq (Group (Repeat Dot 4 None)) (Repeat Backref 2 None))
          cleaned in
      trim cleaned
  end.

(** [/(.)\1{5,}/g]. *)
Definition repeatCharRegex : regex :=
  Seq (Group Dot) (Repeat Backref 5 None).

(** [/(.{2,})\1{2,}/g]. *)
Definition repeatPhraseRegex : regex :=
  Seq (Group (Repeat Dot 2 None)) (Repeat Backref 2 None).

(** [cleanHallucinations] of [src/unnamed/part_002]. *)
Definition cleanHallucinations (text : jsstring) : jsstring :=
  let cleaned := replace repeatCharRegex text in
  let cleaned := replace repeatPhraseRegex cleaned in
  cleaned.

(* ================================================================== *)
(** ** Data model ([src/types.ts], lines 2-31) *)

Inductive RecorderStatus := IDLE | RECORDING | PAUSED | ERROR.

Definition RecorderStatus_eqb (a b : RecorderStatus) : bool :=
  match a, b with
  | IDLE, IDLE | RECORDING, RECORDING | PAUSED, PAUSED | ERROR, ERROR => true
  | _, _ => false
  end.

Record TranscriptionSegment := mkSegment {
  id : string;
  startTime : Z;
  endTime : Z;
  text : jsstring;
  translatedText : option jsstring;
  isFinal : bool
}.

(** [date] and [analysis] are display data and left out. *)
Record RecordingSession := mkSession {
  session_id : string;
  title : jsstring;
  session_segments : list TranscriptionSegment;
  duration : Z
}.

Inductive JobType := polish | translate.

(** Element of [processingQueueRef]: [{id, type, retryCount}]. *)
Record Item := mkItem {
  item_id : string;
  type : JobType;
  retryCount : Z
}.

(** The [useState] values of one render.  A callback created during a
    render reads these values for as long as it lives, whatever the state
    has become since. *)
Record Render := mkRender {
  status : RecorderStatus;
  segments : list TranscriptionSegment;
  sessions : list RecordingSession;
  viewingSessionId : option string;
  isBilingual : bool;
  elapsedTime : Z
}.

(** The [useRef] cells: shared by all callbacks of all renders.
    [connectionRetryCount] exists in the [src/types.ts] revision only. *)
Record Refs := mkRefs {
  transcriptionBufferRef : jsstring;
  segmentsRef : list TranscriptionSegment;
  lastSegmentTimeRef : Z;
  connectionRetryCount : Z;
  statusRef : RecorderStatus;
  isProcessingRef : bool;
  processingQueueRef : list Item;
  baseCooldownRef : Z
}.

(** What the event loop holds: awaited promises and pending timers, each
    with the render whose closure it resumes. *)
Inductive Task :=
| AwaitPolish (cl : Render) (item : Item) (segment : TranscriptionSegment)
    (** [await polishSegment(segment)]: [generateContent] is outstanding *)
| AwaitTranslate (cl : Render) (item : Item) (segment : TranscriptionSegment)
    (** [await translateSegment(segment)]: [generateContent] is outstanding *)
| AwaitDelay (cl : Render) (ms : Z)
    (** [await new Promise(resolve => setTimeout(resolve, ms))] inside the
        [try] block of [processQueue] *)
| TimerRequeue (cl : Render) (item : Item) (ms : Z)
    (** [setTimeout(() => { queue.push(...) ... }, ms)] after a failure *)
| TimerProcessQueue (cl : Render) (ms : Z)
    (** [setTimeout(processQueue, ms)] *)
| TimerConnect (cl : Render) (ms : Z)
    (** [setTimeout(connectToLive, ms)] *)
| LiveSession (cl : Render).
    (** a session returned by [ai.live.connect], whose callbacks may fire *)

Record World := mkWorld {
  state : Render;
  refs : Refs;
  tasks : list Task
}.

(** *** Field updates *)

Definition set_status v (r : Render) :=
  mkRender v (segments r) (sessions r) (viewingSessionId r) (isBilingual r)
    (elapsedTime r).
Definition set_segments v (r : Render) :=
  mkRender (status r) v (sessions r) (viewingSessionId r) (isBilingual r)
    (elapsedTime r).
Definition set_sessions v (r : Render) :=
  mkRender (status r) (segments r) v (viewingSessionId r) (isBilingual r)
    (elapsedTime r).
Definition set_viewingSessionId v (r : Render) :=
  mkRender (status r) (segments r) (sessions r) v (isBilingual r)
    (elapsedTime r).
Definition set_isBilingual v (r : Render) :=
  mkRender (status r) (segments r) (sessions r) (viewingSessionId r) v
    (elapsedTime r).
Definition set_elapsedTime v (r : Render) :=
  mkRender (status r) (segments r) (sessions r) (viewingSessionId r)
    (isBilingual r) v.

Definition set_transcriptionBufferRef v (r : Refs) :=
  mkRefs v (segmentsRef r) (lastSegmentTimeRef r) (connectionRetryCount r)
    (statusRef r) (isProcessingRef r) (processingQueueRef r)
    (baseCooldownRef r).
Definition set_segmentsRef v (r : Refs) :=
  mkRefs (transcriptionBufferRef r) v (lastSegmentTimeRef r)
    (connectionRetryCount r) (statusRef r) (isProcessingRef r)
    (processingQueueRef r) (baseCooldownRef r).
Definition set_lastSegmentTimeRef v (r : Refs) :=
  mkRefs (transcriptionBufferRef r) (segmentsRef r) v (connectionRetryCount r)
    (statusRef r) (isProcessingRef r) (processingQueueRef r)
    (baseCooldownRef r).
Definition set_connectionRetryCount v (r : Refs) :=
  mkRefs (transcriptionBufferRef r) (segmentsRef r) (lastSegmentTimeRef r) v
    (statusRef r) (isProcessingRef r) (processingQueueRef r)
    (baseCooldownRef r).
Definition set_statusRef v (r : Refs) :=
  mkRefs (transcriptionBufferRef r) (segmentsRef r) (lastSegmentTimeRef r)
    (connectionRetryCount r) v (isProcessingRef r) (processingQueueRef r)
    (baseCooldownRef r).
Definition set_isProcessingRef v (r : Refs) :=
  mkRefs (transcriptionBufferRef r) (segmentsRef r) (lastSegmentTimeRef r)
    (connectionRetryCount r) (statusRef r) v (processingQueueRef r)
    (baseCooldownRef r).
Definition set_processingQueueRef v (r : Refs) :=
  mkRefs (transcriptionBufferRef r) (segmentsRef r) (lastSegmentTimeRef r)
    (connectionRetryCount r) (statusRef r) (isProcessingRef r) v
    (baseCooldownRef r).
Definition set_baseCooldownRef v (r : Refs) :=
  mkRefs (transcriptionBufferRef r) (segmentsRef r) (lastSegmentTimeRef r)
    (connectionRetryCount r) (statusRef r) (isProcessingRef r)
    (processingQueueRef r) v.

(** [setX(...)]: an update of the current state. *)
Definition setState (f : Render -> Render) (w : World) : World :=
  mkWorld (f (state w)) (refs w) (tasks w).
(** [xRef.current = ...]. *)
Definition setRef (f : Refs -> Refs) (w : World) : World :=
  mkWorld (state w) (f (refs w)) (tasks w).
(** Start of an await or of a timer. *)
Definition spawn (t : Task) (w : World) : World :=
  mkWorld (state w) (refs w) (tasks w ++ [t]).

(** The task list without its [n]-th entry. *)
Fixpoint removeNth {A : Type} (n : nat) (l : list A) : list A :=
  match l, n with
  | [], _ => []
  | _ :: t, 0 => t
  | a :: t, S n' => a :: removeNth n' t
  end.

Definition retire (n : nat) (w : World) : World :=
  mkWorld (state w) (refs w) (removeNth n (tasks w)).

(** *** Operations of the source used by both revisions *)

(** [list.find(s => s.id === x)]. *)
Definition findSegment (x : string) (l : list TranscriptionSegment)
  : option TranscriptionSegment :=
  find (fun s => String.eqb (id s) x) l.

Definition findSession (x : string) (l : list RecordingSession)
  : option RecordingSession :=
  find (fun s => String.eqb (session_id s) x) l.

(** A string id used as a condition: the empty string is falsy. *)
Definition truthyId (v : option string) : option string :=
  match v with
  | Some EmptyString => None
  | _ => v
  end.

(** [viewingSessionId ? sessions.find(...)?.segments : segments]. *)
Definition activeSegments (cl : Render) : option (list TranscriptionSegment) :=
  match truthyId (viewingSessionId cl) with
  | Some v => option_map session_segments (findSession v (sessions cl))
  | None => Some (segments cl)
  end.

(** [activeSegments?.find(s => s.id === item.id)]. *)
Definition lookupTarget (cl : Render) (item : Item)
  : option TranscriptionSegment :=
  match activeSegments cl with
  | Some l => findSegment (item_id item) l
  | None => None
  end.

(** [prev.map(s => s.id === segment.id ? { ...s, text: polished } : s)]. *)
Definition updateText (target : string) (polished : jsstring)
  (prev : list TranscriptionSegment) : list TranscriptionSegment :=
  map (fun s => if String.eqb (id s) target
                then mkSegment (id s) (startTime s) (endTime s) polished
                       (translatedText s) (isFinal s)
                else s) prev.

(** [prev.map(s => s.id === segment.id ? { ...s, translatedText } : s)]. *)
Definition updateTranslation (target : string) (translated : jsstring)
  (prev : list TranscriptionSegment) : list TranscriptionSegment :=
  map (fun s => if String.eqb (id s) target
                then mkSegment (id s) (startTime s) (endTime s) (text s)
                       (Some translated) (isFinal s)
                else s) prev.

(** [prev.map(session => session.id === viewingSessionId
      ? { ...session, segments: updateFn(session.segments) } : session)]. *)
Definition updateSession (v : string)
  (updateFn : list TranscriptionSegment -> list TranscriptionSegment)
  (prev : list RecordingSession) : list RecordingSession :=
  map (fun s => if String.eqb (session_id s) v
                then mkSession (session_id s) (title s)
                       (updateFn (session_segments s)) (duration s)
                else s) prev.

(** How an awaited [generateContent] settles: the promise resolves with a
    response whose [text] may be undefined, or it rejects. *)
Inductive Outcome :=
| Resolved (responseText : option jsstring)
| Rejected.

(** [response.text?.trim() || fallback]: the empty string is falsy. *)
Definition trimmedOr (responseText : option jsstring) (fallback : jsstring)
  : jsstring :=
  match responseText with
  | Some t => match trim t with
              | [] => fallback
              | t' => t'
              end
  | None => fallback
  end.

(** [a === b] on strings. *)
Fixpoint jsstring_eqb (a b : jsstring) : bool :=
  match a, b with
  | [], [] => true
  | x :: a', y :: b' => (x =? y)%N && jsstring_eqb a' b'
  | _, _ => false
  end.

(** [/[。！？.!?\n]/.test(s.slice(-1))]. *)
Definition endsSentence (s : jsstring) : bool :=
  match rev s with
  | [] => false
  | c :: _ =>
      ((c =? 0x3002) || (c =? 0xFF01) || (c =? 0xFF1F) || (c =? 0x2E)
       || (c =? 0x21) || (c =? 0x3F) || (c =? 0x0A))%N
  end.

(** [processingQueueRef.current.push(x)]. *)
Definition push (x : Item) (w : World) : World :=
  setRef (fun r => set_processingQueueRef (processingQueueRef r ++ [x]) r) w.

(** User actions, scheduler choices and messages of the live session.
    Ids drawn with [Math.random] come with the event. *)
Inductive Event :=
| Commit
    (** React commits a render and runs the effects: [statusRef] is synced
        and [processQueue] of the new render is called *)
| Settle (n : nat) (o : Outcome)
    (** the external call awaited by task [n] settles *)
| Elapse (n : nat)
    (** the timer or delay of task [n] expires *)
| Tick
    (** the one-second interval of the recording timer *)
| ClickStart (micOk : bool)
| ClickStop (segId sessId : string)
| ClickPause (segId : string)
| ClickResume
| ToggleBilingual
| ViewSession (v segId sessId : string)
| ViewLive
| DeleteSession (v : string)
| LiveOpen (n : nat)
| LiveMessage (n : nat) (inputTranscription : option jsstring)
    (turnComplete : bool) (segId1 segId2 : string)
| LiveError (n : nat)
| LiveReject (n : nat).
    (** the promise of [ai.live.connect] rejects *)

(* ================================================================== *)
(** ** Revision of [src/types.ts]: fixed cooldown, reconnecting session *)

Module FixedCooldown.

(** [finally { isProcessingRef.current = false;
               setTimeout(processQueue, 1000); }] *)
Definition finish (cl : Render) (w : World) : World :=
  spawn (TimerProcessQueue cl 1000) (setRef (set_isProcessingRef false) w).

(** [processQueue] from [isProcessingRef.current = true] to its first
    await.  A translate job met with bilingual mode off counts as a
    success without a call and goes straight to the cooldown. *)
Definition dispatch (cl : Render) (item : Item)
  (segment : TranscriptionSegment) (w : World) : World :=
  let w := setRef (set_isProcessingRef true) w in
  match type item with
  | polish => spawn (AwaitPolish cl item segment) w
  | translate =>
      if isBilingual cl
      then spawn (AwaitTranslate cl item segment) w
      else spawn (AwaitDelay cl (baseCooldownRef (refs w))) w
  end.

(** [shift()], target lookup and, when the segment is gone, the recursive
    call, which shifts the next item (the busy flag is still clear). *)
Fixpoint drainFrom (cl : Render) (queue : list Item) (w : World) : World :=
  match queue with
  | [] => setRef (set_processingQueueRef []) w
  | item :: rest =>
      match lookupTarget cl item with
      | None => drainFrom cl rest w
      | Some segment =>
          dispatch cl item segment (setRef (set_processingQueueRef rest) w)
      end
  end.

Definition processQueue (cl : Render) (w : World) : World :=
  if isProcessingRef (refs w)
     || (length (processingQueueRef (refs w)) =? 0)
  then w
  else drainFrom cl (processingQueueRef (refs w)) w.

(** [polishSegment] after [generateContent] has settled. *)
Definition polishSegment (cl : Render) (segment : TranscriptionSegment)
  (o : Outcome) (w : World) : bool * World :=
  match o with
  | Resolved responseText =>
      let polished := trimmedOr responseText (text segment) in
      let updateFn := updateText (id segment) polished in
      let w := setState (fun r => set_segments (updateFn (segments r)) r) w in
      let w := match truthyId (viewingSessionId cl) with
               | Some v =>
                   setState (fun r => set_sessions
                               (updateSession v updateFn (sessions r)) r) w
               | None => w
               end in
      (true, w)
  | Rejected => (false, w)
  end.

(** [translateSegment] after [generateContent] has settled. *)
Definition translateSegment (cl : Render) (segment : TranscriptionSegment)
  (o : Outcome) (w : World) : bool * World :=
  match o with
  | Resolved responseText =>
      let translated := trimmedOr responseText [] in
      let updateFn := updateTranslation (id segment) translated in
      let w := setState (fun r => set_segments (updateFn (segments r)) r) w in
      let w := match truthyId (viewingSessionId cl) with
               | Some v =>
                   setState (fun r => set_sessions
                               (updateSession v updateFn (sessions r)) r) w
               | None => w
               end in
      (true, w)
  | Rejected => (false, w)
  end.

(** [processQueue] from the result of the call to the next await or to
    the end of the [finally] block. *)
Definition afterCall (cl : Render) (item : Item) (success : bool)
  (w : World) : World :=
  if success
  then spawn (AwaitDelay cl (baseCooldownRef (refs w))) w
  else
    let w := if (retryCount item <? 5)%Z
             then spawn (TimerRequeue cl item
                           (2 ^ retryCount item * 2000)%Z) w
             else w in
    finish cl w.

(** Callback of the retry timer. *)
Definition requeue (item : Item) (w : World) : World :=
  push (mkItem (item_id item) (type item) (retryCount item + 1)%Z) w.

Definition finalizeCurrentSegment (cl : Render) (newId : string)
  (w : World) : World :=
  let text := cleanText (transcriptionBufferRef (refs w)) in
  if length text <? 2 then w
  else
    let newSegment :=
      mkSegment newId (lastSegmentTimeRef (refs w)) (elapsedTime cl) text
        None true in
    let w := setRef (fun r => set_segmentsRef
                                (segmentsRef r ++ [newSegment]) r) w in
    let w := setState (set_segments (segmentsRef (refs w))) w in
    let w := setRef (set_transcriptionBufferRef []) w in
    let w := setRef (set_lastSegmentTimeRef (elapsedTime cl)) w in
    let w := push (mkItem (id newSegment) polish 0) w in
    if isBilingual cl
    then push (mkItem (id newSegment) translate 0) w
    else w.

Definition onopen (w : World) : World :=
  setRef (set_connectionRetryCount 0) w.

Definition onmessage (cl : Render) (inputTranscription : option jsstring)
  (turnComplete : bool) (segId1 segId2 : string) (w : World) : World :=
  let w :=
    match inputTranscription with
    | Some textChunk =>
        let w := setRef (fun r => set_transcriptionBufferRef
                                    (transcriptionBufferRef r ++ textChunk)
                                    r) w in
        let liveText := cleanText (transcriptionBufferRef (refs w)) in
        if (120 <? length liveText)
           || ((25 <? length liveText) && endsSentence liveText)
        then finalizeCurrentSegment cl segId1 w
        else w
    | None => w
    end in
  if turnComplete then finalizeCurrentSegment cl segId2 w else w.

Definition onerror (cl : Render) (w : World) : World :=
  if (connectionRetryCount (refs w) <? 5)%Z
     && negb (RecorderStatus_eqb (statusRef (refs w)) IDLE)
  then
    let w := setRef (fun r => set_connectionRetryCount
                                (connectionRetryCount r + 1)%Z r) w in
    let backoff :=
      Z.min 15000 (2 ^ connectionRetryCount (refs w) * 1000)%Z in
    spawn (TimerConnect cl backoff) w
  else if (5 <=? connectionRetryCount (refs w))%Z
  then setState (set_status ERROR) w
  else w.

(** [connectToLive] up to [ai.live.connect]; the callbacks of the session
    are delivered as events.  [cleanupSession] closes handles that are
    not part of this model. *)
Definition connectToLive (cl : Render) (w : World) : World :=
  match statusRef (refs w) with
  | RECORDING | PAUSED => spawn (LiveSession cl) w
  | _ => w
  end.

(** [startRecording]; [micOk] tells whether [getUserMedia] resolved. *)
Definition startRecording (cl : Render) (micOk : bool) (w : World) : World :=
  let w := setState (set_viewingSessionId None) w in
  let w := setState (set_segments []) w in
  let w := setRef (set_segmentsRef []) w in
  let w := setState (set_elapsedTime 0) w in
  let w := setRef (set_lastSegmentTimeRef 0) w in
  let w := setRef (set_transcriptionBufferRef []) w in
  let w := setRef (set_processingQueueRef []) w in
  let w := setRef (set_connectionRetryCount 0) w in
  if micOk
  then spawn (TimerConnect cl 300) (setState (set_status RECORDING) w)
  else setState (set_status ERROR) w.

Definition pauseRecording (w : World) : World :=
  setState (set_status PAUSED) w.

Definition resumeRecording (w : World) : World :=
  setState (set_status RECORDING) w.

(** [stopRecording] up to the title generation, which is a separate
    fire-and-forget call outside the enrichment queue. *)
Definition stopRecording (cl : Render) (segId sessId : string)
  (w : World) : World :=
  match status cl with
  | IDLE => w
  | _ =>
      let w := finalizeCurrentSegment cl segId w in
      let finalSegments := segmentsRef (refs w) in
      let newSession :=
        mkSession sessId (js "Synthesizing Title...") finalSegments
          (elapsedTime cl) in
      let w := setState (set_sessions (newSession :: sessions cl)) w in
      let w := setState (set_status IDLE) w in
      let w := setState (set_viewingSessionId (Some (session_id newSession)))
                 w in
      let w := setState (set_segments []) w in
      setRef (set_segmentsRef []) w
  end.

Definition deleteSession (cl : Render) (v : string) (w : World) : World :=
  let updated :=
    filter (fun s => negb (String.eqb (session_id s) v)) (sessions cl) in
  let w := setState (set_sessions updated) w in
  match viewingSessionId cl with
  | Some v' => if String.eqb v' v
               then setState (set_viewingSessionId None) w
               else w
  | None => w
  end.

(** One turn of the event loop.  An event aimed at a task of the wrong
    kind, or at none, does nothing. *)
Definition step (e : Event) (w : World) : World :=
  match e with
  | Commit =>
      processQueue (state w) (setRef (set_statusRef (status (state w))) w)
  | Settle n o =>
      match nth_error (tasks w) n with
      | Some (AwaitPolish cl item segment) =>
          let (success, w') := polishSegment cl segment o (retire n w) in
          afterCall cl item success w'
      | Some (AwaitTranslate cl item segment) =>
          let (success, w') := translateSegment cl segment o (retire n w) in
          afterCall cl item success w'
      | _ => w
      end
  | Elapse n =>
      match nth_error (tasks w) n with
      | Some (AwaitDelay cl _) => finish cl (retire n w)
      | Some (TimerRequeue _ item _) => requeue item (retire n w)
      | Some (TimerProcessQueue cl _) => processQueue cl (retire n w)
      | Some (TimerConnect cl _) => connectToLive cl (retire n w)
      | _ => w
      end
  | Tick =>
      match status (state w) with
      | RECORDING =>
          setState (fun r => set_elapsedTime (elapsedTime r + 1)%Z r) w
      | _ => w
      end
  | ClickStart micOk => startRecording (state w) micOk w
  | ClickStop segId sessId => stopRecording (state w) segId sessId w
  | ClickPause _ => pauseRecording w
  | ClickResume => resumeRecording w
  | ToggleBilingual =>
      setState (set_isBilingual (negb (isBilingual (state w)))) w
  | ViewSession v segId sessId =>
      let w' := match status (state w) with
                | IDLE => w
                | _ => stopRecording (state w) segId sessId w
                end in
      setState (set_viewingSessionId (Some v)) w'
  | ViewLive => w
  | DeleteSession v => deleteSession (state w) v w
  | LiveOpen n =>
      match nth_error (tasks w) n with
      | Some (LiveSession _) => onopen w
      | _ => w
      end
  | LiveMessage n inputTranscription turnComplete segId1 segId2 =>
      match nth_error (tasks w) n with
      | Some (LiveSession cl) =>
          onmessage cl inputTranscription turnComplete segId1 segId2 w
      | _ => w
      end
  | LiveError n =>
      match nth_error (tasks w) n with
      | Some (LiveSession cl) => onerror cl w
      | _ => w
      end
  | LiveReject n =>
      match nth_error (tasks w) n with
      | Some (LiveSession _) => setState (set_status ERROR) (retire n w)
      | _ => w
      end
  end.

(** The world after a sequence of events, oldest first. *)
Definition run (es : list Event) (w : World) : World :=
  fold_left (fun w e => step e w) es w.

End FixedCooldown.

(* ================================================================== *)
(** ** Revision of [src/unnamed/part_002]: adaptive cooldown *)

Module AdaptiveCooldown.

(** [finally { isProcessingRef.current = false; processQueue(); }];
    the recursive call is passed in to keep the definitions in source
    order. *)
Definition finishWith (processQueue : Render -> World -> World)
  (cl : Render) (w : World) : World :=
  processQueue cl (setRef (set_isProcessingRef false) w).

Definition dispatch (cl : Render) (item : Item)
  (segment : TranscriptionSegment) (w : World) : World :=
  let w := setRef (set_isProcessingRef true) w in
  match type item with
  | polish => spawn (AwaitPolish cl item segment) w
  | translate =>
      if isBilingual cl
      then spawn (AwaitTranslate cl item segment) w
      else
        (* success = true: skip if bilingual turned off *)
        let w := setRef (fun r => set_baseCooldownRef
                                    (Z.max 2000 (baseCooldownRef r - 500)) r)
                   w in
        spawn (AwaitDelay cl (baseCooldownRef (refs w))) w
  end.

Fixpoint drainFrom (cl : Render) (queue : list Item) (w : World) : World :=
  match queue with
  | [] => setRef (set_processingQueueRef []) w
  | item :: rest =>
      match lookupTarget cl item with
      | None => drainFrom cl rest w
      | Some segment =>
          dispatch cl item segment (setRef (set_processingQueueRef rest) w)
      end
  end.

Definition processQueue (cl : Render) (w : World) : World :=
  if isProcessingRef (refs w)
     || (length (processingQueueRef (refs w)) =? 0)
  then w
  else drainFrom cl (processingQueueRef (refs w)) w.

Definition finish : Render -> World -> World := finishWith processQueue.

Definition polishSegment (cl : Render) (segment : TranscriptionSegment)
  (o : Outcome) (w : World) : bool * World :=
  match o with
  | Resolved responseText =>
      let polished := trimmedOr responseText (text segment) in
      if jsstring_eqb polished (text segment) then (true, w)
      else
        let updateFn := updateText (id segment) polished in
        let w := setState (fun r => set_segments (updateFn (segments r)) r)
                   w in
        let w := setRef (fun r => set_segmentsRef (updateFn (segmentsRef r))
                                    r) w in
        let w := match truthyId (viewingSessionId cl) with
                 | Some v =>
                     setState (fun r => set_sessions
                                 (updateSession v updateFn (sessions r)) r) w
                 | None => w
                 end in
        (true, w)
  | Rejected => (false, w)
  end.

Definition translateSegment (cl : Render) (segment : TranscriptionSegment)
  (o : Outcome) (w : World) : bool * World :=
  match o with
  | Resolved responseText =>
      let translated := trimmedOr responseText [] in
      let updateFn := updateTranslation (id segment) translated in
      let w := setState (fun r => set_segments (updateFn (segments r)) r) w in
      let w := setRef (fun r => set_segmentsRef (updateFn (segmentsRef r)) r)
                 w in
      let w := match truthyId (viewingSessionId cl) with
               | Some v =>
                   setState (fun r => set_sessions
                               (updateSession v updateFn (sessions r)) r) w
               | None => w
               end in
      (true, w)
  | Rejected => (false, w)
  end.

(** [processQueue] from the result of the call to its next await. *)
Definition afterCall (cl : Render) (item : Item) (success : bool)
  (w : World) : World :=
  if success
  then
    let w := setRef (fun r => set_baseCooldownRef
                                (Z.max 2000 (baseCooldownRef r - 500)) r) w in
    spawn (AwaitDelay cl (baseCooldownRef (refs w))) w
  else
    if (retryCount item <? 5)%Z
    then
      let backoff := (2 ^ retryCount item * 2000)%Z in
      let w := setRef (fun r => set_baseCooldownRef
                                  (Z.min 15000 (baseCooldownRef r + 2000)) r)
                 w in
      let w := spawn (TimerRequeue cl item backoff) w in
      spawn (AwaitDelay cl 1000) w
    else finish cl w.

(** Callback of the retry timer: push, then [processQueue()]. *)
Definition requeue (cl : Render) (item : Item) (w : World) : World :=
  processQueue cl
    (push (mkItem (item_id item) (type item) (retryCount item + 1)%Z) w).

Definition finalizeCurrentSegment (cl : Render) (newId : string)
  (w : World) : World :=
  let text := cleanHallucinations (trim (transcriptionBufferRef (refs w))) in
  if length text <? 1 then w
  else
    let startTime' := lastSegmentTimeRef (refs w) in
    let endTime' := elapsedTime cl in
    let newSegment :=
      mkSegment newId startTime' (Z.max endTime' (startTime' + 1)) text
        None true in
    let w := setRef (fun r => set_segmentsRef
                                (segmentsRef r ++ [newSegment]) r) w in
    let w := setState (set_segments (segmentsRef (refs w))) w in
    let w := setRef (set_transcriptionBufferRef []) w in
    let w := setRef (set_lastSegmentTimeRef (endTime newSegment))
               w in
    let w := push (mkItem (id newSegment) polish 0) w in
    if isBilingual cl
    then push (mkItem (id newSegment) translate 0) w
    else w.

Definition onmessage (cl : Render) (inputTranscription : option jsstring)
  (turnComplete : bool) (segId1 segId2 : string) (w : World) : World :=
  let w :=
    match inputTranscription with
    | Some textChunk =>
        let textChunk := cleanHallucinations textChunk in
        let w := setRef (fun r => set_transcriptionBufferRef
                                    (transcriptionBufferRef r ++ textChunk)
                                    r) w in
        let cleanedText :=
          cleanHallucinations (transcriptionBufferRef (refs w)) in
        if (50 <? length cleanedText)
           || ((8 <? length cleanedText) && endsSentence cleanedText)
        then finalizeCurrentSegment cl segId1 w
        else w
    | None => w
    end in
  if turnComplete then finalizeCurrentSegment cl segId2 w else w.

(** [onerror: (e) => setStatus(RecorderStatus.ERROR)]. *)
Definition onerror (w : World) : World := setState (set_status ERROR) w.

(** [startRecording]; the session is requested in the same call. *)
Definition startRecording (cl : Render) (micOk : bool) (w : World) : World :=
  let w := setState (set_viewingSessionId None) w in
  let w := setState (set_segments []) w in
  let w := setRef (set_segmentsRef []) w in
  let w := setState (set_elapsedTime 0) w in
  let w := setRef (set_lastSegmentTimeRef 0) w in
  let w := setRef (set_transcriptionBufferRef []) w in
  let w := setRef (set_processingQueueRef []) w in
  if micOk
  then spawn (LiveSession cl) (setState (set_status RECORDING) w)
  else setState (set_status ERROR) w.

Definition pauseRecording (cl : Render) (segId : string) (w : World)
  : World :=
  match status cl with
  | RECORDING =>
      finalizeCurrentSegment cl segId (setState (set_status PAUSED) w)
  | _ => w
  end.

Definition resumeRecording (cl : Render) (w : World) : World :=
  match status cl with
  | PAUSED => setState (set_status RECORDING) w
  | _ => w
  end.

(** [stopRecording]; the time of day that ends the title is left out. *)
Definition stopRecording (cl : Render) (segId sessId : string)
  (w : World) : World :=
  match status cl with
  | IDLE => w
  | _ =>
      let w := finalizeCurrentSegment cl segId w in
      let newSession :=
        mkSession sessId (js "Lesson") (segmentsRef (refs w))
          (elapsedTime cl) in
      let updated := newSession :: sessions cl in
      let w := setState (set_sessions updated) w in
      let w := setState (set_status IDLE) w in
      let w := setState (set_viewingSessionId (Some (session_id newSession)))
                 w in
      let w := setState (set_segments []) w in
      let w := setRef (set_segmentsRef []) w in
      setRef (set_processingQueueRef []) w
  end.

Definition step (e : Event) (w : World) : World :=
  match e with
  | Commit =>
      processQueue (state w) (setRef (set_statusRef (status (state w))) w)
  | Settle n o =>
      match nth_error (tasks w) n with
      | Some (AwaitPolish cl item segment) =>
          let (success, w') := polishSegment cl segment o (retire n w) in
          afterCall cl item success w'
      | Some (AwaitTranslate cl item segment) =>
          let (success, w') := translateSegment cl segment o (retire n w) in
          afterCall cl item success w'
      | _ => w
      end
  | Elapse n =>
      match nth_error (tasks w) n with
      | Some (AwaitDelay cl _) => finish cl (retire n w)
      | Some (TimerRequeue cl item _) => requeue cl item (retire n w)
      | _ => w
      end
  | Tick =>
      match status (state w) with
      | RECORDING =>
          setState (fun r => set_elapsedTime (elapsedTime r + 1)%Z r) w
      | _ => w
      end
  | ClickStart micOk => startRecording (state w) micOk w
  | ClickStop segId sessId => stopRecording (state w) segId sessId w
  | ClickPause segId => pauseRecording (state w) segId w
  | ClickResume => resumeRecording (state w) w
  | ToggleBilingual =>
      setState (set_isBilingual (negb (isBilingual (state w)))) w
  | ViewSession v segId sessId =>
      let w' := match status (state w) with
                | IDLE => w
                | _ => stopRecording (state w) segId sessId w
                end in
      setState (set_viewingSessionId (Some v)) w'
  | ViewLive =>
      let w' := setState (set_viewingSessionId None) w in
      match status (state w) with
      | IDLE => setState (set_segments []) w'
      | _ => w'
      end
  | DeleteSession _ => w
  | LiveOpen _ => w
  | LiveMessage n inputTranscription turnComplete segId1 segId2 =>
      match nth_error (tasks w) n with
      | Some (LiveSession cl) =>
          onmessage cl inputTranscription turnComplete segId1 segId2 w
      | _ => w
      end
  | LiveError n =>
      match nth_error (tasks w) n with
      | Some (LiveSession _) => onerror w
      | _ => w
      end
  | LiveReject n =>
      match nth_error (tasks w) n with
      | Some (LiveSession _) => setState (set_status ERROR) (retire n w)
      | _ => w
      end
  end.

Definition run (es : list Event) (w : World) : World :=
  fold_left (fun w e => step e w) es w.

End AdaptiveCooldown.

(** The application when it is mounted: [saved] is what local storage
    holds, [cooldown] the initial value of [baseCooldownRef] (3500 in
    [src/types.ts], 2500 in [src/unnamed/part_002]). *)
Definition mount (saved : list RecordingSession) (cooldown : Z) : World :=
  mkWorld (mkRender IDLE [] saved None false 0)
          (mkRefs [] [] 0 0 IDLE false [] cooldown)
          [].





(** [f] applied [n] times. *)
Fixpoint iterate {A : Type} (n : nat) (f : A -> A) (x : A) : A :=
  match n with
  | 0 => x
  | S n' => iterate n' f (f x)
  end.

(* ================================================================== *)
(** ** Notions used in the statements and in the proofs *)

(** *** Closed form of the matcher for the two shapes of pattern

    Both kinds of pattern have the shape [(.{lo,hi})\1{k,}], [(.)] being
    [lo = hi = 1].  For that shape the backtracking search comes down to
    this: the greedy group first takes as many non-line-terminator units as
    it may, then gives them back one at a time; for each group length the
    greedy back-reference loop takes every copy available, and the attempt
    succeeds when it took at least [k]. *)

(** Number of leading units [.] can match. *)
Fixpoint dotRun (s : jsstring) : nat :=
  match s with
  | [] => 0
  | c :: t => if isLineTerminator c then 0 else S (dotRun t)
  end.

(** Greedy loop [\1{k,}]: how many consecutive copies of [g] start [s].
    Every copy of a non-empty capture consumes input, so [length s] rounds
    are enough. *)
Fixpoint backrefCopies (fuel : nat) (g s : jsstring) : nat :=
  match fuel with
  | 0 => 0
  | S fuel' =>
      match matchBackref g s with
      | Some rest => S (backrefCopies fuel' g rest)
      | None => 0
      end
  end.

Section Pattern.
(** [(.{lo,hi})\1{k,}]; [hi = None] is the open quantifier [{lo,}]. *)
Variables (lo : nat) (hi : option nat) (k : nat).

(** Attempt with a group of exactly [len] units: capture and length of
    the whole match. *)
Definition tryGroup (s : jsstring) (len : nat) : option (jsstring * nat) :=
  let g := firstn len s in
  let rest := skipn len s in
  let r := backrefCopies (length rest) g rest in
  if k <=? r then Some (g, len + r * len) else None.

(** Group lengths [lo + n], [lo + n - 1], ..., [lo], longest first. *)
Fixpoint backtrack (s : jsstring) (n : nat) : option (jsstring * nat) :=
  match tryGroup s (lo + n) with
  | Some m => Some m
  | None =>
      match n with
      | 0 => None
      | S n' => backtrack s n'
      end
  end.

(** Match anchored at the start of [s]. *)
Definition matchAt (s : jsstring) : option (jsstring * nat) :=
  let avail := match hi with
               | Some h => Nat.min h (dotRun s)
               | None => dotRun s
               end in
  if avail <? lo then None else backtrack s (avail - lo).

Definition replaceAll (s : jsstring) : jsstring := replaceFrom matchAt 0 s.
End Pattern.

(** What follows the group in [(...)\1{k,}] when the match started on
    [s]: the capture is what the group took, then comes the loop of
    back-references and the end of the pattern. *)
Definition afterGroup (k : nat) (s : jsstring) : Continuation :=
  fun y =>
    repeatMatcher (compile Backref) k None (length (fst y) + k)
      (fst y, firstn (length s - length (fst y)) s) (fun z => Some z).

(** The continuations of the group, tried on ever shorter groups: lengths
    [lo + n], ..., [lo]. *)
Fixpoint tryDown (c : Continuation) (s capture : jsstring) (lo n : nat)
  : option MatchState :=
  match c (skipn (lo + n) s, capture) with
  | Some z => Some z
  | None =>
      match n with
      | 0 => None
      | S n' => tryDown c s capture lo n'
      end
  end.

(** A function on strings that returns its argument or a strictly shorter
    string. *)
Definition shrinking (f : jsstring -> jsstring) : Prop :=
  forall s, f s = s \/ length (f s) < length s.

(** Number of leading units of [s] equal to [c]. *)
Fixpoint leading (c : codeunit) (s : jsstring) : nat :=
  match s with
  | [] => 0
  | b :: t => if (c =? b)%N then S (leading c t) else 0
  end.

(** No suffix of [s] starts with a match of [(.{lo,hi})\1{k,}]: the scan
    of [replaceAll] finds nothing to replace. *)
Fixpoint settled (lo : nat) (hi : option nat) (k : nat) (s : jsstring)
  : Prop :=
  match s with
  | [] => True
  | c :: t => matchAt lo hi k (c :: t) = None /\ settled lo hi k t
  end.


(** A task that stands inside the [try] block of [processQueue]. *)
Definition inTry (t : Task) : bool :=
  match t with
  | AwaitPolish _ _ _ | AwaitTranslate _ _ _ | AwaitDelay _ _ => true
  | _ => false
  end.

(** A task that is an outstanding external refinement call. *)
Definition isCall (t : Task) : bool :=
  match t with
  | AwaitPolish _ _ _ | AwaitTranslate _ _ _ => true
  | _ => false
  end.

Definition workers (w : World) : nat := length (filter inTry (tasks w)).

Definition outstandingCalls (w : World) : nat :=
  length (filter isCall (tasks w)).

(** One activation of [processQueue] is inside its [try] block exactly
    when the busy flag is set. *)
Definition singleFlight (w : World) : Prop :=
  workers w = if isProcessingRef (refs w) then 1 else 0.

(** The retry timers pending, with their delays. *)
Fixpoint retryTimers (l : list Task) : list (Item * Z) :=
  match l with
  | [] => []
  | TimerRequeue _ item ms :: t => (item, ms) :: retryTimers t
  | _ :: t => retryTimers t
  end.

(** Unfolding of the field updates, for goals about one field. *)
Ltac fields :=
  unfold workers in *;
  cbn [state refs tasks isProcessingRef processingQueueRef segmentsRef
       transcriptionBufferRef lastSegmentTimeRef connectionRetryCount
       statusRef baseCooldownRef status segments sessions viewingSessionId
       isBilingual elapsedTime
       push spawn retire setState setRef
       set_status set_segments set_sessions set_viewingSessionId
       set_isBilingual set_elapsedTime set_transcriptionBufferRef
       set_segmentsRef set_lastSegmentTimeRef set_connectionRetryCount
       set_statusRef set_isProcessingRef set_processingQueueRef
       set_baseCooldownRef] in *.

(** The worker's bookkeeping is untouched: same busy flag, same number of
    activations inside the [try] block. *)
Definition sameWorker (w w' : World) : Prop :=
  workers w' = workers w /\
  isProcessingRef (refs w') = isProcessingRef (refs w).

(** [item] with one more retry on its counter. *)
Definition retried (item : Item) : Item :=
  mkItem (item_id item) (type item) (retryCount item + 1).

(** [q'] is what is left of [q] after some shifts. *)
Definition shifted (q q' : list Item) : Prop := exists p, q = p ++ q'.

Definition sampleSegment : TranscriptionSegment :=
  mkSegment "s1" 0 4 (js "hello there") None true.

Definition sampleRender : Render :=
  mkRender RECORDING [sampleSegment] [] None true 4.

(** A world with one polish call outstanding, on its third attempt. *)
Definition sampleBusy : World :=
  mkWorld sampleRender
    (mkRefs [] [sampleSegment] 4 0 RECORDING true
       [mkItem "s1" translate 0] 3500)
    [AwaitPolish sampleRender (mkItem "s1" polish 2) sampleSegment].

(** Start and end time of every segment of the live list. *)
Definition spans (w : World) : list (Z * Z) :=
  map (fun s => (startTime s, endTime s)) (segmentsRef (refs w)).

(** A recording in which two utterances are completed within the first
    second. *)
Definition twoQuickTurns : list Event :=
  [ClickStart true; Commit; Elapse 0;
   LiveMessage 0 (Some (js "Hello world.")) false "a" "b";
   LiveMessage 0 None true "c" "d";
   LiveMessage 0 (Some (js "Second one.")) false "e" "f";
   LiveMessage 0 None true "g" "h"].

(** A world in the middle of a recording whose buffer holds [buffer] and
    whose queue holds [queue]. *)
Definition recordingWith (buffer : jsstring) (queue : list Item) : World :=
  mkWorld (mkRender RECORDING [sampleSegment] [] None false 9)
    (mkRefs buffer [sampleSegment] 4 0 RECORDING false queue 3500) [].

(** The delays of the reconnect timers pending. *)
Fixpoint reconnectTimers (l : list Task) : list Z :=
  match l with
  | [] => []
  | TimerConnect _ ms :: t => ms :: reconnectTimers t
  | _ :: t => reconnectTimers t
  end.

(** A recording whose session fails [n] times in a row, each failure
    followed by the reconnect it scheduled; [k] is the position of the
    failing session in the task list. *)
Fixpoint failures (n k : nat) : list Event :=
  match n with
  | 0 => []
  | S n' => LiveError k :: Elapse (S k) :: failures n' (S k)
  end.

Definition recordingStarted : list Event := [ClickStart true; Commit; Elapse 0].

(** A recording whose first utterance has just been finalized and taken
    from the queue. *)
Definition oneTurn : list Event :=
  recordingStarted ++
  [LiveMessage 0 (Some (js "Hello world.")) true "a" "b"; Commit].

Definition goodSegs (l : list TranscriptionSegment) : Prop :=
  Forall (fun s => text s <> []) l.

Definition goodSessions (l : list RecordingSession) : Prop :=
  Forall (fun x => goodSegs (session_segments x)) l.

Definition goodRender (r : Render) : Prop :=
  goodSegs (segments r) /\ goodSessions (sessions r).

Definition goodTask (t : Task) : Prop :=
  match t with
  | AwaitPolish cl _ segment | AwaitTranslate cl _ segment =>
      goodRender cl /\ text segment <> []
  | AwaitDelay cl _ | TimerRequeue cl _ _ | TimerProcessQueue cl _
  | TimerConnect cl _ | LiveSession cl => goodRender cl
  end.

Definition goodWorld (w : World) : Prop :=
  goodRender (state w) /\
  goodSegs (segmentsRef (refs w)) /\
  Forall goodTask (tasks w).

(** Each segment starts at [start], the end of the one before it. *)
Fixpoint chain (start : Z) (l : list TranscriptionSegment) : Prop :=
  match l with
  | [] => True
  | s :: t => startTime s = start /\ chain (endTime s) t
  end.

(** Where the list ends when it starts at [start]. *)
Fixpoint endOf (start : Z) (l : list TranscriptionSegment) : Z :=
  match l with
  | [] => start
  | s :: t => endOf (endTime s) t
  end.

Definition positive (l : list TranscriptionSegment) : Prop :=
  Forall (fun s => (startTime s < endTime s)%Z) l.

(** The live list is a chain that ends at the last boundary. *)
Definition chained (w : World) : Prop :=
  exists start,
    chain start (segmentsRef (refs w)) /\
    (segmentsRef (refs w) = [] \/
     endOf start (segmentsRef (refs w)) = lastSegmentTimeRef (refs w)).

(** Segment list and last boundary are untouched. *)
Definition sameTimeline (w w' : World) : Prop :=
  segmentsRef (refs w') = segmentsRef (refs w) /\
  lastSegmentTimeRef (refs w') = lastSegmentTimeRef (refs w).

(** The live list is a chain of segments of positive length. *)
Definition timed (w : World) : Prop :=
  chained w /\ positive (segmentsRef (refs w)).

(* ================================================================== *)
(** ** Session archive ([src/types.ts], lines 391-427) *)

(** [prev.map(s => s.id === x ? { ...s, title: newTitle } : s)]. *)
Definition retitle (x : string) (newTitle : jsstring)
  (prev : list RecordingSession) : list RecordingSession :=
  map (fun s => if String.eqb (session_id s) x
                then mkSession (session_id s) newTitle (session_segments s)
                       (duration s)
                else s) prev.

(** [renameSession]: the list of the render the handler belongs to is
    mapped and stored. *)
Definition renameSession (cl : Render) (x : string) (newTitle : jsstring)
  (w : World) : World :=
  let updated := retitle x newTitle (sessions cl) in
  setState (set_sessions updated) w.

(** The end of [stopRecording] of [src/types.ts], once the title request
    for the session [newSessionId] has settled. *)
Definition titleGenerated (newSessionId : string) (o : Outcome) (w : World)
  : World :=
  match o with
  | Resolved responseText =>
      let smartTitle := trimmedOr responseText (js "Academic Lecture") in
      setState (fun r => set_sessions
                           (retitle newSessionId smartTitle (sessions r)) r) w
  | Rejected =>
      setState (fun r => set_sessions
                           (retitle newSessionId (js "Lecture Recording")
                              (sessions r)) r) w
  end.

(* ================================================================== *)
(** ** Context of a polish request ([src/types.ts], lines 133-134) *)

(** [list.indexOf(segment)] for the [segment] that
    [list.find(s => s.id === x)] returned.  [find] returns the first
    element with that id and [indexOf] the first position holding that
    very object, which are the same position; [-1] when there is none. *)
Fixpoint indexOfId (x : string) (l : list TranscriptionSegment) : Z :=
  match l with
  | [] => -1
  | s :: t =>
      if String.eqb (id s) x then 0
      else let i := indexOfId x t in
           if (i <? 0)%Z then -1 else (i + 1)%Z
  end.

(** [list.slice(start, stop)] for [0 <= start]. *)
Definition slice {A : Type} (start stop : Z) (l : list A) : list A :=
  firstn (Z.to_nat stop - Z.to_nat start) (skipn (Z.to_nat start) l).

(** [segmentIndex > 0
      ? currentActiveSegments.slice(Math.max(0, segmentIndex - 3),
                                    segmentIndex)
      : []]. *)
Definition contextSegments (segment : TranscriptionSegment)
  (currentActiveSegments : list TranscriptionSegment)
  : list TranscriptionSegment :=
  let segmentIndex := indexOfId (id segment) currentActiveSegments in
  if (0 <? segmentIndex)%Z
  then slice (Z.max 0 (segmentIndex - 3)) segmentIndex currentActiveSegments
  else [].

(* ================================================================== *)
(** ** Time labels and rows of [TranscriptionList]
       ([src/unnamed/part_000], [src/unnamed/part_001]) *)

(** [n.toString()] for an integer [n]: the decimal digits, after a minus
    sign when [n] is negative (what JavaScript prints below [10^21]). *)
Definition toString (n : Z) : jsstring :=
  js (DecimalString.NilEmpty.string_of_int (Z.to_int n)).

(** [s.padStart(targetLength, fill)] for a [fill] of one unit. *)
Definition padStart (targetLength : nat) (fill : codeunit) (s : jsstring)
  : jsstring :=
  repeat fill (targetLength - length s) ++ s.

(** [formatTime] for a whole number of seconds: [Math.floor(seconds / 60)]
    is the floor division and [%] the remainder with the sign of the
    dividend, which [Math.floor] leaves as it is. *)
Definition formatTime (seconds : Z) : jsstring :=
  let m := (seconds / 60)%Z in
  let s := Z.rem seconds 60 in
  padStart 2 0x30%N (toString m) ++ [0x3A%N] ++ padStart 2 0x30%N (toString s).

(** A string used as a condition: the empty string and [undefined] are
    falsy. *)
Definition truthyText (t : option jsstring) : option jsstring :=
  match t with
  | Some [] => None
  | _ => t
  end.

(** What a row shows under the text of its segment. *)
Inductive TranslationRow :=
| Translation (t : jsstring)
    (** [isBilingual && segment.translatedText]: the translation *)
| Translating
    (** [isBilingual && !segment.translatedText]: the indicator *)
| NoTranslationRow.

Definition translationRow (isBilingual : bool)
  (segment : TranscriptionSegment) : TranslationRow :=
  if isBilingual
  then match truthyText (translatedText segment) with
       | Some t => Translation t
       | None => Translating
       end
  else NoTranslationRow.

(** The [content] that [copyToClipboard] writes. *)
Definition copyContent (isBilingual : bool) (text : jsstring)
  (translated : option jsstring) : jsstring :=
  match (if isBilingual then truthyText translated else None) with
  | Some t => text ++ [0x0A%N] ++ t
  | None => text
  end.

(* ================================================================== *)
(** ** Export of a session ([src/types.ts], lines 429-446) *)

(** The class of the pattern in [link.download]: slash, backslash,
    question mark, percent, star, colon, bar, double quote, less-than and
    greater-than. *)
Definition reservedInFileName (c : codeunit) : bool :=
  ((c =? 0x2F) || (c =? 0x5C) || (c =? 0x3F) || (c =? 0x25) || (c =? 0x2A)
   || (c =? 0x3A) || (c =? 0x7C) || (c =? 0x22) || (c =? 0x3C)
   || (c =? 0x3E))%N.

(** [session.title.replace(re, '_')] for the pattern [re] of that class
    with the [g] flag. *)
Definition sanitizeTitle (title : jsstring) : jsstring :=
  map (fun c => if reservedInFileName c then 0x5F%N else c) title.

(** [link.download]. *)
Definition exportFileName (session : RecordingSession) : jsstring :=
  sanitizeTitle (title session) ++ js ".txt".

(* ================================================================== *)
(** ** Waveform ([src/components/Waveform.tsx], lines 19-45)

    The numbers of [draw] are multiples of [1/32] far below [2^53], on
    which floating-point arithmetic is exact: they are embedded as
    rationals. *)

Module Waveform.
Import QArith.
Local Open Scope Q_scope.

(** [<canvas width={600} height={100} />]. *)
Definition canvasWidth : Q := 600.
Definition canvasHeight : Q := 100.

Definition fftSize : nat := 256.

(** [analyzer.frequencyBinCount]: half the FFT size. *)
Definition bufferLength : nat := Nat.div fftSize 2.

(** A call of [ctx.fillRect(x, y, w, h)]. *)
Record FillRect := fillRect { rectX : Q; rectY : Q; rectW : Q; rectH : Q }.

Definition barWidth : Q :=
  (canvasWidth / inject_Z (Z.of_nat bufferLength)) * 2.5.

(** The loop of [draw] from index [i] on, the pen being at [x];
    [dataArray] holds the bytes still to be drawn. *)
Fixpoint drawFrom (dataArray : list N) (x : Q) : list FillRect :=
  match dataArray with
  | [] => []
  | byte :: rest =>
      let barHeight := inject_Z (Z.of_N byte) / 2 in
      fillRect x (canvasHeight - barHeight) barWidth barHeight
      :: drawFrom rest (x + barWidth + 1)
  end.

(** The rectangles one frame fills; [dataArray] is the array of
    [bufferLength] bytes that [getByteFrequencyData] wrote. *)
Definition draw (dataArray : list N) : list FillRect :=
  drawFrom dataArray 0.

End Waveform.

(* ================================================================== *)
(** ** Further notions used in the statements *)




(** The delays of the cooldowns being awaited. *)
Fixpoint cooldowns (l : list Task) : list Z :=
  match l with
  | [] => []
  | AwaitDelay _ ms :: t => ms :: cooldowns t
  | _ :: t => cooldowns t
  end.

(** The cooldown satisfies [P] and every cooldown being awaited [Q]. *)
Definition cooling (P Q : Z -> Prop) (w : World) : Prop :=
  P (baseCooldownRef (refs w)) /\ Forall Q (cooldowns (tasks w)).

(** The delays a reconnect may be scheduled with. *)
Definition reconnectDelays : list Z := [300; 2000; 4000; 8000; 15000]%Z.

(** The retry counter of the connection is between 0 and 5 and every
    pending reconnect uses one of [reconnectDelays]. *)
Definition reconnecting (w : World) : Prop :=
  (0 <= connectionRetryCount (refs w) <= 5)%Z /\
  Forall (fun ms => In ms reconnectDelays) (reconnectTimers (tasks w)).

(** The text being captured is short enough not to have been finalized:
    at most [longest] units, and at most [shortest] when it ends a
    sentence. *)
Definition pendingWithin (clean : jsstring -> jsstring)
  (longest shortest : nat) (w : World) : Prop :=
  let liveText := clean (transcriptionBufferRef (refs w)) in
  length liveText <= longest /\
  (length liveText <= shortest \/ endsSentence liveText = false).

(** No segment of the list carries a translation. *)
Definition untranslated (l : list TranscriptionSegment) : Prop :=
  Forall (fun s => translatedText s = None) l.

(** What identifies and places a segment: everything but its texts. *)
Definition frame (s : TranscriptionSegment) : string * Z * Z * bool :=
  (id s, startTime s, endTime s, isFinal s).

(** What identifies a session and its rows. *)
Definition sessionFrame (x : RecordingSession)
  : string * jsstring * list (string * Z * Z * bool) * Z :=
  (session_id x, title x, map frame (session_segments x), duration x).

(** Same rows and same sessions, texts and translations apart. *)
Definition sameStructure (w w' : World) : Prop :=
  map frame (segments (state w')) = map frame (segments (state w)) /\
  map frame (segmentsRef (refs w')) = map frame (segmentsRef (refs w)) /\
  map sessionFrame (sessions (state w')) =
  map sessionFrame (sessions (state w)).

(** A bilingual recording whose first utterance has been polished and
    translated. *)
Definition enrichedTurn : list Event :=
  ToggleBilingual :: oneTurn ++
  [Settle 1 (Resolved (Some (js "Hello, world."))); Elapse 1; Elapse 1;
   Commit; Settle 1 (Resolved (Some (js "Bonjour.")))].

(** The unit of the decimal digit [d]. *)
Definition digit (d : Z) : codeunit := (0x30 + Z.to_N d)%N.

(** [session] under the title [t]. *)
Definition retitled (t : jsstring) (session : RecordingSession)
  : RecordingSession :=
  mkSession (session_id session) t (session_segments session)
    (duration session).

(** A segment that lasts one second, under the id [i]. *)
Definition sampleRow (i : string) : TranscriptionSegment :=
  mkSegment i 0 1 (js "text") None true.

(** Code units back to a string of 8-bit characters. *)
Definition unjs (s : jsstring) : string :=
  string_of_list_ascii (map ascii_of_N s).

(** The number a string of decimal digits stands for, leading zeros
    allowed; [None] for any other string. *)
Definition decimalValue (s : jsstring) : option N :=
  option_map N.of_uint (DecimalString.NilEmpty.uint_of_string (unjs s)).

(** A bilingual recording whose first utterance is being translated. *)
Definition awaitingTranslation : World :=
  FixedCooldown.run
    (ToggleBilingual :: oneTurn ++
     [Settle 1 (Resolved None); Elapse 1; Elapse 1])
    (mount [] 3500).

(** The render a task resumes in. *)
Definition closure (t : Task) : Render :=
  match t with
  | AwaitPolish cl _ _ | AwaitTranslate cl _ _ | AwaitDelay cl _
  | TimerRequeue cl _ _ | TimerProcessQueue cl _ | TimerConnect cl _
  | LiveSession cl => cl
  end.

(** No segment of the list starts or ends before time 0. *)
Definition fromZero (l : list TranscriptionSegment) : Prop :=
  Forall (fun s => (0 <= startTime s)%Z /\ (0 <= endTime s)%Z) l.

(** The clock and the timeline never go below 0. *)
Definition clocked (w : World) : Prop :=
  (0 <= elapsedTime (state w))%Z /\
  (0 <= lastSegmentTimeRef (refs w))%Z /\
  fromZero (segmentsRef (refs w)) /\
  fromZero (segments (state w)) /\
  Forall (fun t => (0 <= elapsedTime (closure t))%Z) (tasks w).

(** A segment as [finalizeCurrentSegment] of [src/types.ts] creates it:
    final, with a trimmed text of at least two units. *)
Definition asFinalized (s : TranscriptionSegment) : Prop :=
  isFinal s = true /\ 2 <= length (text s) /\ trim (text s) = text s.

(** A queued job whose segment is not in the list the render shows. *)
Definition orphan (cl : Render) (item : Item) : Prop :=
  lookupTarget cl item = None.

(* ================================================================== *)
(** * Properties of the normaliser *)

Lemma shrinking_compose f g :
  shrinking f -> shrinking g -> shrinking (fun s => g (f s)).
Proof.
  intros Hf Hg s. destruct (Hf s) as [E | L].
  - rewrite E. apply Hg.
  - right. destruct (Hg (f s)) as [E' | L']; [rewrite E' | ]; lia.
Qed.

Lemma shrinking_fixpoint (f : jsstring -> jsstring) s n :
  f s = s -> iterate n f s = s.
Proof. intros E. induction n; simpl; [reflexivity | now rewrite E]. Qed.

Lemma shrinking_stabilises f :
  shrinking f ->
  forall n s, length s <= n -> f (iterate n f s) = iterate n f s.
Proof.
  intros Hf. induction n as [| n IH]; intros s Hs; simpl.
  - destruct (Hf s) as [E | L]; [exact E | lia].
  - destruct (Hf s) as [E | L].
    + rewrite E. rewrite (shrinking_fixpoint f s n E). exact E.
    + apply IH. lia.
Qed.

Lemma trimStart_suffix s : exists p, s = p ++ trimStart s.
Proof.
  induction s as [| c t [p Hp]]; simpl.
  - now exists [].
  - destruct (isWhiteSpace c).
    + exists (c :: p). simpl. now f_equal.
    + now exists [].
Qed.

Lemma trimStart_shrinking : shrinking trimStart.
Proof.
  intros s. destruct (trimStart_suffix s) as [[| a p] Hp].
  - left. simpl in Hp. congruence.
  - right. rewrite Hp at 2. rewrite length_app. simpl. lia.
Qed.

Lemma trimEnd_shrinking : shrinking trimEnd.
Proof.
  intros s. unfold trimEnd. destruct (trimStart_shrinking (rev s)) as [E | L].
  - left. rewrite E. apply rev_involutive.
  - right. rewrite length_rev in *. exact L.
Qed.

Lemma trim_shrinking : shrinking trim.
Proof.
  exact (shrinking_compose _ _ trimStart_shrinking trimEnd_shrinking).
Qed.

Lemma matchBackref_app g s rest :
  matchBackref g s = Some rest -> s = g ++ rest.
Proof.
  revert s. induction g as [| a g IH]; intros s H; simpl in *.
  - congruence.
  - destruct s as [| b s]; [discriminate |].
    destruct (N.eqb_spec a b); [| discriminate].
    subst. f_equal. now apply IH.
Qed.

Lemma backrefCopies_bound fuel g s :
  backrefCopies fuel g s * length g <= length s.
Proof.
  revert s. induction fuel as [| fuel IH]; intros s; simpl; [lia |].
  destruct (matchBackref g s) as [rest |] eqn:E; [| lia].
  apply matchBackref_app in E. subst s. rewrite length_app.
  specialize (IH rest). simpl. lia.
Qed.

Lemma dotRun_le s : dotRun s <= length s.
Proof.
  induction s as [| c t IH]; simpl; [lia |].
  destruct (isLineTerminator c); lia.
Qed.

Section PatternFacts.
Variables (lo : nat) (hi : option nat) (k : nat).
Hypothesis lo_pos : 1 <= lo.
Hypothesis k_pos : 1 <= k.

Lemma tryGroup_Some s len g n :
  len <= length s ->
  tryGroup k s len = Some (g, n) ->
  length g = len /\ len * (1 + k) <= n /\ n <= length s.
Proof.
  unfold tryGroup. intros Hlen H.
  destruct (Nat.leb_spec k
              (backrefCopies (length (skipn len s)) (firstn len s)
                 (skipn len s))) as [Hk |]; [| discriminate].
  injection H as <- <-.
  pose proof (backrefCopies_bound (length (skipn len s)) (firstn len s)
                (skipn len s)) as B.
  rewrite length_firstn, length_skipn in *.
  rewrite Nat.min_l in * by lia.
  repeat split; nia.
Qed.

Lemma backtrack_Some s m g n :
  lo + m <= length s ->
  backtrack lo k s m = Some (g, n) ->
  lo <= length g /\ length g * (1 + k) <= n /\ n <= length s.
Proof.
  induction m as [| m IH]; intros Hm H; simpl in H.
  - destruct (tryGroup k s (lo + 0)) as [[g' n'] |] eqn:E; [| discriminate].
    injection H as <- <-. apply tryGroup_Some in E; [| lia]. lia.
  - destruct (tryGroup k s (lo + S m)) as [[g' n'] |] eqn:E.
    + injection H as <- <-. apply tryGroup_Some in E; [| lia]. lia.
    + apply IH; [lia | exact H].
Qed.

Lemma matchAt_Some s g n :
  matchAt lo hi k s = Some (g, n) ->
  lo <= length g /\ length g * (1 + k) <= n /\ n <= length s.
Proof.
  unfold matchAt. intros H.
  pose proof (dotRun_le s) as D.
  destruct hi as [h |].
  - destruct (Nat.ltb_spec (Nat.min h (dotRun s)) lo); [discriminate |].
    apply backtrack_Some in H; [exact H | lia].
  - destruct (Nat.ltb_spec (dotRun s) lo); [discriminate |].
    apply backtrack_Some in H; [exact H | lia].
Qed.

Lemma replaceFrom_skip n s :
  replaceFrom (matchAt lo hi k) n s =
  replaceFrom (matchAt lo hi k) 0 (skipn n s).
Proof.
  revert n. induction s as [| c t IH]; intros [| n]; simpl; try reflexivity.
  apply IH.
Qed.

(** The scan, one match at a time. *)
Lemma replaceAll_unfold c t :
  replaceAll lo hi k (c :: t) =
  match matchAt lo hi k (c :: t) with
  | Some (g, n) => g ++ replaceAll lo hi k (skipn n (c :: t))
  | None => c :: replaceAll lo hi k t
  end.
Proof.
  unfold replaceAll. simpl.
  destruct (matchAt lo hi k (c :: t)) as [[g n] |] eqn:E; [| reflexivity].
  apply matchAt_Some in E. destruct n as [| n]; [lia |].
  simpl. rewrite Nat.sub_0_r. now rewrite replaceFrom_skip.
Qed.

Lemma replaceAll_length s :
  length (replaceAll lo hi k s) <= length s /\
  (length (replaceAll lo hi k s) = length s -> replaceAll lo hi k s = s).
Proof.
  remember (length s) as m eqn:Hm. revert s Hm.
  induction m as [m IH] using lt_wf_ind. intros s Hm.
  destruct s as [| c t]; [simpl; split; [lia | reflexivity] |].
  rewrite replaceAll_unfold.
  destruct (matchAt lo hi k (c :: t)) as [[g n] |] eqn:E.
  - apply matchAt_Some in E.
    assert (Hs : length (skipn n (c :: t)) < m)
      by (rewrite length_skipn; lia).
    destruct (IH _ Hs (skipn n (c :: t)) eq_refl) as [Hle _].
    rewrite length_app, length_skipn in *. split; [nia | intros; nia].
  - simpl in Hm.
    destruct (IH (length t) ltac:(lia) t eq_refl) as [Hle Heq].
    simpl. split; [lia |]. intros H. f_equal. apply Heq. lia.
Qed.

Lemma replaceAll_shrinking : shrinking (replaceAll lo hi k).
Proof.
  intros s. destruct (replaceAll_length s) as [Hle Heq].
  destruct (Nat.eq_dec (length (replaceAll lo hi k s)) (length s)).
  - left. auto.
  - right. lia.
Qed.
End PatternFacts.

(** ** Runs of one unit: the pattern [(.)\1{k,}] *)

Lemma leading_le c s : leading c s <= length s.
Proof.
  induction s as [| b t IH]; simpl; [lia |].
  destruct (c =? b)%N; lia.
Qed.

Lemma backrefCopies_single fuel c s :
  length s <= fuel -> backrefCopies fuel [c] s = leading c s.
Proof.
  revert s. induction fuel as [| fuel IH]; intros [| b t] H; simpl in *;
    try reflexivity; try lia.
  destruct (c =? b)%N; [| reflexivity].
  f_equal. apply IH. lia.
Qed.

Lemma matchAt_single k c t :
  matchAt 1 (Some 1) k (c :: t) =
  if isLineTerminator c then None
  else if k <=? leading c t then Some ([c], 1 + leading c t * 1) else None.
Proof.
  unfold matchAt. simpl dotRun.
  destruct (isLineTerminator c); [reflexivity |].
  simpl. unfold tryGroup. simpl.
  rewrite backrefCopies_single by lia.
  now destruct (k <=? leading c t).
Qed.










(** ** The matcher of the two patterns in closed form *)

Lemma replaceFrom_ext m1 m2 :
  (forall s, m1 s = m2 s) ->
  forall n s, replaceFrom m1 n s = replaceFrom m2 n s.
Proof.
  intros E n s. revert n.
  induction s as [| c t IH]; intros [| n]; simpl; auto.
  rewrite E. destruct (m2 (c :: t)) as [[g len] |]; now rewrite IH.
Qed.

Lemma matchBackref_nil g : g <> [] -> matchBackref g [] = None.
Proof. destruct g; [contradiction | reflexivity]. Qed.

Lemma matchBackref_shorter g t rest :
  g <> [] -> matchBackref g t = Some rest -> length rest < length t.
Proof.
  intros Hg E. apply matchBackref_app in E. subst t.
  rewrite length_app. destruct g; [contradiction | simpl; lia].
Qed.

Lemma backrefCopies_fuel g t f1 f2 :
  g <> [] -> length t <= f1 -> length t <= f2 ->
  backrefCopies f1 g t = backrefCopies f2 g t.
Proof.
  intros Hg. revert t f2.
  induction f1 as [| f1 IH]; intros t f2 H1 H2.
  - destruct t; [| simpl in H1; lia].
    destruct f2; simpl; [reflexivity |].
    now rewrite (matchBackref_nil g Hg).
  - destruct f2 as [| f2].
    + destruct t; [| simpl in H2; lia].
      simpl. now rewrite (matchBackref_nil g Hg).
    + simpl. destruct (matchBackref g t) as [rest |] eqn:E; [| reflexivity].
      pose proof (matchBackref_shorter g t rest Hg E).
      f_equal. apply IH; lia.
Qed.

Lemma same_or_none {A} (o : option A) :
  match o with Some z => Some z | None => None end = o.
Proof. now destruct o. Qed.

(** The greedy loop [\1{k,}] followed by the end of the pattern. *)
Lemma backref_loop g k fuel t :
  g <> [] -> length t <= fuel ->
  repeatMatcher (compile Backref) k None fuel (t, g) (fun y => Some y) =
  if k <=? backrefCopies (length t) g t
  then Some (skipn (backrefCopies (length t) g t * length g) t, g)
  else None.
Proof.
  intros Hg. revert k t.
  induction fuel as [| fuel IH]; intros k t Hf.
  - destruct t; [| simpl in Hf; lia]. simpl. now destruct k.
  - cbn [repeatMatcher compile fst snd].
    destruct (matchBackref g t) as [rest |] eqn:E.
    + pose proof (matchBackref_shorter g t rest Hg E) as Hs.
      assert (Hl : (length rest =? length t) = false)
        by (apply Nat.eqb_neq; lia).
      cbn [fst]. rewrite Hl, andb_false_r.
      rewrite IH by lia.
      assert (R : backrefCopies (length t) g t =
                  S (backrefCopies (length rest) g rest)).
      { destruct (length t) as [| n] eqn:L; [lia |]. simpl. rewrite E.
        f_equal. apply backrefCopies_fuel; [exact Hg | lia | lia]. }
      rewrite R. apply matchBackref_app in E.
      set (r := backrefCopies (length rest) g rest).
      assert (Sk : skipn (S r * length g) t = skipn (r * length g) rest).
      { subst t. replace (S r * length g) with (r * length g + length g)
          by lia.
        rewrite <- skipn_skipn, skipn_app, skipn_all, Nat.sub_diag.
        reflexivity. }
      rewrite Sk.
      destruct k as [| k]; simpl pred.
      * simpl. destruct (0 <=? r) eqn:Z; [reflexivity |].
        apply Nat.leb_gt in Z. lia.
      * change (S k <=? S r) with (k <=? r).
        destruct (k <=? r); reflexivity.
    + assert (R : backrefCopies (length t) g t = 0).
      { destruct (length t); simpl; [reflexivity | now rewrite E]. }
      rewrite R. simpl. now destruct k.
Qed.

Lemma tryDown_cons_none c s capture ch n :
  tryDown c (ch :: s) capture 0 (S n) =
  match tryDown c s capture 0 n with
  | Some z => Some z
  | None => c (ch :: s, capture)
  end.
Proof.
  induction n as [| n IH].
  - simpl. destruct (c (s, capture)); [reflexivity |].
    apply same_or_none.
  - change (tryDown c (ch :: s) capture 0 (S (S n)))
      with (match c (skipn (S n) s, capture) with
            | Some z => Some z
            | None => tryDown c (ch :: s) capture 0 (S n)
            end).
    rewrite IH.
    change (tryDown c s capture 0 (S n))
      with (match c (skipn (S n) s, capture) with
            | Some z => Some z
            | None => tryDown c s capture 0 n
            end).
    destruct (c (skipn (S n) s, capture)); reflexivity.
Qed.

Lemma tryDown_cons_some c s capture ch lo n :
  tryDown c (ch :: s) capture (S lo) n = tryDown c s capture lo n.
Proof. induction n as [| n IH]; simpl; [reflexivity | now rewrite IH]. Qed.

(** The greedy loop [.{min,}] in front of any continuation. *)
Lemma dot_loop c capture fuel s min :
  length s <= fuel ->
  repeatMatcher (compile Dot) min None fuel (s, capture) c =
  if dotRun s <? min then None
  else tryDown c s capture min (dotRun s - min).
Proof.
  revert s min. induction fuel as [| fuel IH]; intros s min Hf.
  - destruct s; [| simpl in Hf; lia]. simpl.
    destruct min; simpl; [now rewrite same_or_none | reflexivity].
  - cbn [repeatMatcher compile fst snd option_map].
    destruct s as [| ch t].
    + simpl. destruct min; simpl; [now rewrite same_or_none | reflexivity].
    + simpl dotRun. destruct (isLineTerminator ch).
      * simpl. destruct min; simpl; [now rewrite same_or_none | reflexivity].
      * cbn [fst].
        assert (Hl : (length t =? length (ch :: t)) = false)
          by (apply Nat.eqb_neq; simpl; lia).
        rewrite Hl, andb_false_r. rewrite IH by (simpl in Hf; lia).
        destruct min as [| m]; simpl pred.
        -- simpl Nat.ltb. rewrite !Nat.sub_0_r.
           rewrite tryDown_cons_none. reflexivity.
        -- change (S (dotRun t) <? S m) with (dotRun t <? m).
           change (S (dotRun t) - S m) with (dotRun t - m).
           rewrite tryDown_cons_some.
           destruct (dotRun t <? m); [reflexivity | apply same_or_none].
Qed.

(** One attempt of the back-reference loop behind a group of [len]
    units. *)
Lemma group_attempt k s len capture :
  1 <= len -> len <= length s ->
  match afterGroup k s (skipn len s, capture) with
  | Some (rest, capture') => Some (capture', length s - length rest)
  | None => None
  end = tryGroup k s len.
Proof.
  intros H1 H2. unfold tryGroup, afterGroup. cbn [fst].
  replace (length s - length (skipn len s)) with len
    by (rewrite length_skipn; lia).
  assert (Hg : firstn len s <> []).
  { intros E. apply (f_equal (@length codeunit)) in E.
    rewrite length_firstn in E. simpl in E. lia. }
  rewrite (backref_loop (firstn len s) k _ (skipn len s) Hg) by lia.
  pose proof (backrefCopies_bound (length (skipn len s)) (firstn len s)
                (skipn len s)) as B.
  set (r := backrefCopies (length (skipn len s)) (firstn len s)
              (skipn len s)) in *.
  rewrite length_firstn, length_skipn in B.
  rewrite Nat.min_l in B by lia.
  destruct (k <=? r); [| reflexivity].
  f_equal. f_equal. rewrite !length_skipn, length_firstn.
  rewrite Nat.min_l by lia. nia.
Qed.

Lemma tryDown_backtrack lo k s n :
  1 <= lo -> lo + n <= length s ->
  match tryDown (afterGroup k s) s [] lo n with
  | Some (rest, capture) => Some (capture, length s - length rest)
  | None => None
  end = backtrack lo k s n.
Proof.
  intros Hlo. induction n as [| n IH]; intros Hn;
    cbn [tryDown backtrack];
    rewrite <- (group_attempt k s (lo + _) []) by lia;
    match goal with
    | |- context [afterGroup k s ?x] =>
        destruct (afterGroup k s x) as [[rest capture] |]
    end; try reflexivity.
  apply IH. lia.
Qed.

Lemma execAt_phrase lo k s :
  1 <= lo ->
  execAt (Seq (Group (Repeat Dot lo None)) (Repeat Backref k None)) s =
  matchAt lo None k s.
Proof.
  intros Hlo. unfold execAt, matchAt. cbn [compile fst snd].
  change (fun y : MatchState =>
            repeatMatcher (compile Backref) k None (length (fst y) + k)
              (fst y, firstn (length s - length (fst y)) s)
              (fun y0 => Some y0))
    with (afterGroup k s).
  rewrite dot_loop by lia.
  destruct (Nat.ltb_spec (dotRun s) lo); [reflexivity |].
  pose proof (dotRun_le s).
  apply (tryDown_backtrack lo k s (dotRun s - lo)); lia.
Qed.

Lemma execAt_char k s :
  execAt (Seq (Group Dot) (Repeat Backref k None)) s =
  matchAt 1 (Some 1) k s.
Proof.
  destruct s as [| c t]; [reflexivity |].
  rewrite matchAt_single. unfold execAt. cbn [compile fst snd].
  destruct (isLineTerminator c); [reflexivity |].
  cbn [fst length].
  replace (S (length t) - length t) with 1 by lia.
  cbn [firstn].
  rewrite backref_loop by (lia || discriminate).
  rewrite backrefCopies_single by lia.
  pose proof (leading_le c t).
  destruct (k <=? leading c t); [| reflexivity].
  f_equal. f_equal. rewrite length_skipn. simpl length. lia.
Qed.

Lemma replace_char k s :
  replace (Seq (Group Dot) (Repeat Backref k None)) s =
  replaceAll 1 (Some 1) k s.
Proof. apply replaceFrom_ext. apply execAt_char. Qed.

Lemma replace_phrase lo k s :
  1 <= lo ->
  replace (Seq (Group (Repeat Dot lo None)) (Repeat Backref k None)) s =
  replaceAll lo None k s.
Proof. intros H. apply replaceFrom_ext. intros u. now apply execAt_phrase. Qed.

Lemma cleanText_closed_form text :
  cleanText text =
  match text with
  | [] => []
  | _ => trim (replaceAll 4 None 2 (replaceAll 1 (Some 1) 6 text))
  end.
Proof.
  unfold cleanText. destruct text; [reflexivity |].
  now rewrite replace_char, replace_phrase by lia.
Qed.

Lemma cleanHallucinations_closed_form text :
  cleanHallucinations text =
  replaceAll 2 None 2 (replaceAll 1 (Some 1) 5 text).
Proof.
  unfold cleanHallucinations, repeatCharRegex, repeatPhraseRegex.
  now rewrite replace_char, replace_phrase by lia.
Qed.

Lemma cleanText_shrinking : shrinking cleanText.
Proof.
  intros s. rewrite cleanText_closed_form.
  destruct s as [| c t]; [now left |].
  apply (shrinking_compose _ _
           (shrinking_compose _ _
              (replaceAll_shrinking 1 (Some 1) 6 ltac:(lia) ltac:(lia))
              (replaceAll_shrinking 4 None 2 ltac:(lia) ltac:(lia)))
           trim_shrinking).
Qed.

Lemma cleanHallucinations_shrinking : shrinking cleanHallucinations.
Proof.
  intros s. rewrite cleanHallucinations_closed_form.
  exact (shrinking_compose _ _
           (replaceAll_shrinking 1 (Some 1) 5 ltac:(lia) ltac:(lia))
           (replaceAll_shrinking 2 None 2 ltac:(lia) ltac:(lia)) s).
Qed.

(* ================================================================== *)
(** * Properties of the enrichment queue *)

Lemma outstandingCalls_le_workers w : outstandingCalls w <= workers w.
Proof.
  unfold outstandingCalls, workers.
  induction (tasks w) as [| t l IH]; simpl; [lia |].
  destruct t; simpl; lia.
Qed.

Lemma workers_spawn t w :
  workers (spawn t w) = workers w + (if inTry t then 1 else 0).
Proof.
  unfold workers, spawn. simpl. rewrite filter_app, length_app. simpl.
  now destruct (inTry t).
Qed.

Lemma filter_removeNth {A} (f : A -> bool) n l t :
  nth_error l n = Some t ->
  length (filter f l) =
  length (filter f (removeNth n l)) + (if f t then 1 else 0).
Proof.
  revert n. induction l as [| a l IH]; intros [| n] H; simpl in *;
    try discriminate.
  - injection H as ->. destruct (f t); simpl; lia.
  - specialize (IH n H). destruct (f a); simpl; lia.
Qed.

Lemma workers_retire n w t :
  nth_error (tasks w) n = Some t ->
  workers w = workers (retire n w) + (if inTry t then 1 else 0).
Proof. intros H. unfold workers, retire. simpl. now apply filter_removeNth. Qed.

Lemma sameWorker_singleFlight w w' :
  sameWorker w w' -> singleFlight w -> singleFlight w'.
Proof. unfold singleFlight. intros [-> ->]. auto. Qed.

Lemma sameWorker_refl w : sameWorker w w.
Proof. split; reflexivity. Qed.

Lemma sameWorker_trans a b c :
  sameWorker a b -> sameWorker b c -> sameWorker a c.
Proof. intros [A1 A2] [B1 B2]. split; congruence. Qed.

Lemma sameWorker_setState f w : sameWorker w (setState f w).
Proof. split; reflexivity. Qed.

Lemma sameWorker_spawn t w : inTry t = false -> sameWorker w (spawn t w).
Proof.
  intros H. split; [| reflexivity]. rewrite workers_spawn, H. lia.
Qed.

Lemma sameWorker_push x w : sameWorker w (push x w).
Proof. split; reflexivity. Qed.

Module FixedCooldownFacts.
Import FixedCooldown.

Lemma fixed_drainFrom_singleFlight cl q w :
  isProcessingRef (refs w) = false -> workers w = 0 ->
  singleFlight (drainFrom cl q w).
Proof.
  intros Hb Hw. induction q as [| item rest IH]; simpl.
  - unfold singleFlight. fields. now rewrite Hb, Hw.
  - destruct (lookupTarget cl item); [| exact IH].
    unfold dispatch, singleFlight.
    destruct (type item); [| destruct (isBilingual cl)];
      rewrite workers_spawn; fields; rewrite Hw; reflexivity.
Qed.

Lemma fixed_processQueue_singleFlight cl w :
  singleFlight w -> singleFlight (processQueue cl w).
Proof.
  intros H. unfold processQueue.
  destruct (isProcessingRef (refs w)) eqn:Hb; simpl; [exact H |].
  destruct (length (processingQueueRef (refs w)) =? 0); [exact H |].
  apply fixed_drainFrom_singleFlight; [exact Hb |].
  unfold singleFlight in H. now rewrite Hb in H.
Qed.

Lemma fixed_processQueue_busy cl w :
  isProcessingRef (refs w) = true -> processQueue cl w = w.
Proof. intros H. unfold processQueue. now rewrite H. Qed.

Lemma fixed_finish_singleFlight cl w :
  workers w = 0 -> singleFlight (finish cl w).
Proof.
  intros H. unfold finish, singleFlight. rewrite workers_spawn.
  fields. rewrite H. reflexivity.
Qed.

Lemma fixed_afterCall_singleFlight cl item success w :
  workers w = 0 -> isProcessingRef (refs w) = true ->
  singleFlight (afterCall cl item success w).
Proof.
  intros Hw Hb. unfold afterCall. destruct success.
  - unfold singleFlight. rewrite workers_spawn. fields.
    now rewrite Hw, Hb.
  - apply fixed_finish_singleFlight.
    destruct (retryCount item <? 5)%Z; [| exact Hw].
    rewrite workers_spawn. simpl. lia.
Qed.

Lemma fixed_polishSegment_sameWorker cl segment o w :
  sameWorker w (snd (polishSegment cl segment o w)).
Proof.
  unfold polishSegment. destruct o; [| apply sameWorker_refl].
  destruct (truthyId (viewingSessionId cl)); split; reflexivity.
Qed.

Lemma fixed_translateSegment_sameWorker cl segment o w :
  sameWorker w (snd (translateSegment cl segment o w)).
Proof.
  unfold translateSegment. destruct o; [| apply sameWorker_refl].
  destruct (truthyId (viewingSessionId cl)); split; reflexivity.
Qed.

Lemma fixed_finalizeCurrentSegment_sameWorker cl newId w :
  sameWorker w (finalizeCurrentSegment cl newId w).
Proof.
  unfold finalizeCurrentSegment.
  destruct (length (cleanText (transcriptionBufferRef (refs w))) <? 2);
    [apply sameWorker_refl |].
  destruct (isBilingual cl); split; reflexivity.
Qed.

Lemma fixed_onmessage_sameWorker cl t tc i1 i2 w :
  sameWorker w (onmessage cl t tc i1 i2 w).
Proof.
  unfold onmessage.
  set (w1 := match t with Some _ => _ | None => w end).
  assert (H1 : sameWorker w w1).
  { subst w1. destruct t as [chunk |]; [| apply sameWorker_refl].
    match goal with |- context [if ?b then _ else _] => destruct b end.
    - eapply sameWorker_trans;
        [| apply fixed_finalizeCurrentSegment_sameWorker].
      split; reflexivity.
    - split; reflexivity. }
  destruct tc; [| exact H1].
  eapply sameWorker_trans; [exact H1 |].
  apply fixed_finalizeCurrentSegment_sameWorker.
Qed.

Lemma fixed_stopRecording_sameWorker cl segId sessId w :
  sameWorker w (stopRecording cl segId sessId w).
Proof.
  unfold stopRecording.
  pose proof (fixed_finalizeCurrentSegment_sameWorker cl segId w) as F.
  destruct (status cl); try apply sameWorker_refl;
    (eapply sameWorker_trans; [exact F | split; reflexivity]).
Qed.

Lemma fixed_step_singleFlight e w : singleFlight w -> singleFlight (step e w).
Proof.
  intros H. destruct e; simpl.
  - (* Commit *)
    apply fixed_processQueue_singleFlight. exact H.
  - (* Settle *)
    destruct (nth_error (tasks w) n) as [t |] eqn:E; [| exact H].
    pose proof (workers_retire n w t E) as R.
    assert (B : inTry t = true ->
                workers (retire n w) = 0 /\
                isProcessingRef (refs (retire n w)) = true).
    { intros I. rewrite I in R. unfold singleFlight in H.
      change (isProcessingRef (refs (retire n w)))
        with (isProcessingRef (refs w)).
      destruct (isProcessingRef (refs w)); [split; [lia | reflexivity] | lia]. }
    destruct t; try exact H.
    + destruct (B eq_refl) as [Bw Bb].
      pose proof (fixed_polishSegment_sameWorker cl segment o (retire n w))
          as S.
      destruct (polishSegment cl segment o (retire n w)) as [success w'].
      destruct S as [S1 S2]. cbn [snd] in S1, S2.
      apply fixed_afterCall_singleFlight; [rewrite S1 | rewrite S2]; assumption.
    + destruct (B eq_refl) as [Bw Bb].
      pose proof (fixed_translateSegment_sameWorker cl segment o (retire n w))
          as S.
      destruct (translateSegment cl segment o (retire n w)) as [success w'].
      destruct S as [S1 S2]. cbn [snd] in S1, S2.
      apply fixed_afterCall_singleFlight; [rewrite S1 | rewrite S2]; assumption.
  - (* Elapse *)
    destruct (nth_error (tasks w) n) as [t |] eqn:E; [| exact H].
    pose proof (workers_retire n w t E) as R.
    destruct t; try exact H; simpl in R.
    + apply fixed_finish_singleFlight. unfold singleFlight in H.
      destruct (isProcessingRef (refs w)); lia.
    + unfold requeue.
      apply (sameWorker_singleFlight (retire n w));
        [apply sameWorker_push |].
      unfold singleFlight in *. fields. lia.
    + apply fixed_processQueue_singleFlight.
      unfold singleFlight in *. fields. lia.
    + unfold connectToLive.
      assert (H' : singleFlight (retire n w))
        by (unfold singleFlight in *; fields; lia).
      destruct (statusRef (refs (retire n w))); try exact H';
        (apply (sameWorker_singleFlight (retire n w));
         [now apply sameWorker_spawn | exact H']).
  - (* Tick *)
    destruct (status (state w)); exact H.
  - (* ClickStart *)
    unfold startRecording. destruct micOk.
    + eapply sameWorker_singleFlight; [| exact H].
      eapply sameWorker_trans; [| now apply sameWorker_spawn].
      split; reflexivity.
    + exact H.
  - eapply sameWorker_singleFlight;
      [apply fixed_stopRecording_sameWorker | exact H].
  - exact H.
  - exact H.
  - exact H.
  - (* ViewSession *)
    eapply sameWorker_singleFlight; [| exact H].
    eapply sameWorker_trans; [| apply sameWorker_setState].
    destruct (status (state w)); try apply sameWorker_refl;
      apply fixed_stopRecording_sameWorker.
  - exact H.
  - (* DeleteSession *)
    unfold deleteSession.
    destruct (viewingSessionId (state w)) as [v' |]; [| exact H].
    destruct (String.eqb v' v); exact H.
  - destruct (nth_error (tasks w) n) as [[] |]; exact H.
  - destruct (nth_error (tasks w) n) as [[] |]; try exact H.
    eapply sameWorker_singleFlight;
      [apply fixed_onmessage_sameWorker | exact H].
  - destruct (nth_error (tasks w) n) as [[] |]; try exact H.
    unfold onerror.
    repeat match goal with
           | |- context [if ?b then _ else _] => destruct b
           end; try exact H.
    eapply sameWorker_singleFlight; [| exact H].
    eapply sameWorker_trans; [| now apply sameWorker_spawn].
    split; reflexivity.
  - destruct (nth_error (tasks w) n) as [t |] eqn:E; [| exact H].
    pose proof (workers_retire n w t E) as R.
    destruct t; try exact H. simpl in R.
    unfold singleFlight in *. fields. lia.
Qed.

Lemma fixed_run_singleFlight es w : singleFlight w -> singleFlight (run es w).
Proof.
  revert w. induction es as [| e es IH]; intros w H; simpl; [exact H |].
  apply IH. now apply fixed_step_singleFlight.
Qed.
End FixedCooldownFacts.

Module AdaptiveCooldownFacts.
Import AdaptiveCooldown.

Lemma adaptive_drainFrom_singleFlight cl q w :
  isProcessingRef (refs w) = false -> workers w = 0 ->
  singleFlight (drainFrom cl q w).
Proof.
  intros Hb Hw. induction q as [| item rest IH]; simpl.
  - unfold singleFlight. fields. now rewrite Hb, Hw.
  - destruct (lookupTarget cl item); [| exact IH].
    unfold dispatch, singleFlight.
    destruct (type item); [| destruct (isBilingual cl)];
      rewrite workers_spawn; fields; rewrite Hw; reflexivity.
Qed.

Lemma adaptive_processQueue_singleFlight cl w :
  singleFlight w -> singleFlight (processQueue cl w).
Proof.
  intros H. unfold processQueue.
  destruct (isProcessingRef (refs w)) eqn:Hb; simpl; [exact H |].
  destruct (length (processingQueueRef (refs w)) =? 0); [exact H |].
  apply adaptive_drainFrom_singleFlight; [exact Hb |].
  unfold singleFlight in H. now rewrite Hb in H.
Qed.

Lemma adaptive_processQueue_busy cl w :
  isProcessingRef (refs w) = true -> processQueue cl w = w.
Proof. intros H. unfold processQueue. now rewrite H. Qed.

Lemma adaptive_finish_singleFlight cl w :
  workers w = 0 -> singleFlight (finish cl w).
Proof.
  intros H. unfold finish, finishWith.
  apply adaptive_processQueue_singleFlight. unfold singleFlight. fields.
  exact H.
Qed.

Lemma adaptive_afterCall_singleFlight cl item success w :
  workers w = 0 -> isProcessingRef (refs w) = true ->
  singleFlight (afterCall cl item success w).
Proof.
  intros Hw Hb. unfold afterCall. destruct success.
  - unfold singleFlight. rewrite workers_spawn. fields.
    now rewrite Hw, Hb.
  - destruct (retryCount item <? 5)%Z.
    + unfold singleFlight. rewrite !workers_spawn. fields.
      now rewrite Hw, Hb.
    + now apply adaptive_finish_singleFlight.
Qed.

Lemma adaptive_polishSegment_sameWorker cl segment o w :
  sameWorker w (snd (polishSegment cl segment o w)).
Proof.
  unfold polishSegment. destruct o; [| apply sameWorker_refl].
  destruct (jsstring_eqb _ _); [apply sameWorker_refl |].
  destruct (truthyId (viewingSessionId cl)); split; reflexivity.
Qed.

Lemma adaptive_translateSegment_sameWorker cl segment o w :
  sameWorker w (snd (translateSegment cl segment o w)).
Proof.
  unfold translateSegment. destruct o; [| apply sameWorker_refl].
  destruct (truthyId (viewingSessionId cl)); split; reflexivity.
Qed.

Lemma adaptive_finalizeCurrentSegment_sameWorker cl newId w :
  sameWorker w (finalizeCurrentSegment cl newId w).
Proof.
  unfold finalizeCurrentSegment.
  match goal with |- context [if ?b then _ else _] => destruct b end;
    [apply sameWorker_refl |].
  destruct (isBilingual cl); split; reflexivity.
Qed.

Lemma adaptive_onmessage_sameWorker cl t tc i1 i2 w :
  sameWorker w (onmessage cl t tc i1 i2 w).
Proof.
  unfold onmessage.
  set (w1 := match t with Some _ => _ | None => w end).
  assert (H1 : sameWorker w w1).
  { subst w1. destruct t as [chunk |]; [| apply sameWorker_refl].
    match goal with |- context [if ?b then _ else _] => destruct b end.
    - eapply sameWorker_trans;
        [| apply adaptive_finalizeCurrentSegment_sameWorker].
      split; reflexivity.
    - split; reflexivity. }
  destruct tc; [| exact H1].
  eapply sameWorker_trans; [exact H1 |].
  apply adaptive_finalizeCurrentSegment_sameWorker.
Qed.

Lemma adaptive_stopRecording_sameWorker cl segId sessId w :
  sameWorker w (stopRecording cl segId sessId w).
Proof.
  unfold stopRecording.
  pose proof (adaptive_finalizeCurrentSegment_sameWorker cl segId w) as F.
  destruct (status cl); try apply sameWorker_refl;
    (eapply sameWorker_trans; [exact F | split; reflexivity]).
Qed.

Lemma adaptive_step_singleFlight e w :
  singleFlight w -> singleFlight (step e w).
Proof.
  intros H. destruct e; simpl.
  - apply adaptive_processQueue_singleFlight. exact H.
  - destruct (nth_error (tasks w) n) as [t |] eqn:E; [| exact H].
    pose proof (workers_retire n w t E) as R.
    assert (B : inTry t = true ->
                workers (retire n w) = 0 /\
                isProcessingRef (refs (retire n w)) = true).
    { intros I. rewrite I in R. unfold singleFlight in H.
      change (isProcessingRef (refs (retire n w)))
        with (isProcessingRef (refs w)).
      destruct (isProcessingRef (refs w)); [split; [lia | reflexivity] | lia]. }
    destruct t; try exact H.
    + destruct (B eq_refl) as [Bw Bb].
      pose proof (adaptive_polishSegment_sameWorker cl segment o (retire n w))
          as S.
      destruct (polishSegment cl segment o (retire n w)) as [success w'].
      destruct S as [S1 S2]. cbn [snd] in S1, S2.
      apply adaptive_afterCall_singleFlight;
        [rewrite S1 | rewrite S2]; assumption.
    + destruct (B eq_refl) as [Bw Bb].
      pose proof (adaptive_translateSegment_sameWorker cl segment o
                    (retire n w)) as S.
      destruct (translateSegment cl segment o (retire n w)) as [success w'].
      destruct S as [S1 S2]. cbn [snd] in S1, S2.
      apply adaptive_afterCall_singleFlight;
        [rewrite S1 | rewrite S2]; assumption.
  - destruct (nth_error (tasks w) n) as [t |] eqn:E; [| exact H].
    pose proof (workers_retire n w t E) as R.
    destruct t; try exact H; simpl in R.
    + apply adaptive_finish_singleFlight. unfold singleFlight in H.
      destruct (isProcessingRef (refs w)); lia.
    + unfold requeue. apply adaptive_processQueue_singleFlight.
      apply (sameWorker_singleFlight (retire n w));
        [apply sameWorker_push |].
      unfold singleFlight in *. fields. lia.
  - destruct (status (state w)); exact H.
  - unfold startRecording. destruct micOk.
    + eapply sameWorker_singleFlight; [| exact H].
      eapply sameWorker_trans; [| now apply sameWorker_spawn].
      split; reflexivity.
    + exact H.
  - eapply sameWorker_singleFlight;
      [apply adaptive_stopRecording_sameWorker | exact H].
  - unfold pauseRecording. destruct (status (state w)); try exact H.
    eapply sameWorker_singleFlight;
      [apply adaptive_finalizeCurrentSegment_sameWorker | exact H].
  - unfold resumeRecording. destruct (status (state w)); exact H.
  - exact H.
  - eapply sameWorker_singleFlight; [| exact H].
    eapply sameWorker_trans; [| apply sameWorker_setState].
    destruct (status (state w)); try apply sameWorker_refl;
      apply adaptive_stopRecording_sameWorker.
  - destruct (status (state w)); exact H.
  - exact H.
  - exact H.
  - destruct (nth_error (tasks w) n) as [[] |]; try exact H.
    eapply sameWorker_singleFlight;
      [apply adaptive_onmessage_sameWorker | exact H].
  - destruct (nth_error (tasks w) n) as [[] |]; exact H.
  - destruct (nth_error (tasks w) n) as [t |] eqn:E; [| exact H].
    pose proof (workers_retire n w t E) as R.
    destruct t; try exact H. simpl in R.
    unfold singleFlight in *. fields. lia.
Qed.

Lemma adaptive_run_singleFlight es w :
  singleFlight w -> singleFlight (run es w).
Proof.
  revert w. induction es as [| e es IH]; intros w H; simpl; [exact H |].
  apply IH. now apply adaptive_step_singleFlight.
Qed.
End AdaptiveCooldownFacts.

Lemma singleFlight_bound w :
  singleFlight w ->
  outstandingCalls w <= 1 /\
  (outstandingCalls w = 1 -> isProcessingRef (refs w) = true).
Proof.
  intros H. pose proof (outstandingCalls_le_workers w) as L.
  unfold singleFlight in H.
  destruct (isProcessingRef (refs w)); split; auto; lia.
Qed.

(** C1. Single flight: in every world either revision can reach from the
    mounted application, by any interleaving of user actions, enqueues,
    timer callbacks and settling calls, at most one external refinement
    call (polish or translate) is outstanding; while one is outstanding the
    busy flag is set (it is set before the dispatch and cleared only in the
    [finally] block, after the call has settled either way); and a drain
    attempt that finds the flag set does nothing. *)
Theorem single_outstanding_call :
  forall (es : list Event) (saved : list RecordingSession) (cooldown : Z),
    let a := FixedCooldown.run es (mount saved cooldown) in
    let b := AdaptiveCooldown.run es (mount saved cooldown) in
    (outstandingCalls a <= 1 /\
     (outstandingCalls a = 1 -> isProcessingRef (refs a) = true) /\
     (forall cl, isProcessingRef (refs a) = true ->
                 FixedCooldown.processQueue cl a = a)) /\
    (outstandingCalls b <= 1 /\
     (outstandingCalls b = 1 -> isProcessingRef (refs b) = true) /\
     (forall cl, isProcessingRef (refs b) = true ->
                 AdaptiveCooldown.processQueue cl b = b)).
Proof.
  intros es saved cooldown a b.
  assert (I : singleFlight (mount saved cooldown)) by reflexivity.
  split.
  - destruct (singleFlight_bound a
                (FixedCooldownFacts.fixed_run_singleFlight es _ I)) as [B1 B2].
    repeat split; auto.
    intros cl. apply FixedCooldownFacts.fixed_processQueue_busy.
  - destruct (singleFlight_bound b
                (AdaptiveCooldownFacts.adaptive_run_singleFlight es _ I))
    as [B1 B2].
    repeat split; auto.
    intros cl. apply AdaptiveCooldownFacts.adaptive_processQueue_busy.
Qed.

(** ** Retry policy *)

Lemma retryTimers_app l l' :
  retryTimers (l ++ l') = retryTimers l ++ retryTimers l'.
Proof.
  induction l as [| t l IH]; simpl; [reflexivity |].
  destruct t; simpl; now rewrite ?IH.
Qed.

Lemma retryTimers_removeNth n l t :
  nth_error l n = Some t ->
  (forall cl item ms, t <> TimerRequeue cl item ms) ->
  retryTimers (removeNth n l) = retryTimers l.
Proof.
  revert n. induction l as [| a l IH]; intros [| n] H Ht; simpl in *;
    try discriminate.
  - injection H as ->. destruct t; try reflexivity.
    now destruct (Ht cl item ms).
  - rewrite (IH n H Ht). reflexivity.
Qed.

Lemma drainFrom_adaptive_frame cl q w :
  let w' := AdaptiveCooldown.drainFrom cl q w in
  state w' = state w /\
  segmentsRef (refs w') = segmentsRef (refs w) /\
  retryTimers (tasks w') = retryTimers (tasks w) /\
  shifted q (processingQueueRef (refs w')).
Proof.
  induction q as [| item rest IH]; simpl.
  - repeat split; try reflexivity. now exists [].
  - destruct (lookupTarget cl item) as [segment |].
    + unfold AdaptiveCooldown.dispatch.
      destruct (type item); [| destruct (isBilingual cl)]; fields;
        rewrite retryTimers_app; simpl; rewrite app_nil_r;
        (repeat split; try reflexivity; now exists [item]).
    + destruct IH as (A & B & C & [p D]).
      repeat split; try assumption.
      exists (item :: p). simpl. now f_equal.
Qed.

Lemma processQueue_adaptive_frame cl w :
  let w' := AdaptiveCooldown.processQueue cl w in
  state w' = state w /\
  segmentsRef (refs w') = segmentsRef (refs w) /\
  retryTimers (tasks w') = retryTimers (tasks w) /\
  shifted (processingQueueRef (refs w)) (processingQueueRef (refs w')).
Proof.
  unfold AdaptiveCooldown.processQueue.
  destruct (isProcessingRef (refs w) || _).
  - repeat split; try reflexivity. now exists [].
  - apply drainFrom_adaptive_frame.
Qed.

Lemma fixed_failure w n cl item t :
  nth_error (tasks w) n = Some t ->
  (forall cl' item' ms, t <> TimerRequeue cl' item' ms) ->
  let failed := FixedCooldown.afterCall cl item false (retire n w) in
  state failed = state w /\
  segmentsRef (refs failed) = segmentsRef (refs w) /\
  processingQueueRef (refs failed) = processingQueueRef (refs w) /\
  retryTimers (tasks failed) =
  retryTimers (tasks w) ++
  (if (retryCount item <? 5)%Z
   then [(item, (2 ^ retryCount item * 2000)%Z)] else []).
Proof.
  intros E Ht. unfold FixedCooldown.afterCall, FixedCooldown.finish.
  destruct (retryCount item <? 5)%Z; fields;
    rewrite ?retryTimers_app, (retryTimers_removeNth n _ t E Ht); simpl;
    rewrite ?app_nil_r; repeat split; reflexivity.
Qed.

Lemma adaptive_failure w n cl item t :
  nth_error (tasks w) n = Some t ->
  (forall cl' item' ms, t <> TimerRequeue cl' item' ms) ->
  let failed := AdaptiveCooldown.afterCall cl item false (retire n w) in
  state failed = state w /\
  segmentsRef (refs failed) = segmentsRef (refs w) /\
  shifted (processingQueueRef (refs w)) (processingQueueRef (refs failed)) /\
  retryTimers (tasks failed) =
  retryTimers (tasks w) ++
  (if (retryCount item <? 5)%Z
   then [(item, (2 ^ retryCount item * 2000)%Z)] else []).
Proof.
  intros E Ht. unfold AdaptiveCooldown.afterCall.
  destruct (retryCount item <? 5)%Z.
  - fields. rewrite !retryTimers_app, (retryTimers_removeNth n _ t E Ht).
    simpl. rewrite app_nil_r. repeat split; try reflexivity. now exists [].
  - unfold AdaptiveCooldown.finish, AdaptiveCooldown.finishWith.
    destruct (processQueue_adaptive_frame cl
                (setRef (set_isProcessingRef false) (retire n w)))
      as (A & B & C & D).
    rewrite A, B, C. fields.
    rewrite (retryTimers_removeNth n _ t E Ht), app_nil_r.
    repeat split; try reflexivity. exact D.
Qed.

Lemma fixed_success w n cl item segment r t :
  nth_error (tasks w) n = Some t ->
  t = AwaitPolish cl item segment \/ t = AwaitTranslate cl item segment ->
  let ok := FixedCooldown.step (Settle n (Resolved r)) w in
  retryTimers (tasks ok) = retryTimers (tasks w) /\
  processingQueueRef (refs ok) = processingQueueRef (refs w).
Proof.
  intros E Ht. simpl. rewrite E.
  assert (Hn : forall cl' item' ms, t <> TimerRequeue cl' item' ms)
    by (destruct Ht; subst; discriminate).
  pose proof (retryTimers_removeNth n _ t E Hn) as R.
  destruct Ht; subst t; simpl;
    destruct (truthyId (viewingSessionId cl)); fields;
    rewrite retryTimers_app, R; simpl; rewrite app_nil_r; split; reflexivity.
Qed.

Lemma adaptive_success w n cl item segment r t :
  nth_error (tasks w) n = Some t ->
  t = AwaitPolish cl item segment \/ t = AwaitTranslate cl item segment ->
  let ok := AdaptiveCooldown.step (Settle n (Resolved r)) w in
  retryTimers (tasks ok) = retryTimers (tasks w) /\
  processingQueueRef (refs ok) = processingQueueRef (refs w).
Proof.
  intros E Ht. simpl. rewrite E.
  assert (Hn : forall cl' item' ms, t <> TimerRequeue cl' item' ms)
    by (destruct Ht; subst; discriminate).
  pose proof (retryTimers_removeNth n _ t E Hn) as R.
  destruct Ht; subst t; simpl;
    try destruct (jsstring_eqb _ _);
    try destruct (truthyId (viewingSessionId cl));
    unfold AdaptiveCooldown.afterCall; fields;
    rewrite retryTimers_app, R; simpl; rewrite app_nil_r; split; reflexivity.
Qed.

(** C2. Retry policy of the enrichment queue, both revisions.  When the
    call of a job settles as a failure, nothing is applied (React state and
    the live segment list stay as they were, so the target keeps its text)
    and the queue gains nothing; if [retryCount < 5] exactly one retry timer
    is started for the job, with delay [2^retryCount * 2000] ms, and if
    [retryCount >= 5] none is: the job is dropped.  When the call resolves,
    no retry timer is started and the queue is unchanged: a job that
    succeeded is not enqueued again.  When a retry timer fires, the job is
    pushed to the back of the queue with [retryCount + 1] (after which the
    [part_002] revision calls [processQueue]). *)
Theorem retry_policy :
  forall (w : World) (n : nat) (cl : Render) (item : Item)
         (segment : TranscriptionSegment) (t : Task),
    nth_error (tasks w) n = Some t ->
    t = AwaitPolish cl item segment \/ t = AwaitTranslate cl item segment ->
    let backoff :=
      if (retryCount item <? 5)%Z
      then [(item, (2 ^ retryCount item * 2000)%Z)] else [] in
    (let failed := FixedCooldown.step (Settle n Rejected) w in
     state failed = state w /\
     segmentsRef (refs failed) = segmentsRef (refs w) /\
     processingQueueRef (refs failed) = processingQueueRef (refs w) /\
     retryTimers (tasks failed) = retryTimers (tasks w) ++ backoff) /\
    (let failed := AdaptiveCooldown.step (Settle n Rejected) w in
     state failed = state w /\
     segmentsRef (refs failed) = segmentsRef (refs w) /\
     shifted (processingQueueRef (refs w))
       (processingQueueRef (refs failed)) /\
     retryTimers (tasks failed) = retryTimers (tasks w) ++ backoff) /\
    (forall r,
        let ok := FixedCooldown.step (Settle n (Resolved r)) w in
        retryTimers (tasks ok) = retryTimers (tasks w) /\
        processingQueueRef (refs ok) = processingQueueRef (refs w)) /\
    (forall r,
        let ok := AdaptiveCooldown.step (Settle n (Resolved r)) w in
        retryTimers (tasks ok) = retryTimers (tasks w) /\
        processingQueueRef (refs ok) = processingQueueRef (refs w)) /\
    (forall w' m ms,
        nth_error (tasks w') m = Some (TimerRequeue cl item ms) ->
        processingQueueRef (refs (FixedCooldown.step (Elapse m) w')) =
        processingQueueRef (refs w') ++ [retried item] /\
        AdaptiveCooldown.step (Elapse m) w' =
        AdaptiveCooldown.processQueue cl (push (retried item) (retire m w'))).
Proof.
  intros w n cl item segment t E Ht backoff.
  assert (Hn : forall cl' item' ms, t <> TimerRequeue cl' item' ms)
    by (destruct Ht; subst; discriminate).
  repeat split.
  1-4: destruct (fixed_failure w n cl item t E Hn) as (A & B & C & D);
       simpl; rewrite E; destruct Ht; subst t; simpl; assumption.
  1-4: destruct (adaptive_failure w n cl item t E Hn) as (A & B & C & D);
       simpl; rewrite E; destruct Ht; subst t; simpl; assumption.
  1-2: apply (fixed_success w n cl item segment r t E Ht).
  1-2: apply (adaptive_success w n cl item segment r t E Ht).
  - simpl. rewrite H. reflexivity.
  - simpl. rewrite H. reflexivity.
Qed.

Lemma retry_policy_witness :
  retryTimers (tasks (FixedCooldown.step (Settle 0 Rejected) sampleBusy)) =
  [(mkItem "s1" polish 2, 8000%Z)].
Proof.
  exact (proj2 (proj2 (proj2 (proj1
    (retry_policy sampleBusy 0 sampleRender (mkItem "s1" polish 2)
       sampleSegment _ eq_refl (or_introl eq_refl)))))).
Defined.

(* ================================================================== *)
(** * Properties of the segmenter *)

(** C3. Timeline invariant, evaluated on both revisions for a recording
    whose first two utterances end within the first second: the revision of
    [src/types.ts] stores [endTime: elapsedTime] unclamped and produces
    two segments with [endTime = startTime]; the revision of
    [src/unnamed/part_002], which takes
    [Math.max(endTime, startTime + 1)], produces [0,1] and [1,2]. *)
Theorem timeline_two_quick_turns :
  spans (FixedCooldown.run twoQuickTurns (mount [] 3500)) = [(0, 0); (0, 0)]%Z
  /\
  spans (AdaptiveCooldown.run twoQuickTurns (mount [] 2500)) =
  [(0, 1); (1, 2)]%Z.
Proof. split; vm_compute; reflexivity. Qed.

(** Without the clamp a finalize never yields [endTime > startTime] when
    the elapsed time it reads has not passed the last boundary. *)
Lemma fixed_finalize_unclamped cl newId w :
  (2 <= length (cleanText (transcriptionBufferRef (refs w))))%nat ->
  (elapsedTime cl <= lastSegmentTimeRef (refs w))%Z ->
  exists s,
    segmentsRef (refs (FixedCooldown.finalizeCurrentSegment cl newId w)) =
    segmentsRef (refs w) ++ [s] /\
    startTime s = lastSegmentTimeRef (refs w) /\
    (endTime s <= startTime s)%Z.
Proof.
  intros Hlen Hle. unfold FixedCooldown.finalizeCurrentSegment.
  destruct (Nat.ltb_spec
              (length (cleanText (transcriptionBufferRef (refs w)))) 2);
    [lia |].
  eexists. destruct (isBilingual cl); fields;
    (split; [reflexivity | split; [reflexivity | exact Hle]]).
Qed.




(** ** Stopping a recording *)





(* ================================================================== *)
(** * Properties of the connection manager *)

(** C4. Reconnect policy.  In the revision of [src/types.ts], a transport
    error met with the counter [c] below 5 and a status other than Idle
    (so in particular Recording or Paused) increments the counter and
    schedules [connectToLive] after [min(15000, 2^(c+1) * 1000)] ms: the
    delay is computed from the counter already incremented.  An error met
    with the counter at 5 or more schedules nothing and sets the status to
    Error.  Every open resets the counter to zero.  In the revision of
    [src/unnamed/part_002] every transport error sets the status to
    Error. *)
Theorem reconnect_policy :
  forall (cl : Render) (w : World),
    let c := connectionRetryCount (refs w) in
    ((c < 5)%Z -> statusRef (refs w) <> IDLE ->
     FixedCooldown.onerror cl w =
     spawn (TimerConnect cl (Z.min 15000 (2 ^ (c + 1) * 1000)))
       (setRef (set_connectionRetryCount (c + 1)) w)) /\
    ((5 <= c)%Z ->
     FixedCooldown.onerror cl w = setState (set_status ERROR) w) /\
    connectionRetryCount (refs (FixedCooldown.onopen w)) = 0%Z /\
    status (state (AdaptiveCooldown.onerror w)) = ERROR.
Proof.
  intros cl w c. unfold FixedCooldown.onerror. fold c.
  repeat split.
  - intros Hc Hs. destruct (Z.ltb_spec c 5); [| lia].
    destruct (statusRef (refs w)); try reflexivity. now destruct Hs.
  - intros Hc. destruct (Z.ltb_spec c 5); [lia |]. simpl.
    destruct (Z.leb_spec 5 c); [reflexivity | lia].
Qed.

Lemma reconnect_policy_witness :
  reconnectTimers
    (tasks (FixedCooldown.onerror sampleRender
              (recordingWith [] []))) = [2000%Z].
Proof.
  rewrite (proj1 (reconnect_policy sampleRender (recordingWith [] []))
             ltac:(vm_compute; reflexivity) ltac:(discriminate)).
  vm_compute. reflexivity.
Defined.

(** C4, as stated, fails on [src/types.ts]: with the counter at 0 the
    reconnect is scheduled after 2000 ms, not [min(15000, 2^0 * 1000)];
    and after five failures in a row the counter has reached 5 while the
    status is still Recording, a fifth reconnect (the delays were 2000,
    4000, 8000, 15000, 15000) having been started; only a sixth failure
    sets Error.  On [src/unnamed/part_002] the first failure sets Error and
    no reconnect is scheduled. *)
Lemma reconnect_delay_and_sixth_failure :
  let one := FixedCooldown.run (recordingStarted ++ [LiveError 0])
               (mount [] 3500) in
  let five := FixedCooldown.run (recordingStarted ++ failures 5 0)
                (mount [] 3500) in
  let six := FixedCooldown.run (recordingStarted ++ failures 6 0)
               (mount [] 3500) in
  reconnectTimers (tasks one) = [2000%Z] /\
  Z.min 15000 (2 ^ 0 * 1000) = 1000%Z /\
  connectionRetryCount (refs five) = 5%Z /\
  status (state five) = RECORDING /\
  length (filter (fun t => match t with LiveSession _ => true | _ => false end)
            (tasks five)) = 6 /\
  status (state six) = ERROR /\
  status (state (AdaptiveCooldown.run [ClickStart true; Commit; LiveError 0]
                   (mount [] 2500))) = ERROR /\
  reconnectTimers
    (tasks (AdaptiveCooldown.run [ClickStart true; Commit; LiveError 0]
              (mount [] 2500))) = [].
Proof. vm_compute. repeat split; reflexivity. Qed.

(* ================================================================== *)
(** * Segment texts are never empty *)

Lemma trimmedOr_nonempty r fallback :
  fallback <> [] -> trimmedOr r fallback <> [].
Proof.
  intros H. unfold trimmedOr. destruct r as [t |]; [| exact H].
  destruct (trim t); [exact H | discriminate].
Qed.







Lemma Forall_removeNth {A} (P : A -> Prop) n l :
  Forall P l -> Forall P (removeNth n l).
Proof.
  revert n. induction l as [| a l IH]; intros [| n] H; simpl; auto;
    inversion H; subst; auto.
Qed.

Lemma Forall_nth_error {A} (P : A -> Prop) n l t :
  Forall P l -> nth_error l n = Some t -> P t.
Proof.
  intros H E. rewrite Forall_forall in H. apply H.
  eapply nth_error_In. exact E.
Qed.




Lemma goodWorld_setState f w :
  goodRender (f (state w)) -> goodWorld w -> goodWorld (setState f w).
Proof. intros E (A & B & C). repeat split; try assumption; apply E. Qed.






Module FixedCooldownTexts.
Import FixedCooldown.











End FixedCooldownTexts.

Module AdaptiveCooldownTexts.
Import AdaptiveCooldown.












End AdaptiveCooldownTexts.





Lemma single_outstanding_call_witness :
  outstandingCalls (FixedCooldown.run oneTurn (mount [] 3500)) = 1 /\
  isProcessingRef (refs (FixedCooldown.run oneTurn (mount [] 3500))) = true.
Proof.
  split; [vm_compute; reflexivity |].
  apply (proj1 (proj2 (proj1 (single_outstanding_call oneTurn [] 3500)))).
  vm_compute. reflexivity.
Defined.

(* ================================================================== *)
(** * The normaliser: claims *)

Section PatternElements.
Variables (lo : nat) (hi : option nat) (k : nat).
Hypothesis lo_pos : 1 <= lo.
Hypothesis k_pos : 1 <= k.

Lemma backtrack_prefix s m g n :
  backtrack lo k s m = Some (g, n) -> exists len, g = firstn len s.
Proof.
  induction m as [| m IH]; simpl; unfold tryGroup;
    match goal with |- context [if ?b then _ else _] => destruct b end;
    intros H; try discriminate; try (injection H as <- _; eauto).
  now apply IH.
Qed.

Lemma matchAt_prefix s g n :
  matchAt lo hi k s = Some (g, n) -> exists len, g = firstn len s.
Proof.
  unfold matchAt.
  match goal with |- context [if ?b then _ else _] => destruct b end;
    [discriminate | apply backtrack_prefix].
Qed.

(** Every unit of the result is a unit of the input. *)
Lemma replaceAll_Forall (P : codeunit -> Prop) s :
  Forall P s -> Forall P (replaceAll lo hi k s).
Proof.
  remember (length s) as m eqn:Hm. revert s Hm.
  induction m as [m IH] using lt_wf_ind. intros s Hm H.
  destruct s as [| c t]; [constructor |].
  rewrite replaceAll_unfold by assumption.
  destruct (matchAt lo hi k (c :: t)) as [[g n] |] eqn:E.
  - destruct (matchAt_prefix _ _ _ E) as [len ->].
    apply (matchAt_Some lo hi k lo_pos k_pos) in E.
    destruct E as (E1 & E2 & E3).
    assert (Hn : 1 <= n) by nia.
    apply Forall_app. split.
    + rewrite <- (firstn_skipn len (c :: t)) in H.
      now apply Forall_app in H.
    + apply (IH (length (skipn n (c :: t))));
        [rewrite length_skipn; lia | reflexivity |].
      rewrite <- (firstn_skipn n (c :: t)) in H.
      now apply Forall_app in H.
  - inversion H; subst. constructor; [assumption |].
    apply (IH (length t)); [simpl; lia | reflexivity | assumption].
Qed.
End PatternElements.

Lemma trimStart_Forall (P : codeunit -> Prop) s :
  Forall P s -> Forall P (trimStart s).
Proof.
  intros H. destruct (trimStart_suffix s) as [p E].
  rewrite E in H. now apply Forall_app in H.
Qed.

Lemma trim_Forall (P : codeunit -> Prop) s : Forall P s -> Forall P (trim s).
Proof.
  intros H. unfold trim, trimEnd.
  apply Forall_rev, trimStart_Forall, Forall_rev, trimStart_Forall, H.
Qed.

Lemma cleanText_Forall (P : codeunit -> Prop) s :
  Forall P s -> Forall P (cleanText s).
Proof.
  intros H. rewrite cleanText_closed_form.
  destruct s as [| c t]; [constructor |].
  apply trim_Forall.
  apply replaceAll_Forall; [lia | lia |].
  apply replaceAll_Forall; [lia | lia | exact H].
Qed.

Lemma cleanHallucinations_Forall (P : codeunit -> Prop) s :
  Forall P s -> Forall P (cleanHallucinations s).
Proof.
  intros H. rewrite cleanHallucinations_closed_form.
  apply replaceAll_Forall; [lia | lia |].
  apply replaceAll_Forall; [lia | lia | exact H].
Qed.


(** ** Texts the scan leaves alone *)

Lemma matchBackref_extend g s rest z :
  matchBackref g s = Some rest -> matchBackref g (s ++ z) = Some (rest ++ z).
Proof.
  revert s. induction g as [| a g IH]; intros s H; simpl in *.
  - now injection H as ->.
  - destruct s as [| b s]; [discriminate |]. simpl.
    destruct (a =? b)%N; [now apply IH | discriminate].
Qed.

Lemma backrefCopies_extend fuel fuel' g s z :
  fuel <= fuel' ->
  backrefCopies fuel g s <= backrefCopies fuel' g (s ++ z).
Proof.
  revert fuel' s. induction fuel as [| fuel IH]; intros fuel' s H; simpl;
    [lia |].
  destruct fuel' as [| fuel']; [lia |]. simpl.
  destruct (matchBackref g s) as [rest |] eqn:E; [| lia].
  rewrite (matchBackref_extend g s rest z E).
  specialize (IH fuel' rest). lia.
Qed.

Lemma dotRun_extend s z : dotRun s <= dotRun (s ++ z).
Proof.
  induction s as [| c t IH]; simpl; [lia |].
  destruct (isLineTerminator c); lia.
Qed.

Section SettledFacts.
Variables (lo : nat) (hi : option nat) (k : nat).
Hypothesis lo_pos : 1 <= lo.
Hypothesis k_pos : 1 <= k.

Lemma tryGroup_extend s z len r :
  len <= length s ->
  tryGroup k s len = Some r -> tryGroup k (s ++ z) len <> None.
Proof.
  unfold tryGroup. intros Hlen H.
  rewrite firstn_app, skipn_app.
  replace (len - length s) with 0 by lia. simpl firstn. simpl skipn.
  rewrite app_nil_r.
  destruct (Nat.leb_spec k
              (backrefCopies (length (skipn len s)) (firstn len s)
                 (skipn len s))) as [Hk |]; [| discriminate].
  pose proof (backrefCopies_extend (length (skipn len s))
                (length (skipn len s ++ z)) (firstn len s) (skipn len s) z)
    as M.
  rewrite length_app in M.
  destruct (Nat.leb_spec k
              (backrefCopies (length (skipn len s ++ z)) (firstn len s)
                 (skipn len s ++ z))) as [| Hk']; [discriminate |].
  rewrite length_app in Hk'. lia.
Qed.

Lemma backtrack_found s m r :
  backtrack lo k s m = Some r ->
  exists len, lo <= len <= lo + m /\ tryGroup k s len = Some r.
Proof.
  induction m as [| m IH]; simpl;
    destruct (tryGroup k s (lo + _)) as [r' |] eqn:E; intros H;
    try discriminate.
  - injection H as <-. exists (lo + 0). split; [lia | exact E].
  - injection H as <-. exists (lo + S m). split; [lia | exact E].
  - destruct (IH H) as (len & Hl & Ht). exists len. split; [lia | exact Ht].
Qed.

Lemma backtrack_finds s m len :
  lo <= len <= lo + m -> tryGroup k s len <> None ->
  backtrack lo k s m <> None.
Proof.
  induction m as [| m IH]; intros Hl Ht; simpl.
  - replace (lo + 0) with len by lia.
    destruct (tryGroup k s len); [discriminate | contradiction].
  - destruct (tryGroup k s (lo + S m)) eqn:E; [discriminate |].
    apply IH; [| exact Ht].
    destruct (Nat.eq_dec len (lo + S m)) as [-> |]; [| lia].
    now rewrite E in Ht.
Qed.

(** A match at the start of [s] is still found when text follows [s]. *)
Lemma matchAt_extend s z r :
  matchAt lo hi k s = Some r -> matchAt lo hi k (s ++ z) <> None.
Proof.
  unfold matchAt. intros H.
  pose proof (dotRun_extend s z) as D.
  pose proof (dotRun_le s) as L.
  set (avail := match hi with
                | Some h => Nat.min h (dotRun s)
                | None => dotRun s
                end) in *.
  set (avail' := match hi with
                 | Some h => Nat.min h (dotRun (s ++ z))
                 | None => dotRun (s ++ z)
                 end).
  assert (A : avail <= avail' /\ avail <= length s)
    by (subst avail avail'; destruct hi; lia).
  destruct (Nat.ltb_spec avail lo); [discriminate |].
  destruct (Nat.ltb_spec avail' lo); [lia |].
  destruct (backtrack_found s _ r H) as (len & Hl & Ht).
  apply (backtrack_finds (s ++ z) _ len); [lia |].
  apply (tryGroup_extend s z len r); [lia | exact Ht].
Qed.

Lemma settled_fixed s : settled lo hi k s -> replaceAll lo hi k s = s.
Proof.
  induction s as [| c t IH]; [reflexivity |].
  intros [E S]. rewrite replaceAll_unfold, E by assumption.
  f_equal. now apply IH.
Qed.

Lemma fixed_settled s : replaceAll lo hi k s = s -> settled lo hi k s.
Proof.
  induction s as [| c t IH]; [intros; exact I |].
  rewrite replaceAll_unfold by assumption.
  destruct (matchAt lo hi k (c :: t)) as [[g n] |] eqn:E.
  - intros H. exfalso.
    apply (matchAt_Some lo hi k lo_pos k_pos) in E.
    destruct E as (E1 & E2 & E3).
    pose proof (proj1 (replaceAll_length lo hi k lo_pos k_pos
                         (skipn n (c :: t)))) as B.
    apply (f_equal (@length codeunit)) in H.
    rewrite length_app, length_skipn in *. nia.
  - intros H. injection H as H. split; [exact E | now apply IH].
Qed.

Lemma settled_suffix p s : settled lo hi k (p ++ s) -> settled lo hi k s.
Proof.
  induction p as [| c p IH]; [auto |]. intros [_ H]. now apply IH.
Qed.

Lemma settled_prefix s z : settled lo hi k (s ++ z) -> settled lo hi k s.
Proof.
  induction s as [| c t IH]; [intros; exact I |].
  intros [E S]. split; [| now apply IH].
  destruct (matchAt lo hi k (c :: t)) as [r |] eqn:M; [| reflexivity].
  now destruct (matchAt_extend (c :: t) z r M).
Qed.

(** Whatever is cut out of a settled text is settled. *)
Lemma settled_middle p s q :
  settled lo hi k (p ++ s ++ q) -> settled lo hi k s.
Proof.
  intros H. apply settled_suffix in H. now apply settled_prefix in H.
Qed.
End SettledFacts.

(** The run pass leaves nothing for itself to do. *)

Lemma single_keeps_head k c t :
  1 <= k ->
  exists u, replaceAll 1 (Some 1) k (c :: t) = c :: u.
Proof.
  intros Hk. rewrite replaceAll_unfold by lia. rewrite matchAt_single.
  destruct (isLineTerminator c); [eauto |].
  destruct (k <=? leading c t); simpl; eauto.
Qed.

Lemma single_keeps_leading k c t :
  1 <= k -> leading c t <= k ->
  leading c (replaceAll 1 (Some 1) k t) = leading c t.
Proof.
  intros Hk. induction t as [| b t IH]; intros H; [reflexivity |].
  simpl in H. destruct (N.eqb_spec c b) as [<- | Hne].
  - rewrite replaceAll_unfold by lia. rewrite matchAt_single.
    assert (E : (k <=? leading c t) = false) by (apply Nat.leb_gt; lia).
    rewrite E. simpl.
    destruct (isLineTerminator c); simpl; rewrite N.eqb_refl;
      f_equal; apply IH; lia.
  - destruct (single_keeps_head k b t Hk) as [u ->]. simpl.
    destruct (N.eqb_spec c b); [contradiction | reflexivity].
Qed.

Lemma leading_skipn c t : leading c (skipn (leading c t) t) = 0.
Proof.
  induction t as [| b t IH]; [reflexivity |]. simpl.
  destruct (N.eqb_spec c b) as [<- | Hne]; simpl.
  - exact IH.
  - destruct (N.eqb_spec c b); [contradiction | reflexivity].
Qed.

Lemma single_settled k s :
  1 <= k -> settled 1 (Some 1) k (replaceAll 1 (Some 1) k s).
Proof.
  intros Hk. remember (length s) as m eqn:Hm. revert s Hm.
  induction m as [m IH] using lt_wf_ind. intros s Hm.
  destruct s as [| c t]; [exact I |].
  rewrite replaceAll_unfold by lia. rewrite matchAt_single.
  pose proof (leading_le c t) as Hr.
  destruct (isLineTerminator c) eqn:LT.
  - split.
    + rewrite matchAt_single, LT. reflexivity.
    + apply (IH (length t)); [simpl in Hm; lia | reflexivity].
  - destruct (Nat.leb_spec k (leading c t)) as [Hge | Hlt].
    + rewrite Nat.mul_1_r. simpl.
      split.
      * rewrite matchAt_single, LT.
        rewrite single_keeps_leading by (rewrite ?leading_skipn; lia).
        rewrite leading_skipn.
        destruct (Nat.leb_spec k 0); [lia | reflexivity].
      * apply (IH (length (skipn (leading c t) t)));
          [rewrite length_skipn; simpl in Hm; lia | reflexivity].
    + split.
      * rewrite matchAt_single, LT.
        rewrite single_keeps_leading by lia.
        destruct (Nat.leb_spec k (leading c t)); [lia | reflexivity].
      * apply (IH (length t)); [simpl in Hm; lia | reflexivity].
Qed.

(** Trimming. *)

Lemma trimStart_idempotent s : trimStart (trimStart s) = trimStart s.
Proof.
  induction s as [| c t IH]; [reflexivity |]. simpl.
  destruct (isWhiteSpace c) eqn:E; [exact IH |]. simpl. now rewrite E.
Qed.

Lemma trimStart_snoc l c :
  isWhiteSpace c = false -> trimStart (l ++ [c]) = trimStart l ++ [c].
Proof.
  intros Hc. induction l as [| a l IH]; simpl.
  - now rewrite Hc.
  - destruct (isWhiteSpace a); [exact IH | reflexivity].
Qed.

Lemma trimEnd_cons c t :
  isWhiteSpace c = false -> trimEnd (c :: t) = c :: trimEnd t.
Proof.
  intros Hc. unfold trimEnd. simpl rev.
  rewrite (trimStart_snoc _ c Hc), rev_app_distr. reflexivity.
Qed.

Lemma trimEnd_idempotent s : trimEnd (trimEnd s) = trimEnd s.
Proof.
  unfold trimEnd. now rewrite rev_involutive, trimStart_idempotent.
Qed.

Lemma trim_idempotent s : trim (trim s) = trim s.
Proof.
  unfold trim.
  assert (H : trimStart (trimEnd (trimStart s)) = trimEnd (trimStart s)).
  { pose proof (trimStart_idempotent s) as I.
    destruct (trimStart s) as [| c t]; [reflexivity |].
    simpl in I. destruct (isWhiteSpace c) eqn:E.
    - exfalso. destruct (trimStart_shrinking t) as [F | F].
      + rewrite F in I. apply (f_equal (@length codeunit)) in I.
        simpl in I. lia.
      + apply (f_equal (@length codeunit)) in I.
        pose proof (trimStart_idempotent t) as J.
        destruct (trimStart_shrinking (trimStart t)) as [G | G];
          rewrite J in *; simpl in I; lia.
    - rewrite (trimEnd_cons c t E). simpl. now rewrite E. }
  rewrite H. apply trimEnd_idempotent.
Qed.

Lemma trimEnd_prefix s : exists q, s = trimEnd s ++ q.
Proof.
  unfold trimEnd. destruct (trimStart_suffix (rev s)) as [p E].
  exists (rev p). rewrite <- rev_app_distr, <- E. symmetry.
  apply rev_involutive.
Qed.

Lemma trim_middle s : exists p q, s = p ++ trim s ++ q.
Proof.
  unfold trim. destruct (trimStart_suffix s) as [p E].
  destruct (trimEnd_prefix (trimStart s)) as [q F].
  exists p, q. now rewrite <- F.
Qed.

Lemma cleanText_idempotent_without_phrases s :
  replaceAll 4 None 2 (replaceAll 1 (Some 1) 6 s) =
  replaceAll 1 (Some 1) 6 s ->
  cleanText (cleanText s) = cleanText s.
Proof.
  intros H. rewrite (cleanText_closed_form s).
  destruct s as [| c t]; [reflexivity |].
  rewrite H. set (x := replaceAll 1 (Some 1) 6 (c :: t)) in *.
  destruct (trim_middle x) as (p & q & E).
  assert (S1 : settled 1 (Some 1) 6 (trim x)).
  { apply (settled_middle 1 (Some 1) 6 ltac:(lia) ltac:(lia) p (trim x) q).
    rewrite <- E. apply single_settled. lia. }
  assert (S2 : settled 4 None 2 (trim x)).
  { apply (settled_middle 4 None 2 ltac:(lia) ltac:(lia) p (trim x) q).
    rewrite <- E. apply fixed_settled; [lia | lia | exact H]. }
  rewrite cleanText_closed_form.
  destruct (trim x) as [| a y] eqn:T; [reflexivity |].
  rewrite <- T in *.
  rewrite (settled_fixed 1 (Some 1) 6 ltac:(lia) ltac:(lia) _ S1).
  rewrite (settled_fixed 4 None 2 ltac:(lia) ltac:(lia) _ S2).
  apply trim_idempotent.
Qed.

Lemma cleanHallucinations_idempotent_without_phrases s :
  replaceAll 2 None 2 (replaceAll 1 (Some 1) 5 s) =
  replaceAll 1 (Some 1) 5 s ->
  cleanHallucinations (cleanHallucinations s) = cleanHallucinations s.
Proof.
  intros H. rewrite !cleanHallucinations_closed_form. rewrite H.
  rewrite (settled_fixed 1 (Some 1) 5 ltac:(lia) ltac:(lia) _
             (single_settled 5 s ltac:(lia))).
  exact H.
Qed.

(** C5. Idempotence of the normaliser, as far as it goes.  In both
    revisions cleaning twice is cleaning once for every text in which the
    phrase pass finds nothing to collapse once the runs are collapsed.  For
    any text the normaliser is shrinking: it returns its argument unchanged
    or a strictly shorter string.  So a second application may shorten the
    text further, but only finitely often: after [length s] applications
    the text is a fixed point. *)
Theorem clean_reaches_fixed_point :
  forall s : jsstring,
    (let collapsed := replace (Seq (Group Dot) (Repeat Backref 6 None)) s in
     replace (Seq (Group (Repeat Dot 4 None)) (Repeat Backref 2 None))
       collapsed = collapsed ->
     cleanText (cleanText s) = cleanText s) /\
    (let collapsed := replace repeatCharRegex s in
     replace repeatPhraseRegex collapsed = collapsed ->
     cleanHallucinations (cleanHallucinations s) = cleanHallucinations s) /\
    (cleanText s = s \/ length (cleanText s) < length s) /\
    cleanText (iterate (length s) cleanText s) =
    iterate (length s) cleanText s /\
    (cleanHallucinations s = s \/
     length (cleanHallucinations s) < length s) /\
    cleanHallucinations (iterate (length s) cleanHallucinations s) =
    iterate (length s) cleanHallucinations s.
Proof.
  intros s. repeat split.
  - intros collapsed H. subst collapsed.
    rewrite replace_char, replace_phrase in H by lia.
    now apply cleanText_idempotent_without_phrases.
  - intros collapsed H. subst collapsed.
    unfold repeatCharRegex, repeatPhraseRegex in H.
    rewrite replace_char, replace_phrase in H by lia.
    now apply cleanHallucinations_idempotent_without_phrases.
  - apply cleanText_shrinking.
  - apply (shrinking_stabilises _ cleanText_shrinking). lia.
  - apply cleanHallucinations_shrinking.
  - apply (shrinking_stabilises _ cleanHallucinations_shrinking). lia.
Qed.

Lemma clean_reaches_fixed_point_witness :
  cleanText (cleanText (js " hmmmmmmmm, right. ")) =
  cleanText (js " hmmmmmmmm, right. ").
Proof.
  apply (proj1 (clean_reaches_fixed_point (js " hmmmmmmmm, right. "))).
  vm_compute. reflexivity.
Defined.

(** C5, as stated, fails in both revisions: seven copies of ["abcd"] clean
    to three copies, which clean to one; seven copies of ["ab"] do the same
    under [cleanHallucinations]. *)
Lemma clean_not_idempotent :
  cleanText (js "abcdabcdabcdabcdabcdabcdabcd") = js "abcdabcdabcd" /\
  cleanText (js "abcdabcdabcd") = js "abcd" /\
  cleanText (cleanText (js "abcdabcdabcdabcdabcdabcdabcd")) <>
  cleanText (js "abcdabcdabcdabcdabcdabcdabcd") /\
  cleanHallucinations (cleanHallucinations (js "ababababababab")) <>
  cleanHallucinations (js "ababababababab").
Proof. repeat split; vm_compute; (reflexivity || discriminate). Qed.







(* ================================================================== *)
(** * The timeline of the live segment list *)

Lemma sameTimeline_chained w w' :
  sameTimeline w w' -> chained w -> chained w'.
Proof. intros [E1 E2] [start H]. exists start. now rewrite E1, E2. Qed.

Lemma sameTimeline_positive w w' :
  sameTimeline w w' ->
  positive (segmentsRef (refs w)) -> positive (segmentsRef (refs w')).
Proof. intros [E1 _] H. now rewrite E1. Qed.

Lemma sameTimeline_refl w : sameTimeline w w.
Proof. split; reflexivity. Qed.

Lemma sameTimeline_trans a b c :
  sameTimeline a b -> sameTimeline b c -> sameTimeline a c.
Proof. intros [A1 A2] [B1 B2]. split; congruence. Qed.

Lemma chain_app start l s :
  chain start l -> startTime s = endOf start l -> chain start (l ++ [s]).
Proof.
  revert start. induction l as [| a l IH]; intros start H E; simpl in *.
  - auto.
  - destruct H as [H1 H2]. split; [exact H1 | now apply IH].
Qed.

Lemma endOf_app start l s : endOf start (l ++ [s]) = endTime s.
Proof. revert start. induction l as [| a l IH]; intros start; simpl; auto. Qed.

Lemma chain_map f start l :
  (forall s, startTime (f s) = startTime s /\ endTime (f s) = endTime s) ->
  chain start l -> chain start (map f l).
Proof.
  intros Hf. revert start. induction l as [| a l IH]; intros start H; simpl.
  - exact I.
  - destruct H as [H1 H2]. destruct (Hf a) as [F1 F2].
    split; [congruence |]. rewrite F2. now apply IH.
Qed.

Lemma endOf_map f start l :
  (forall s, startTime (f s) = startTime s /\ endTime (f s) = endTime s) ->
  endOf start (map f l) = endOf start l.
Proof.
  intros Hf. revert start. induction l as [| a l IH]; intros start; simpl.
  - reflexivity.
  - destruct (Hf a) as [_ F2]. rewrite F2. apply IH.
Qed.

Lemma positive_map f l :
  (forall s, startTime (f s) = startTime s /\ endTime (f s) = endTime s) ->
  positive l -> positive (map f l).
Proof.
  intros Hf H. unfold positive. rewrite Forall_map.
  eapply Forall_impl; [| exact H]. intros s Hs.
  destruct (Hf s) as [-> ->]. exact Hs.
Qed.

Lemma updateText_times target polished s :
  let f := fun s => if String.eqb (id s) target
                    then mkSegment (id s) (startTime s) (endTime s) polished
                           (translatedText s) (isFinal s)
                    else s in
  startTime (f s) = startTime s /\ endTime (f s) = endTime s.
Proof. simpl. destruct (String.eqb (id s) target); split; reflexivity. Qed.

Lemma updateTranslation_times target translated s :
  let f := fun s => if String.eqb (id s) target
                    then mkSegment (id s) (startTime s) (endTime s) (text s)
                           (Some translated) (isFinal s)
                    else s in
  startTime (f s) = startTime s /\ endTime (f s) = endTime s.
Proof. simpl. destruct (String.eqb (id s) target); split; reflexivity. Qed.

Lemma chain_links start l :
  chain start l ->
  forall p a b q, l = p ++ a :: b :: q -> startTime b = endTime a.
Proof.
  revert start. induction l as [| x l IH]; intros start H p a b q E.
  - destruct p; discriminate.
  - destruct H as [_ H]. destruct p as [| y p]; simpl in E.
    + injection E as -> ->. simpl in H. now destruct H.
    + injection E as -> E. exact (IH _ H p a b q E).
Qed.

Lemma chained_mapped f w w' :
  (forall s, startTime (f s) = startTime s /\ endTime (f s) = endTime s) ->
  segmentsRef (refs w') = map f (segmentsRef (refs w)) ->
  lastSegmentTimeRef (refs w') = lastSegmentTimeRef (refs w) ->
  chained w -> chained w'.
Proof.
  intros Hf E1 E2 [start [C D]]. exists start. rewrite E1, E2. split.
  - now apply chain_map.
  - destruct D as [D | D]; [left; now rewrite D | right].
    now rewrite endOf_map.
Qed.

Lemma chained_appended s w w' :
  segmentsRef (refs w') = segmentsRef (refs w) ++ [s] ->
  startTime s = lastSegmentTimeRef (refs w) ->
  lastSegmentTimeRef (refs w') = endTime s ->
  chained w -> chained w'.
Proof.
  intros E1 Es E2 [start [C D]]. rewrite <- Es in D.
  destruct D as [D | D].
  - exists (startTime s). rewrite E1, E2, D. simpl. auto.
  - exists start. rewrite E1, E2. split.
    + apply chain_app; [exact C | now rewrite D].
    + right. apply endOf_app.
Qed.

Lemma chained_emptied w : segmentsRef (refs w) = [] -> chained w.
Proof. intros E. exists 0%Z. rewrite E. simpl. auto. Qed.

Module FixedCooldownTimeline.
Import FixedCooldown.

Lemma fixed_drainFrom_sameTimeline cl q w : sameTimeline w (drainFrom cl q w).
Proof.
  induction q as [| item rest IH]; simpl; [split; reflexivity |].
  destruct (lookupTarget cl item); [| exact IH].
  unfold dispatch.
  destruct (type item); [| destruct (isBilingual cl)]; split; reflexivity.
Qed.

Lemma fixed_processQueue_sameTimeline cl w : sameTimeline w (processQueue cl w).
Proof.
  unfold processQueue.
  destruct (isProcessingRef (refs w) || _);
    [apply sameTimeline_refl | apply fixed_drainFrom_sameTimeline].
Qed.

Lemma fixed_afterCall_sameTimeline cl item success w :
  sameTimeline w (afterCall cl item success w).
Proof.
  unfold afterCall, finish.
  destruct success; [| destruct (retryCount item <? 5)%Z];
    split; reflexivity.
Qed.

Lemma fixed_polishSegment_sameTimeline cl segment o w :
  sameTimeline w (snd (polishSegment cl segment o w)).
Proof.
  unfold polishSegment. destruct o; [| apply sameTimeline_refl].
  destruct (truthyId (viewingSessionId cl)); split; reflexivity.
Qed.

Lemma fixed_translateSegment_sameTimeline cl segment o w :
  sameTimeline w (snd (translateSegment cl segment o w)).
Proof.
  unfold translateSegment. destruct o; [| apply sameTimeline_refl].
  destruct (truthyId (viewingSessionId cl)); split; reflexivity.
Qed.

Lemma fixed_finalizeCurrentSegment_chained cl newId w :
  chained w -> chained (finalizeCurrentSegment cl newId w).
Proof.
  intros H. unfold finalizeCurrentSegment.
  destruct (length (cleanText (transcriptionBufferRef (refs w))) <? 2);
    [exact H |].
  destruct (isBilingual cl);
    (eapply chained_appended; [| | | exact H]; reflexivity).
Qed.

Lemma fixed_onmessage_chained cl t tc i1 i2 w :
  chained w -> chained (onmessage cl t tc i1 i2 w).
Proof.
  intros H. unfold onmessage.
  set (w1 := match t with Some _ => _ | None => w end).
  assert (H1 : chained w1).
  { subst w1. destruct t as [chunk |]; [| exact H].
    match goal with |- context [if ?b then _ else _] => destruct b end;
      [apply fixed_finalizeCurrentSegment_chained |];
      (eapply sameTimeline_chained; [| exact H]; split; reflexivity). }
  destruct tc; [| exact H1]. now apply fixed_finalizeCurrentSegment_chained.
Qed.

Lemma fixed_stopRecording_chained cl segId sessId w :
  chained w -> chained (stopRecording cl segId sessId w).
Proof.
  intros H. unfold stopRecording.
  destruct (status cl); try exact H; now apply chained_emptied.
Qed.

Lemma fixed_step_chained e w : chained w -> chained (step e w).
Proof.
  intros H. destruct e; simpl.
  - eapply sameTimeline_chained; [apply fixed_processQueue_sameTimeline |].
    exact H.
  - destruct (nth_error (tasks w) n) as [[] |]; try exact H.
    + pose proof (fixed_polishSegment_sameTimeline cl segment o (retire n w))
        as P.
      destruct (polishSegment cl segment o (retire n w)) as [success w'].
      eapply sameTimeline_chained; [apply fixed_afterCall_sameTimeline |].
      eapply sameTimeline_chained; [exact P | exact H].
    + pose proof (fixed_translateSegment_sameTimeline cl segment o (retire n w))
        as P.
      destruct (translateSegment cl segment o (retire n w)) as [success w'].
      eapply sameTimeline_chained; [apply fixed_afterCall_sameTimeline |].
      eapply sameTimeline_chained; [exact P | exact H].
  - destruct (nth_error (tasks w) n) as [[] |]; try exact H.
    + eapply sameTimeline_chained; [apply fixed_processQueue_sameTimeline |].
      exact H.
    + unfold connectToLive.
      destruct (statusRef (refs (retire n w))); exact H.
  - destruct (status (state w)); exact H.
  - unfold startRecording. destruct micOk; now apply chained_emptied.
  - now apply fixed_stopRecording_chained.
  - exact H.
  - exact H.
  - exact H.
  - pose proof (fixed_stopRecording_chained (state w) segId sessId w H) as S.
    destruct (status (state w)); assumption.
  - exact H.
  - unfold deleteSession.
    destruct (viewingSessionId (state w)) as [v' |]; [| exact H].
    destruct (String.eqb v' v); exact H.
  - destruct (nth_error (tasks w) n) as [[] |]; exact H.
  - destruct (nth_error (tasks w) n) as [[] |]; try exact H.
    now apply fixed_onmessage_chained.
  - destruct (nth_error (tasks w) n) as [[] |]; try exact H.
    unfold onerror.
    repeat match goal with
           | |- context [if ?b then _ else _] => destruct b
           end; exact H.
  - destruct (nth_error (tasks w) n) as [[] |]; exact H.
Qed.

Lemma fixed_run_chained es w : chained w -> chained (run es w).
Proof.
  revert w. induction es as [| e es IH]; intros w H; simpl; [exact H |].
  apply IH. now apply fixed_step_chained.
Qed.
End FixedCooldownTimeline.

Module AdaptiveCooldownTimeline.
Import AdaptiveCooldown.

Lemma adaptive_sameTimeline_timed w w' :
  sameTimeline w w' -> timed w -> timed w'.
Proof.
  intros S [C P]. split;
    [exact (sameTimeline_chained _ _ S C)
    | exact (sameTimeline_positive _ _ S P)].
Qed.

Lemma adaptive_drainFrom_sameTimeline cl q w :
  sameTimeline w (drainFrom cl q w).
Proof.
  induction q as [| item rest IH]; simpl; [split; reflexivity |].
  destruct (lookupTarget cl item); [| exact IH].
  unfold dispatch.
  destruct (type item); [| destruct (isBilingual cl)]; split; reflexivity.
Qed.

Lemma adaptive_processQueue_sameTimeline cl w :
  sameTimeline w (processQueue cl w).
Proof.
  unfold processQueue.
  destruct (isProcessingRef (refs w) || _);
    [apply sameTimeline_refl | apply adaptive_drainFrom_sameTimeline].
Qed.

Lemma adaptive_afterCall_sameTimeline cl item success w :
  sameTimeline w (afterCall cl item success w).
Proof.
  unfold afterCall, finish, finishWith.
  destruct success; [split; reflexivity |].
  destruct (retryCount item <? 5)%Z; [split; reflexivity |].
  eapply sameTimeline_trans; [| apply adaptive_processQueue_sameTimeline].
  split; reflexivity.
Qed.

Lemma adaptive_polishSegment_timed cl segment o w :
  timed w -> timed (snd (polishSegment cl segment o w)).
Proof.
  intros [C P]. unfold polishSegment. destruct o; [| split; assumption].
  destruct (jsstring_eqb _ _); [split; assumption |].
  destruct (truthyId (viewingSessionId cl)); simpl; split;
    try (eapply chained_mapped; [| | | exact C];
         [apply updateText_times | reflexivity | reflexivity]);
    apply positive_map; auto using updateText_times.
Qed.

Lemma adaptive_translateSegment_timed cl segment o w :
  timed w -> timed (snd (translateSegment cl segment o w)).
Proof.
  intros [C P]. unfold translateSegment. destruct o; [| split; assumption].
  destruct (truthyId (viewingSessionId cl)); simpl; split;
    try (eapply chained_mapped; [| | | exact C];
         [apply updateTranslation_times | reflexivity | reflexivity]);
    apply positive_map; auto using updateTranslation_times.
Qed.

Lemma adaptive_finalizeCurrentSegment_timed cl newId w :
  timed w -> timed (finalizeCurrentSegment cl newId w).
Proof.
  intros [C P]. unfold finalizeCurrentSegment.
  match goal with |- context [if ?b then _ else _] => destruct b end;
    [split; assumption |].
  destruct (isBilingual cl); split;
    try (eapply chained_appended; [| | | exact C]; reflexivity);
    (apply Forall_app; split; [exact P |]; constructor; [| constructor];
     simpl; lia).
Qed.

Lemma adaptive_onmessage_timed cl t tc i1 i2 w :
  timed w -> timed (onmessage cl t tc i1 i2 w).
Proof.
  intros H. unfold onmessage.
  set (w1 := match t with Some _ => _ | None => w end).
  assert (H1 : timed w1).
  { subst w1. destruct t as [chunk |]; [| exact H].
    match goal with |- context [if ?b then _ else _] => destruct b end;
      [apply adaptive_finalizeCurrentSegment_timed |];
      (eapply adaptive_sameTimeline_timed; [| exact H]; split; reflexivity). }
  destruct tc; [| exact H1]. now apply adaptive_finalizeCurrentSegment_timed.
Qed.

Lemma adaptive_emptied_timed w : segmentsRef (refs w) = [] -> timed w.
Proof.
  intros E. split; [now apply chained_emptied |].
  unfold positive. rewrite E. constructor.
Qed.

Lemma adaptive_stopRecording_timed cl segId sessId w :
  timed w -> timed (stopRecording cl segId sessId w).
Proof.
  intros H. unfold stopRecording.
  destruct (status cl); try exact H; now apply adaptive_emptied_timed.
Qed.

Lemma adaptive_step_timed e w : timed w -> timed (step e w).
Proof.
  intros H. destruct e; simpl.
  - eapply adaptive_sameTimeline_timed;
    [apply adaptive_processQueue_sameTimeline |].
    exact H.
  - destruct (nth_error (tasks w) n) as [[] |]; try exact H.
    + pose proof (adaptive_polishSegment_timed cl segment o (retire n w) H)
        as P.
      destruct (polishSegment cl segment o (retire n w)) as [success w'].
      eapply adaptive_sameTimeline_timed;
        [apply adaptive_afterCall_sameTimeline | exact P].
    + pose proof (adaptive_translateSegment_timed cl segment o (retire n w) H)
        as P.
      destruct (translateSegment cl segment o (retire n w)) as [success w'].
      eapply adaptive_sameTimeline_timed;
        [apply adaptive_afterCall_sameTimeline | exact P].
  - destruct (nth_error (tasks w) n) as [[] |]; try exact H.
    + unfold finish, finishWith.
      eapply adaptive_sameTimeline_timed;
        [apply adaptive_processQueue_sameTimeline |].
      exact H.
    + unfold requeue.
      eapply adaptive_sameTimeline_timed;
        [apply adaptive_processQueue_sameTimeline |].
      exact H.
  - destruct (status (state w)); exact H.
  - unfold startRecording. destruct micOk; now apply adaptive_emptied_timed.
  - now apply adaptive_stopRecording_timed.
  - unfold pauseRecording. destruct (status (state w)); try exact H.
    now apply adaptive_finalizeCurrentSegment_timed.
  - unfold resumeRecording. destruct (status (state w)); exact H.
  - exact H.
  - pose proof (adaptive_stopRecording_timed (state w) segId sessId w H) as S.
    destruct (status (state w)); assumption.
  - destruct (status (state w)); exact H.
  - exact H.
  - exact H.
  - destruct (nth_error (tasks w) n) as [[] |]; try exact H.
    now apply adaptive_onmessage_timed.
  - destruct (nth_error (tasks w) n) as [[] |]; exact H.
  - destruct (nth_error (tasks w) n) as [[] |]; exact H.
Qed.

Lemma adaptive_run_timed es w : timed w -> timed (run es w).
Proof.
  revert w. induction es as [| e es IH]; intros w H; simpl; [exact H |].
  apply IH. now apply adaptive_step_timed.
Qed.
End AdaptiveCooldownTimeline.

(** The timeline the two revisions maintain on the live segment list.  In
    both, consecutive segments abut: each starts where the one before it
    ends.  Only the revision of [src/unnamed/part_002], which clamps the
    end time, also keeps every segment of positive length. *)
Lemma timeline_of_both_revisions :
  forall (es : list Event) (saved : list RecordingSession) (cooldown : Z),
    let a := FixedCooldown.run es (mount saved cooldown) in
    let b := AdaptiveCooldown.run es (mount saved cooldown) in
    (forall p s s' q, segmentsRef (refs a) = p ++ s :: s' :: q ->
                      startTime s' = endTime s) /\
    (forall p s s' q, segmentsRef (refs b) = p ++ s :: s' :: q ->
                      startTime s' = endTime s) /\
    (forall s, In s (segmentsRef (refs b)) -> (startTime s < endTime s)%Z).
Proof.
  intros es saved cooldown a b.
  assert (I : chained (mount saved cooldown))
    by (now apply chained_emptied).
  assert (J : timed (mount saved cooldown))
    by (now apply AdaptiveCooldownTimeline.adaptive_emptied_timed).
  destruct (FixedCooldownTimeline.fixed_run_chained es _ I) as [sa [Ca _]].
  destruct (AdaptiveCooldownTimeline.adaptive_run_timed es _ J)
    as [[sb [Cb _]] Pb].
  repeat split.
  - exact (chain_links _ _ Ca).
  - exact (chain_links _ _ Cb).
  - unfold positive in Pb. rewrite Forall_forall in Pb. exact Pb.
Qed.

(* ================================================================== *)
(** * Further properties of the normaliser *)

Lemma trimStart_head s :
  match trimStart s with
  | [] => True
  | c :: _ => isWhiteSpace c = false
  end.
Proof.
  induction s as [| c t IH]; simpl; [exact I |].
  destruct (isWhiteSpace c) eqn:E; [exact IH | exact E].
Qed.

Lemma trimStart_blank s :
  Forall (fun c => isWhiteSpace c = true) s -> trimStart s = [].
Proof.
  induction 1 as [| c t Hc _ IH]; simpl; [reflexivity |].
  now rewrite Hc.
Qed.

Lemma trim_blank s :
  Forall (fun c => isWhiteSpace c = true) s -> trim s = [].
Proof.
  intros H. unfold trim. now rewrite (trimStart_blank s H).
Qed.

(** Neither end of a trimmed string is white space. *)
Lemma trim_ends s :
  match trim s with
  | [] => True
  | c :: _ => isWhiteSpace c = false
  end /\
  match rev (trim s) with
  | [] => True
  | c :: _ => isWhiteSpace c = false
  end.
Proof.
  split.
  - rewrite <- trim_idempotent. unfold trim at 1.
    pose proof (trimStart_head (trim s)) as H.
    destruct (trimStart (trim s)) as [| c t] eqn:E; [exact I |].
    rewrite (trimEnd_cons c t H). exact H.
  - unfold trim, trimEnd. rewrite rev_involutive. apply trimStart_head.
Qed.

Section ShortTexts.
Variables (lo : nat) (hi : option nat) (k : nat).
Hypothesis lo_pos : 1 <= lo.
Hypothesis k_pos : 1 <= k.

(** A match of [(.{lo,hi})\1{k,}] takes at least [lo * (1 + k)] units. *)
Lemma short_settled s : length s < lo * (1 + k) -> settled lo hi k s.
Proof.
  induction s as [| c t IH]; [intros; exact I |].
  intros L. split; [| apply IH; simpl in L; lia].
  destruct (matchAt lo hi k (c :: t)) as [[g n] |] eqn:E; [| reflexivity].
  apply (matchAt_Some lo hi k lo_pos k_pos) in E. nia.
Qed.

(** [.] does not match a line terminator: a text made of line terminators
    holds no match at all. *)
Lemma breaks_settled s :
  Forall (fun c => isLineTerminator c = true) s -> settled lo hi k s.
Proof.
  induction 1 as [| c t Hc _ IH]; [exact I |].
  split; [| exact IH].
  unfold matchAt. simpl dotRun. rewrite Hc.
  destruct hi as [h |]; [rewrite Nat.min_0_r |];
    destruct (Nat.ltb_spec 0 lo); try reflexivity; lia.
Qed.

Lemma replaceAll_nil_inv s : replaceAll lo hi k s = [] -> s = [].
Proof.
  destruct s as [| c t]; [reflexivity |].
  rewrite replaceAll_unfold by assumption.
  destruct (matchAt lo hi k (c :: t)) as [[g n] |] eqn:E; [| discriminate].
  apply (matchAt_Some lo hi k lo_pos k_pos) in E.
  destruct g; [simpl in E; lia | discriminate].
Qed.
End ShortTexts.

Lemma lineTerminator_isWhiteSpace c :
  isLineTerminator c = true -> isWhiteSpace c = true.
Proof.
  unfold isLineTerminator, isWhiteSpace. intros H.
  repeat (apply orb_prop in H; destruct H as [H | H]);
    apply N.eqb_eq in H; subst; reflexivity.
Qed.

Lemma cleanHallucinations_nil_inv s : cleanHallucinations s = [] -> s = [].
Proof.
  rewrite cleanHallucinations_closed_form. intros H.
  apply replaceAll_nil_inv in H; [| lia | lia].
  apply replaceAll_nil_inv in H; [exact H | lia | lia].
Qed.

Lemma cleanText_blank s :
  Forall (fun c => isWhiteSpace c = true) s -> cleanText s = [].
Proof.
  intros H. rewrite cleanText_closed_form. destruct s as [| a t];
    [reflexivity |].
  apply trim_blank.
  apply replaceAll_Forall; [lia | lia |].
  apply replaceAll_Forall; [lia | lia | exact H].
Qed.

(** X1. What [cleanText] returns never starts or ends with white space,
    and a text made of white space only (line breaks included) is cleaned
    to the empty string. *)
Theorem cleanText_is_trimmed s :
  match cleanText s with
  | [] => True
  | c :: _ => isWhiteSpace c = false
  end /\
  match rev (cleanText s) with
  | [] => True
  | c :: _ => isWhiteSpace c = false
  end /\
  (forallb isWhiteSpace s = true -> cleanText s = []).
Proof.
  split; [| split].
  - rewrite cleanText_closed_form. destruct s; [exact I | apply trim_ends].
  - rewrite cleanText_closed_form. destruct s; [exact I | apply trim_ends].
  - intros H. apply cleanText_blank.
    rewrite forallb_forall in H. rewrite Forall_forall. exact H.
Qed.

Lemma cleanText_is_trimmed_witness :
  cleanText [0x20; 0x0A; 0x3000; 0x09]%N = [].
Proof.
  apply (proj2 (proj2 (cleanText_is_trimmed [0x20; 0x0A; 0x3000; 0x09]%N))).
  reflexivity.
Defined.

(** X2. A text too short to hold a repetition is left alone: below 7
    units [cleanText] only trims, and below 6 units [cleanHallucinations]
    returns its argument. *)
Theorem short_text_is_left_alone s :
  (length s < 7 -> cleanText s = trim s) /\
  (length s < 6 -> cleanHallucinations s = s).
Proof.
  split; intros L.
  - rewrite cleanText_closed_form. destruct s as [| a t]; [reflexivity |].
    rewrite (settled_fixed 1 (Some 1) 6 ltac:(lia) ltac:(lia) (a :: t))
      by (apply short_settled; simpl in *; lia).
    rewrite (settled_fixed 4 None 2 ltac:(lia) ltac:(lia) (a :: t))
      by (apply short_settled; simpl in *; lia).
    reflexivity.
  - rewrite cleanHallucinations_closed_form.
    rewrite (settled_fixed 1 (Some 1) 5 ltac:(lia) ltac:(lia) s)
      by (apply short_settled; simpl in *; lia).
    apply settled_fixed; [lia | lia |]. apply short_settled; simpl; lia.
Qed.

Lemma short_text_is_left_alone_witness :
  cleanText (js " aaaa ") = js "aaaa" /\
  cleanHallucinations (js "aaaaa") = js "aaaaa".
Proof.
  split.
  - apply (proj1 (short_text_is_left_alone (js " aaaa "))). simpl. lia.
  - apply (proj2 (short_text_is_left_alone (js "aaaaa"))). simpl. lia.
Defined.

(** X3. The normaliser only removes: every code unit of the result of
    [cleanText] and of [cleanHallucinations] occurs in the argument. *)
Theorem clean_adds_no_unit s :
  incl (cleanText s) s /\ incl (cleanHallucinations s) s.
Proof.
  assert (H : Forall (fun c => In c s) s) by (rewrite Forall_forall; auto).
  split; intros c Hc.
  - pose proof (cleanText_Forall _ s H) as F.
    rewrite Forall_forall in F. now apply F.
  - pose proof (cleanHallucinations_Forall _ s H) as F.
    rewrite Forall_forall in F. now apply F.
Qed.

(** X4. [cleanHallucinations] never erases a text: its result is empty
    only for the empty string. *)
Theorem cleanHallucinations_empty_iff s :
  cleanHallucinations s = [] <-> s = [].
Proof.
  split; [apply cleanHallucinations_nil_inv | intros ->; reflexivity].
Qed.

(** X5. Runs of line breaks are out of reach of both patterns:
    [cleanHallucinations] returns a text made of line terminators as it
    is, however long the run, and [cleanText] trims it to nothing. *)
Theorem line_breaks_are_not_collapsed s :
  forallb isLineTerminator s = true ->
  cleanHallucinations s = s /\ cleanText s = [].
Proof.
  intros H. rewrite forallb_forall in H.
  assert (F : Forall (fun c => isLineTerminator c = true) s)
    by (rewrite Forall_forall; exact H).
  split.
  - rewrite cleanHallucinations_closed_form.
    rewrite (settled_fixed 1 (Some 1) 5 ltac:(lia) ltac:(lia) s)
      by (apply breaks_settled; try lia; exact F).
    apply settled_fixed; [lia | lia |]. apply breaks_settled; try lia; exact F.
  - apply cleanText_blank. rewrite Forall_forall. intros c Hc.
    apply lineTerminator_isWhiteSpace. now apply H.
Qed.

Lemma line_breaks_are_not_collapsed_witness :
  cleanHallucinations (repeat 0x0A%N 40) = repeat 0x0A%N 40 /\
  cleanText (repeat 0x0A%N 40) = [].
Proof.
  apply (line_breaks_are_not_collapsed (repeat 0x0A%N 40)). reflexivity.
Defined.

(* ================================================================== *)
(** * Further properties of the enrichment queue *)

Lemma fixed_drainFrom_orphans cl q w :
  Forall (orphan cl) q ->
  FixedCooldown.drainFrom cl q w = setRef (set_processingQueueRef []) w.
Proof.
  induction 1 as [| i p O _ IH]; simpl; [reflexivity |].
  unfold orphan in O. now rewrite O.
Qed.

Lemma adaptive_drainFrom_orphans cl q w :
  Forall (orphan cl) q ->
  AdaptiveCooldown.drainFrom cl q w = setRef (set_processingQueueRef []) w.
Proof.
  induction 1 as [| i p O _ IH]; simpl; [reflexivity |].
  unfold orphan in O. now rewrite O.
Qed.

Lemma fixed_drainFrom_first cl pre item segment rest w :
  Forall (orphan cl) pre -> lookupTarget cl item = Some segment ->
  FixedCooldown.drainFrom cl (pre ++ item :: rest) w =
  FixedCooldown.dispatch cl item segment
    (setRef (set_processingQueueRef rest) w).
Proof.
  intros F L. induction F as [| i p O _ IH]; simpl.
  - now rewrite L.
  - unfold orphan in O. now rewrite O.
Qed.

Lemma adaptive_drainFrom_first cl pre item segment rest w :
  Forall (orphan cl) pre -> lookupTarget cl item = Some segment ->
  AdaptiveCooldown.drainFrom cl (pre ++ item :: rest) w =
  AdaptiveCooldown.dispatch cl item segment
    (setRef (set_processingQueueRef rest) w).
Proof.
  intros F L. induction F as [| i p O _ IH]; simpl.
  - now rewrite L.
  - unfold orphan in O. now rewrite O.
Qed.

(** What [processQueue] comes down to: nothing, or the queue emptied of
    jobs that all lack a segment, or the first job that has one
    dispatched, the jobs before it dropped. *)
Lemma orphans_split cl q :
  Forall (orphan cl) q \/
  exists pre item segment rest,
    q = pre ++ item :: rest /\ Forall (orphan cl) pre /\
    lookupTarget cl item = Some segment.
Proof.
  induction q as [| item rest IH].
  - left. constructor.
  - destruct (lookupTarget cl item) as [segment |] eqn:E.
    + right. exists [], item, segment, rest. repeat split; auto.
    + destruct IH as [F | (pre & i & s & r & -> & F & L)].
      * left. constructor; assumption.
      * right. exists (item :: pre), i, s, r. repeat split; auto.
Qed.

Lemma fixed_processQueue_cases cl w :
  FixedCooldown.processQueue cl w = w \/
  FixedCooldown.processQueue cl w = setRef (set_processingQueueRef []) w \/
  (exists pre item segment rest,
     processingQueueRef (refs w) = pre ++ item :: rest /\
     FixedCooldown.processQueue cl w =
     FixedCooldown.dispatch cl item segment
       (setRef (set_processingQueueRef rest) w)).
Proof.
  unfold FixedCooldown.processQueue.
  destruct (isProcessingRef (refs w) || _); [now left |]. right.
  destruct (orphans_split cl (processingQueueRef (refs w)))
    as [F | (pre & i & s & r & E & F & L)].
  - left. now apply fixed_drainFrom_orphans.
  - right. exists pre, i, s, r. split; [exact E |]. rewrite E.
    now apply fixed_drainFrom_first.
Qed.

Lemma adaptive_processQueue_cases cl w :
  AdaptiveCooldown.processQueue cl w = w \/
  AdaptiveCooldown.processQueue cl w =
  setRef (set_processingQueueRef []) w \/
  (exists pre item segment rest,
     processingQueueRef (refs w) = pre ++ item :: rest /\
     AdaptiveCooldown.processQueue cl w =
     AdaptiveCooldown.dispatch cl item segment
       (setRef (set_processingQueueRef rest) w)).
Proof.
  unfold AdaptiveCooldown.processQueue.
  destruct (isProcessingRef (refs w) || _); [now left |]. right.
  destruct (orphans_split cl (processingQueueRef (refs w)))
    as [F | (pre & i & s & r & E & F & L)].
  - left. now apply adaptive_drainFrom_orphans.
  - right. exists pre, i, s, r. split; [exact E |]. rewrite E.
    now apply adaptive_drainFrom_first.
Qed.

(** X6. Jobs are taken in queue order, and a job whose segment is not in
    the list the render shows (the live list, or the segments of the
    session being viewed) is dropped without a call: when every queued job
    is such an orphan, [processQueue] empties the queue and starts
    nothing; otherwise it dispatches the first job that has a segment and
    leaves the jobs behind it queued. *)
Theorem processQueue_drops_orphans cl w pre :
  isProcessingRef (refs w) = false ->
  Forall (orphan cl) pre ->
  (processingQueueRef (refs w) = pre ->
   forall w',
     w' = FixedCooldown.processQueue cl w \/
     w' = AdaptiveCooldown.processQueue cl w ->
     processingQueueRef (refs w') = [] /\ tasks w' = tasks w /\
     isProcessingRef (refs w') = false /\ state w' = state w) /\
  (forall item segment rest,
     processingQueueRef (refs w) = pre ++ item :: rest ->
     lookupTarget cl item = Some segment ->
     FixedCooldown.processQueue cl w =
     FixedCooldown.dispatch cl item segment
       (setRef (set_processingQueueRef rest) w) /\
     AdaptiveCooldown.processQueue cl w =
     AdaptiveCooldown.dispatch cl item segment
       (setRef (set_processingQueueRef rest) w)).
Proof.
  intros B F. split.
  - intros Q w' [-> | ->];
      unfold FixedCooldown.processQueue, AdaptiveCooldown.processQueue;
      rewrite B; simpl orb;
      (destruct (length (processingQueueRef (refs w)) =? 0) eqn:Z;
       [apply Nat.eqb_eq, length_zero_iff_nil in Z; auto |]);
      rewrite Q;
      [rewrite (fixed_drainFrom_orphans cl pre w F)
      | rewrite (adaptive_drainFrom_orphans cl pre w F)];
      simpl; auto.
  - intros item segment rest Q L.
    unfold FixedCooldown.processQueue, AdaptiveCooldown.processQueue.
    rewrite B, Q, length_app. simpl.
    replace (length pre + S (length rest) =? 0) with false
      by (symmetry; apply Nat.eqb_neq; lia).
    split;
      [now apply fixed_drainFrom_first | now apply adaptive_drainFrom_first].
Qed.

(** A recording has been stopped by opening the archived session
    ["old"]; the job of the live segment ["s1"] is still queued. *)
Lemma processQueue_drops_orphans_witness :
  let cl := mkRender IDLE [] [mkSession "old" (js "Old") [] 0]
              (Some "old"%string) false 9 in
  let w := mkWorld cl
             (mkRefs [] [] 4 0 IDLE false [mkItem "s1" polish 0] 3500) [] in
  processingQueueRef (refs (FixedCooldown.processQueue cl w)) = [] /\
  tasks (FixedCooldown.processQueue cl w) = [] /\
  processingQueueRef (refs (AdaptiveCooldown.processQueue cl w)) = [] /\
  tasks (AdaptiveCooldown.processQueue cl w) = [].
Proof.
  intros cl w.
  assert (F : Forall (orphan cl) [mkItem "s1" polish 0])
    by (constructor; [reflexivity | constructor]).
  destruct (processQueue_drops_orphans cl w [mkItem "s1" polish 0]
              eq_refl F) as [H _].
  destruct (H eq_refl _ (or_introl eq_refl)) as (A & B & _).
  destruct (H eq_refl _ (or_intror eq_refl)) as (C & D & _).
  auto.
Defined.

(* ================================================================== *)
(** * Invariants of the event loop *)

Lemma fixed_run_invariant (I : World -> Prop) :
  (forall e w, I w -> I (FixedCooldown.step e w)) ->
  forall es w, I w -> I (FixedCooldown.run es w).
Proof.
  intros S es. induction es as [| e es IH]; intros w H; simpl; [exact H |].
  apply IH. now apply S.
Qed.

Lemma adaptive_run_invariant (I : World -> Prop) :
  (forall e w, I w -> I (AdaptiveCooldown.step e w)) ->
  forall es w, I w -> I (AdaptiveCooldown.run es w).
Proof.
  intros S es. induction es as [| e es IH]; intros w H; simpl; [exact H |].
  apply IH. now apply S.
Qed.

(** Case analysis on the event and on the task it is aimed at. *)
Ltac event_cases H e w :=
  destruct e; cbn [FixedCooldown.step AdaptiveCooldown.step];
  repeat match goal with
         | |- context [nth_error (tasks w) ?n] =>
             let E := fresh "E" in
             destruct (nth_error (tasks w) n) as [[] |] eqn:E
         end;
  try exact H.

(** Every handler of an event, unfolded down to the field updates. *)
Ltac unfold_handlers :=
  unfold FixedCooldown.afterCall, FixedCooldown.polishSegment,
    FixedCooldown.translateSegment, FixedCooldown.requeue,
    FixedCooldown.onopen, FixedCooldown.onmessage, FixedCooldown.onerror,
    FixedCooldown.connectToLive, FixedCooldown.startRecording,
    FixedCooldown.pauseRecording, FixedCooldown.resumeRecording,
    FixedCooldown.stopRecording, FixedCooldown.deleteSession,
    AdaptiveCooldown.afterCall, AdaptiveCooldown.polishSegment,
    AdaptiveCooldown.translateSegment, AdaptiveCooldown.requeue,
    AdaptiveCooldown.onmessage, AdaptiveCooldown.onerror,
    AdaptiveCooldown.startRecording, AdaptiveCooldown.pauseRecording,
    AdaptiveCooldown.resumeRecording, AdaptiveCooldown.stopRecording;
  unfold FixedCooldown.finish, AdaptiveCooldown.finish,
    AdaptiveCooldown.finishWith, FixedCooldown.finalizeCurrentSegment,
    AdaptiveCooldown.finalizeCurrentSegment;
  cbv zeta.

(** The loop of [processQueue] replaced by its three outcomes. *)
Ltac through_processQueue :=
  repeat match goal with
         | |- context [FixedCooldown.processQueue ?cl ?w] =>
             let pre := fresh "pre" in
             let i := fresh "i" in
             let s := fresh "s" in
             let r := fresh "r" in
             let E := fresh "E" in
             destruct (fixed_processQueue_cases cl w)
               as [-> | [-> | (pre & i & s & r & E & ->)]]
         | |- context [AdaptiveCooldown.processQueue ?cl ?w] =>
             let pre := fresh "pre" in
             let i := fresh "i" in
             let s := fresh "s" in
             let r := fresh "r" in
             let E := fresh "E" in
             destruct (adaptive_processQueue_cases cl w)
               as [-> | [-> | (pre & i & s & r & E & ->)]]
         end;
  unfold FixedCooldown.dispatch, AdaptiveCooldown.dispatch; cbv zeta.

(** Case analysis on the conditions the handlers test. *)
Ltac all_cases :=
  repeat match goal with
         | |- context [match ?o with Resolved _ => _ | Rejected => _ end] =>
             destruct o
         | |- context [match ?t with Some _ => _ | None => _ end] =>
             destruct t
         | |- context [match type ?i with polish => _ | translate => _ end] =>
             destruct (type i)
         | |- context [if ?b then _ else _] => destruct b eqn:?
         | |- context [match status ?r with _ => _ end] =>
             destruct (status r)
         | |- context [match statusRef ?r with _ => _ end] =>
             destruct (statusRef r)
         end.

(** The tests that came out true or false, as propositions. *)
Ltac reflect_tests :=
  repeat match goal with
         | H : (_ || _) = false |- _ =>
             apply orb_false_elim in H; destruct H
         | H : (_ && _) = true |- _ =>
             apply andb_prop in H; destruct H
         | H : (_ || _) = true |- _ =>
             apply orb_prop in H; destruct H
         | H : (_ && _) = false |- _ =>
             apply andb_false_iff in H; destruct H
         | H : (_ <? _) = true |- _ => apply Nat.ltb_lt in H
         | H : (_ <? _) = false |- _ => apply Nat.ltb_ge in H
         | H : (_ <? _)%Z = true |- _ => apply Z.ltb_lt in H
         | H : (_ <? _)%Z = false |- _ => apply Z.ltb_ge in H
         | H : (_ <=? _)%Z = true |- _ => apply Z.leb_le in H
         | H : (_ <=? _)%Z = false |- _ => apply Z.leb_gt in H
         end.

Ltac conjuncts :=
  repeat match goal with
         | H : _ /\ _ |- _ => destruct H
         end.

(** ** Retry counters *)







(** ** Cooldowns *)

Lemma cooldowns_app l1 l2 :
  cooldowns (l1 ++ l2) = cooldowns l1 ++ cooldowns l2.
Proof.
  induction l1 as [| t l1 IH]; [reflexivity |].
  destruct t; simpl; now rewrite ?IH.
Qed.

Lemma cooldowns_removeNth (Q : Z -> Prop) n l :
  Forall Q (cooldowns l) -> Forall Q (cooldowns (removeNth n l)).
Proof.
  revert n. induction l as [| t l IH]; intros [| n] H; simpl; auto;
    destruct t; simpl in *; auto; inversion H; subst; auto.
Qed.

Ltac cooling_parts :=
  unfold cooling in *; fields; conjuncts;
  rewrite ?cooldowns_app; cbn [cooldowns]; rewrite ?Forall_app;
  repeat split;
  auto using cooldowns_removeNth, Forall_nil;
  try (constructor; [| auto using Forall_nil]);
  try lia.

Lemma fixed_step_cooling e w :
  cooling (fun c => c = 3500%Z) (fun ms => ms = 3500%Z) w ->
  cooling (fun c => c = 3500%Z) (fun ms => ms = 3500%Z)
    (FixedCooldown.step e w).
Proof.
  intros H.
  event_cases H e w; unfold_handlers; all_cases; through_processQueue;
    all_cases; cooling_parts.
Qed.

Lemma adaptive_step_cooling e w :
  cooling (fun c => (2000 <= c <= 15000)%Z)
    (fun ms => ms = 1000%Z \/ (2000 <= ms <= 15000)%Z) w ->
  cooling (fun c => (2000 <= c <= 15000)%Z)
    (fun ms => ms = 1000%Z \/ (2000 <= ms <= 15000)%Z)
    (AdaptiveCooldown.step e w).
Proof.
  intros H.
  event_cases H e w; unfold_handlers; all_cases; through_processQueue;
    all_cases; cooling_parts.
Qed.

(** X8. In the revision of [src/types.ts] the cooldown between two calls
    never changes: whatever the events, [baseCooldownRef] is 3500 and
    every cooldown being awaited lasts 3500 ms. *)
Theorem fixed_cooldown_is_constant es saved :
  let w := FixedCooldown.run es (mount saved 3500) in
  baseCooldownRef (refs w) = 3500%Z /\
  Forall (fun ms => ms = 3500%Z) (cooldowns (tasks w)).
Proof.
  apply (fixed_run_invariant _ fixed_step_cooling).
  split; [reflexivity | constructor].
Qed.

(** X9. In the revision of [src/unnamed/part_002] the adaptive cooldown
    stays between 2000 and 15000 ms whatever the events, and every delay
    awaited inside [processQueue] is either the 1000 ms that follow a
    failure or a cooldown in that range. *)
Theorem adaptive_cooldown_stays_in_range es saved :
  let w := AdaptiveCooldown.run es (mount saved 2500) in
  (2000 <= baseCooldownRef (refs w) <= 15000)%Z /\
  Forall (fun ms => ms = 1000%Z \/ (2000 <= ms <= 15000)%Z)
    (cooldowns (tasks w)).
Proof.
  apply (adaptive_run_invariant _ adaptive_step_cooling).
  split; [simpl; lia | constructor].
Qed.

(** ** Reconnects *)

Lemma reconnectTimers_app l1 l2 :
  reconnectTimers (l1 ++ l2) = reconnectTimers l1 ++ reconnectTimers l2.
Proof.
  induction l1 as [| t l1 IH]; [reflexivity |].
  destruct t; simpl; now rewrite ?IH.
Qed.

Lemma reconnectTimers_removeNth (Q : Z -> Prop) n l :
  Forall Q (reconnectTimers l) -> Forall Q (reconnectTimers (removeNth n l)).
Proof.
  revert n. induction l as [| t l IH]; intros [| n] H; simpl; auto;
    destruct t; simpl in *; auto; inversion H; subst; auto.
Qed.

Lemma backoff_in_reconnectDelays c :
  (0 <= c < 5)%Z ->
  In (Z.min 15000 (2 ^ (c + 1) * 1000)) reconnectDelays.
Proof.
  intros H.
  assert (C : c = 0%Z \/ c = 1%Z \/ c = 2%Z \/ c = 3%Z \/ c = 4%Z) by lia.
  destruct C as [-> | [-> | [-> | [-> | ->]]]]; simpl; auto 6.
Qed.

Ltac reconnecting_parts :=
  unfold reconnecting in *; fields; conjuncts; reflect_tests;
  rewrite ?reconnectTimers_app; cbn [reconnectTimers]; rewrite ?Forall_app;
  repeat split;
  auto using reconnectTimers_removeNth, Forall_nil;
  try (constructor; [| auto using Forall_nil]);
  try lia;
  try (apply backoff_in_reconnectDelays; lia);
  try (simpl; auto).

Lemma fixed_step_reconnecting e w :
  reconnecting w -> reconnecting (FixedCooldown.step e w).
Proof.
  intros H.
  event_cases H e w; unfold_handlers; all_cases; through_processQueue;
    all_cases; reconnecting_parts.
Qed.

(** X10. In the revision of [src/types.ts], whatever the events, the
    retry counter of the live connection stays between 0 and 5 and a
    reconnect is only ever scheduled after 300, 2000, 4000, 8000 or 15000
    ms. *)
Theorem reconnects_stay_bounded es saved :
  let w := FixedCooldown.run es (mount saved 3500) in
  (0 <= connectionRetryCount (refs w) <= 5)%Z /\
  Forall (fun ms => In ms [300; 2000; 4000; 8000; 15000]%Z)
    (reconnectTimers (tasks w)).
Proof.
  apply (fixed_run_invariant _ fixed_step_reconnecting).
  split; [simpl; lia | constructor].
Qed.

(* ================================================================== *)
(** * Further properties of the segmenter *)

Lemma cleanText_nil : cleanText [] = [].
Proof. reflexivity. Qed.

Ltac pending_parts :=
  unfold pendingWithin in *; fields; conjuncts; reflect_tests;
  rewrite ?cleanText_nil; cbn [length endsSentence rev];
  repeat split; try assumption; try lia;
  try (left; lia); try (right; assumption); try (right; reflexivity).

Lemma fixed_step_pending e w :
  pendingWithin cleanText 120 25 w ->
  pendingWithin cleanText 120 25 (FixedCooldown.step e w).
Proof.
  intros H.
  event_cases H e w; unfold_handlers; all_cases; through_processQueue;
    all_cases; pending_parts.
Qed.

(** X11. In the revision of [src/types.ts], whatever the events, the text
    being captured (the cleaned buffer) is at most 120 units long, and at
    most 25 units long when it ends with sentence punctuation: anything
    longer has been finalized by the message that brought it. *)
Theorem fixed_pending_text_is_bounded es saved :
  let w := FixedCooldown.run es (mount saved 3500) in
  let liveText := cleanText (transcriptionBufferRef (refs w)) in
  length liveText <= 120 /\
  (length liveText <= 25 \/ endsSentence liveText = false).
Proof.
  apply (fixed_run_invariant _ fixed_step_pending).
  split; simpl; [lia | left; lia].
Qed.

Ltac adaptive_pending_parts :=
  unfold pendingWithin in *; fields; try assumption;
  reflect_tests;
  repeat match goal with
         | H : length ?x < 1 |- _ =>
             assert (x = []) by (destruct x; [reflexivity | simpl in H; lia]);
             clear H
         | H : cleanHallucinations _ = [] |- _ =>
             apply cleanHallucinations_nil_inv in H
         end;
  try (left; first [assumption | reflexivity]);
  try (right; repeat split; try lia;
       first [left; lia | right; assumption]).

Lemma adaptive_step_pending e w :
  trim (transcriptionBufferRef (refs w)) = [] \/
  pendingWithin cleanHallucinations 50 8 w ->
  trim (transcriptionBufferRef (refs (AdaptiveCooldown.step e w))) = [] \/
  pendingWithin cleanHallucinations 50 8 (AdaptiveCooldown.step e w).
Proof.
  intros H.
  event_cases H e w; unfold_handlers; all_cases; through_processQueue;
    all_cases; adaptive_pending_parts.
Qed.

(** X12. In the revision of [src/unnamed/part_002], whatever the events,
    the buffer either holds white space only, or its cleaned text is at
    most 50 units long, and at most 8 units long when it ends with
    sentence punctuation.  (A buffer of white space is never finalized,
    whatever its length: [finalizeCurrentSegment] trims before it
    cleans.) *)
Theorem adaptive_pending_text_is_bounded es saved :
  let w := AdaptiveCooldown.run es (mount saved 2500) in
  let liveText := cleanHallucinations (transcriptionBufferRef (refs w)) in
  trim (transcriptionBufferRef (refs w)) = [] \/
  (length liveText <= 50 /\
   (length liveText <= 8 \/ endsSentence liveText = false)).
Proof.
  apply (adaptive_run_invariant
           (fun w => trim (transcriptionBufferRef (refs w)) = [] \/
                     pendingWithin cleanHallucinations 50 8 w)
           adaptive_step_pending).
  left. reflexivity.
Qed.

(** ** The live list of [src/types.ts] is never enriched *)

Ltac untranslated_parts :=
  unfold untranslated in *; fields;
  rewrite ?Forall_app; repeat split; auto using Forall_nil;
  try (constructor; [reflexivity | constructor]).

Lemma fixed_step_untranslated e w :
  untranslated (segmentsRef (refs w)) ->
  untranslated (segmentsRef (refs (FixedCooldown.step e w))).
Proof.
  intros H.
  event_cases H e w; unfold_handlers; all_cases; through_processQueue;
    all_cases; untranslated_parts.
Qed.

(** X13. In the revision of [src/types.ts] enrichment never reaches the
    list a recording is archived from.  A settling polish or translate
    call leaves [segmentsRef] as it is, so whatever the events no segment
    of [segmentsRef] carries a translation; every finalize that creates a
    segment replaces the displayed list by [segmentsRef]; and the session
    that [stopRecording] archives holds no translation. *)
Theorem fixed_live_list_is_never_enriched es saved :
  let w := FixedCooldown.run es (mount saved 3500) in
  (forall n o,
     segmentsRef (refs (FixedCooldown.step (Settle n o) w)) =
     segmentsRef (refs w)) /\
  untranslated (segmentsRef (refs w)) /\
  (forall cl newId,
     let w' := FixedCooldown.finalizeCurrentSegment cl newId w in
     w' = w \/
     (segments (state w') = segmentsRef (refs w') /\
      untranslated (segments (state w')))) /\
  (forall segId sessId,
     status (state w) <> IDLE ->
     exists x,
       sessions (state (FixedCooldown.step (ClickStop segId sessId) w)) =
       x :: sessions (state w) /\
       session_id x = sessId /\ untranslated (session_segments x)).
Proof.
  intros w.
  assert (U : untranslated (segmentsRef (refs w))).
  { unfold w.
    apply (fixed_run_invariant
             (fun w => untranslated (segmentsRef (refs w)))
             fixed_step_untranslated).
    constructor. }
  assert (F : forall cl newId,
             untranslated
               (segmentsRef
                  (refs (FixedCooldown.finalizeCurrentSegment cl newId w)))).
  { intros cl newId. unfold FixedCooldown.finalizeCurrentSegment.
    cbv zeta. all_cases; untranslated_parts. }
  clearbody w. repeat split.
  - intros n o. cbn [FixedCooldown.step].
    destruct (nth_error (tasks w) n) as [[] |]; try reflexivity;
      unfold_handlers; all_cases; through_processQueue; all_cases;
      reflexivity.
  - exact U.
  - intros cl newId w'. specialize (F cl newId). subst w'.
    unfold FixedCooldown.finalizeCurrentSegment in *. cbv zeta in *.
    destruct (length _ <? 2); [now left | right].
    destruct (isBilingual cl); fields; auto.
  - intros segId sessId NI. cbn [FixedCooldown.step].
    specialize (F (state w) segId).
    unfold FixedCooldown.stopRecording. cbv zeta.
    destruct (status (state w)); [congruence | | |];
      eexists; fields; repeat split; exact F.
Qed.

Lemma fixed_live_list_is_never_enriched_witness :
  map translatedText
    (segments (state (FixedCooldown.run enrichedTurn (mount [] 3500)))) =
  [Some (js "Bonjour.")] /\
  exists x,
    sessions (state (FixedCooldown.step (ClickStop "c" "d")
                       (FixedCooldown.run enrichedTurn (mount [] 3500)))) =
    x :: sessions (state (FixedCooldown.run enrichedTurn (mount [] 3500))) /\
    session_id x = "d"%string /\ untranslated (session_segments x).
Proof.
  split; [vm_compute; reflexivity |].
  apply (proj2 (proj2 (proj2
           (fixed_live_list_is_never_enriched enrichedTurn [])))).
  vm_compute. discriminate.
Defined.

Lemma frame_updateText target polished l :
  map frame (updateText target polished l) = map frame l.
Proof.
  unfold updateText. rewrite map_map. apply map_ext. intros s.
  now destruct (String.eqb (id s) target).
Qed.

Lemma frame_updateTranslation target translated l :
  map frame (updateTranslation target translated l) = map frame l.
Proof.
  unfold updateTranslation. rewrite map_map. apply map_ext. intros s.
  now destruct (String.eqb (id s) target).
Qed.

Lemma sessionFrame_updateSession v f l :
  (forall x, map frame (f x) = map frame x) ->
  map sessionFrame (updateSession v f l) = map sessionFrame l.
Proof.
  intros Hf. unfold updateSession. rewrite map_map. apply map_ext.
  intros s. destruct (String.eqb (session_id s) v); [| reflexivity].
  unfold sessionFrame. simpl. now rewrite Hf.
Qed.

Lemma translations_updateText target polished l :
  map translatedText (updateText target polished l) = map translatedText l.
Proof.
  unfold updateText. rewrite map_map. apply map_ext. intros s.
  now destruct (String.eqb (id s) target).
Qed.

Lemma texts_updateTranslation target translated l :
  map text (updateTranslation target translated l) = map text l.
Proof.
  unfold updateTranslation. rewrite map_map. apply map_ext. intros s.
  now destruct (String.eqb (id s) target).
Qed.

Ltac structure_parts :=
  unfold sameStructure; fields;
  rewrite ?frame_updateText, ?frame_updateTranslation,
    ?translations_updateText, ?texts_updateTranslation;
  repeat split;
  rewrite ?sessionFrame_updateSession;
  auto using frame_updateText, frame_updateTranslation.

(** X14. In both revisions a settling polish or translate call only
    rewrites texts: the displayed list, the live list and the sessions
    keep their rows, with the same ids, times and order, and the sessions
    their ids, titles and durations.  A polish result leaves every
    translation as it is, and a translation every text. *)
Theorem enrichment_keeps_structure n o w w' :
  w' = FixedCooldown.step (Settle n o) w \/
  w' = AdaptiveCooldown.step (Settle n o) w ->
  sameStructure w w' /\
  (forall cl item segment,
     nth_error (tasks w) n = Some (AwaitPolish cl item segment) ->
     map translatedText (segments (state w')) =
     map translatedText (segments (state w))) /\
  (forall cl item segment,
     nth_error (tasks w) n = Some (AwaitTranslate cl item segment) ->
     map text (segments (state w')) = map text (segments (state w))).
Proof.
  intros [-> | ->]; cbn [FixedCooldown.step AdaptiveCooldown.step];
    (destruct (nth_error (tasks w) n) as [[] |];
     [| | | | | | |]; repeat split; try discriminate; try reflexivity;
     try (intros ? ? ? _));
    unfold_handlers; all_cases; through_processQueue; all_cases;
    structure_parts.
Qed.

Lemma enrichment_keeps_structure_witness :
  let w' :=
    FixedCooldown.step (Settle 0 (Resolved (Some (js "Hello there!"))))
      sampleBusy in
  map text (segments (state w')) = [js "Hello there!"] /\
  sameStructure sampleBusy w'.
Proof.
  intros w'. split; [reflexivity |].
  exact (proj1 (enrichment_keeps_structure 0 _ sampleBusy w'
                  (or_introl eq_refl))).
Defined.

(** ** Times never go below zero *)

Lemma fromZero_updateText target polished l :
  fromZero l -> fromZero (updateText target polished l).
Proof.
  unfold fromZero, updateText. rewrite Forall_map. apply Forall_impl.
  intros s H. now destruct (String.eqb (id s) target).
Qed.

Lemma fromZero_updateTranslation target translated l :
  fromZero l -> fromZero (updateTranslation target translated l).
Proof.
  unfold fromZero, updateTranslation. rewrite Forall_map. apply Forall_impl.
  intros s H. now destruct (String.eqb (id s) target).
Qed.

Ltac clocked_parts :=
  unfold clocked in *; fields; conjuncts;
  repeat split;
  auto using fromZero_updateText, fromZero_updateTranslation,
    Forall_removeNth;
  unfold fromZero in *; rewrite ?Forall_app; repeat split;
  auto using Forall_removeNth, Forall_nil;
  try (constructor; [| auto using Forall_nil]);
  cbn [closure startTime endTime]; try lia.

Lemma fixed_step_clocked e w : clocked w -> clocked (FixedCooldown.step e w).
Proof.
  intros H. pose proof H as (_ & _ & _ & _ & Ht).
  event_cases H e w;
    try (pose proof (Forall_nth_error _ _ _ _ Ht E) as G; simpl in G);
    unfold_handlers; all_cases; through_processQueue; all_cases;
    clocked_parts.
Qed.

Lemma adaptive_step_clocked e w :
  clocked w -> clocked (AdaptiveCooldown.step e w).
Proof.
  intros H. pose proof H as (_ & _ & _ & _ & Ht).
  event_cases H e w;
    try (pose proof (Forall_nth_error _ _ _ _ Ht E) as G; simpl in G);
    unfold_handlers; all_cases; through_processQueue; all_cases;
    clocked_parts.
Qed.

(** X24. In both revisions, whatever the events, the clock and the
    timeline never go below zero: the elapsed time and the last boundary
    are at least 0, and every segment of the live list and of the
    displayed list starts and ends at a time that is at least 0 (the
    times [formatTime] is given). *)
Theorem times_never_go_below_zero es saved cooldown w :
  w = FixedCooldown.run es (mount saved cooldown) \/
  w = AdaptiveCooldown.run es (mount saved cooldown) ->
  (0 <= elapsedTime (state w))%Z /\
  (0 <= lastSegmentTimeRef (refs w))%Z /\
  Forall (fun s => (0 <= startTime s)%Z /\ (0 <= endTime s)%Z)
    (segmentsRef (refs w)) /\
  Forall (fun s => (0 <= startTime s)%Z /\ (0 <= endTime s)%Z)
    (segments (state w)).
Proof.
  intros W.
  assert (C : clocked w).
  { assert (M : clocked (mount saved cooldown))
      by (repeat split; simpl; try lia; constructor).
    destruct W as [-> | ->];
      [now apply (fixed_run_invariant _ fixed_step_clocked)
      | now apply (adaptive_run_invariant _ adaptive_step_clocked)]. }
  destruct C as (A & B & C & D & _). auto.
Qed.

Lemma times_never_go_below_zero_witness :
  let w := AdaptiveCooldown.run twoQuickTurns (mount [] 2500) in
  (0 <= elapsedTime (state w))%Z /\
  (0 <= lastSegmentTimeRef (refs w))%Z /\
  Forall (fun s => (0 <= startTime s)%Z /\ (0 <= endTime s)%Z)
    (segmentsRef (refs w)) /\
  Forall (fun s => (0 <= startTime s)%Z /\ (0 <= endTime s)%Z)
    (segments (state w)).
Proof.
  exact (times_never_go_below_zero twoQuickTurns [] 2500 _
           (or_intror eq_refl)).
Defined.

(** ** The live list of [src/types.ts] holds cleaned texts *)

Lemma cleanText_trimmed s : trim (cleanText s) = cleanText s.
Proof.
  rewrite cleanText_closed_form. destruct s; [reflexivity |].
  apply trim_idempotent.
Qed.

Ltac finalized_parts :=
  fields; reflect_tests;
  rewrite ?Forall_app; repeat split; auto using Forall_nil;
  try (constructor; [| constructor]);
  unfold asFinalized; cbn [isFinal text];
  repeat split; auto using cleanText_trimmed.

Lemma fixed_step_finalized e w :
  Forall asFinalized (segmentsRef (refs w)) ->
  Forall asFinalized (segmentsRef (refs (FixedCooldown.step e w))).
Proof.
  intros H.
  event_cases H e w; unfold_handlers; all_cases; through_processQueue;
    all_cases; finalized_parts.
Qed.

(** X25. In the revision of [src/types.ts], whatever the events, every
    segment of the live list (the list [stopRecording] archives) is
    marked final and carries a text of at least two units with no white
    space at either end. *)
Theorem fixed_live_texts_are_cleaned es saved :
  Forall (fun s =>
            isFinal s = true /\ 2 <= length (text s) /\
            trim (text s) = text s)
    (segmentsRef (refs (FixedCooldown.run es (mount saved 3500)))).
Proof.
  apply (fixed_run_invariant
           (fun w => Forall asFinalized (segmentsRef (refs w)))
           fixed_step_finalized).
  constructor.
Qed.

(* ================================================================== *)
(** * Context of a polish request *)

Lemma indexOfId_split x l segment :
  findSegment x l = Some segment ->
  exists pre post,
    l = pre ++ segment :: post /\
    Forall (fun s => id s <> x) pre /\
    indexOfId x l = Z.of_nat (length pre).
Proof.
  unfold findSegment. induction l as [| s t IH]; simpl; [discriminate |].
  destruct (String.eqb_spec (id s) x) as [E | N].
  - intros H. injection H as ->. exists [], t. repeat split. constructor.
  - intros H. destruct (IH H) as (pre & post & -> & F & I).
    exists (s :: pre), post. repeat split; [constructor; assumption |].
    rewrite I. destruct (Z.ltb_spec (Z.of_nat (length pre)) 0); [lia |].
    simpl length. lia.
Qed.

(** X15. The context sent with a polish request ([src/types.ts]) is made
    of the segments that stand right before the target in the list the
    job was looked up in: the last three of them, all of them when there
    are fewer, none for the first segment. *)
Theorem contextSegments_are_the_three_before x l segment :
  findSegment x l = Some segment ->
  exists pre post,
    l = pre ++ segment :: post /\
    Forall (fun s => id s <> x) pre /\
    contextSegments segment l = skipn (length pre - 3) pre /\
    length (contextSegments segment l) = Nat.min 3 (length pre).
Proof.
  intros H.
  destruct (indexOfId_split x l segment H) as (pre & post & E & F & I).
  exists pre, post. split; [exact E |]. split; [exact F |].
  assert (X : id segment = x).
  { apply find_some in H. destruct H as [_ H]. now apply String.eqb_eq. }
  assert (C : contextSegments segment l = skipn (length pre - 3) pre).
  { unfold contextSegments. rewrite X, I.
    destruct (Z.ltb_spec 0 (Z.of_nat (length pre))) as [P | P].
    - unfold slice.
      replace (Z.to_nat (Z.max 0 (Z.of_nat (length pre) - 3)))
        with (length pre - 3) by lia.
      rewrite Nat2Z.id, E, skipn_app.
      replace (length pre - 3 - length pre) with 0 by lia.
      simpl skipn. rewrite firstn_app, length_skipn.
      replace (length pre - (length pre - 3) - (length pre - (length pre - 3)))
        with 0 by lia.
      rewrite firstn_all2 by (rewrite length_skipn; lia).
      simpl. apply app_nil_r.
    - destruct pre; [reflexivity | simpl in P; lia]. }
  split; [exact C |]. rewrite C, length_skipn. lia.
Qed.

Lemma contextSegments_are_the_three_before_witness :
  let l := [sampleRow "a"; sampleRow "b"; sampleRow "c"; sampleRow "d";
            sampleRow "e"; sampleRow "f"] in
  exists pre post,
    l = pre ++ sampleRow "e" :: post /\
    Forall (fun s => id s <> "e"%string) pre /\
    contextSegments (sampleRow "e") l = skipn (length pre - 3) pre /\
    length (contextSegments (sampleRow "e") l) = Nat.min 3 (length pre).
Proof.
  exact (contextSegments_are_the_three_before "e"
           [sampleRow "a"; sampleRow "b"; sampleRow "c"; sampleRow "d";
            sampleRow "e"; sampleRow "f"] (sampleRow "e") eq_refl).
Defined.

(* ================================================================== *)
(** * Time labels *)

Lemma jsstring_eqb_true a b : jsstring_eqb a b = true -> a = b.
Proof.
  revert b. induction a as [| x a IH]; intros [| y b] H; simpl in H;
    try discriminate; [reflexivity |].
  apply andb_prop in H. destruct H as [E H].
  apply N.eqb_eq in E. subst. f_equal. now apply IH.
Qed.

(** The label of every time below 100 minutes, checked one by one. *)
Lemma formatTime_table :
  forallb (fun n =>
             let seconds := Z.of_nat n in
             jsstring_eqb (formatTime seconds)
               [digit (seconds / 600); digit (seconds / 60 mod 10); 0x3A%N;
                digit (seconds mod 60 / 10); digit (seconds mod 10)])
    (seq 0 (60 * 100)) = true.
Proof. vm_compute. reflexivity. Qed.

(** X16. Below 100 minutes [formatTime] gives the five units [mm:ss]:
    two digits of minutes, a colon, two digits of seconds. *)
Theorem formatTime_is_mm_ss seconds :
  (0 <= seconds < 6000)%Z ->
  formatTime seconds =
  [digit (seconds / 600); digit (seconds / 60 mod 10); 0x3A%N;
   digit (seconds mod 60 / 10); digit (seconds mod 10)].
Proof.
  intros H. pose proof formatTime_table as T.
  rewrite forallb_forall in T.
  specialize (T (Z.to_nat seconds)).
  rewrite Z2Nat.id in T by lia.
  apply jsstring_eqb_true, T, in_seq. lia.
Qed.

Lemma formatTime_is_mm_ss_witness : formatTime 754 = js "12:34".
Proof. apply (formatTime_is_mm_ss 754). lia. Defined.

Lemma unjs_js s : unjs (js s) = s.
Proof.
  unfold unjs, js. rewrite map_map.
  rewrite (map_ext _ (fun a => a)) by (intros a; apply ascii_N_embedding).
  rewrite map_id. apply string_of_list_ascii_of_string.
Qed.

Lemma digits_lead d :
  (0x30%N :: js (DecimalString.NilEmpty.string_of_uint d)) =
  js (DecimalString.NilEmpty.string_of_uint (Decimal.D0 d)).
Proof. reflexivity. Qed.

Lemma digits_below_colon d :
  Forall (fun c => c <> 0x3A%N)
    (js (DecimalString.NilEmpty.string_of_uint d)).
Proof.
  induction d; simpl; constructor; try assumption; discriminate.
Qed.

Lemma toString_nonneg m :
  (0 <= m)%Z ->
  toString m = js (DecimalString.NilEmpty.string_of_uint
                     (N.to_uint (Z.to_N m))).
Proof. intros H. destruct m; [reflexivity | reflexivity | lia]. Qed.

(** A padded field is a string of digits that stands for its number. *)
Lemma padded_field m :
  (0 <= m)%Z ->
  Forall (fun c => c <> 0x3A%N) (padStart 2 0x30%N (toString m)) /\
  decimalValue (padStart 2 0x30%N (toString m)) = Some (Z.to_N m).
Proof.
  intros H. rewrite (toString_nonneg m H). unfold padStart.
  generalize (2 - length (js (DecimalString.NilEmpty.string_of_uint
                                (N.to_uint (Z.to_N m))))).
  intros k.
  set (x := repeat _ k ++ js _).
  assert (E : exists d,
             x = js (DecimalString.NilEmpty.string_of_uint d) /\
             N.of_uint d = Z.to_N m).
  { subst x. induction k as [| k (d & E & V)].
    - eexists. split; [reflexivity |]. apply DecimalN.Unsigned.of_to.
    - exists (Decimal.D0 d). split; [| exact V].
      simpl repeat. simpl app. rewrite E. apply digits_lead. }
  destruct E as (d & -> & V). split; [apply digits_below_colon |].
  unfold decimalValue. rewrite unjs_js, DecimalString.NilEmpty.usu.
  simpl. now rewrite V.
Qed.

Lemma split_at_first {A} (c : A) a1 b1 a2 b2 :
  Forall (fun x => x <> c) a1 -> Forall (fun x => x <> c) a2 ->
  a1 ++ c :: b1 = a2 ++ c :: b2 -> a1 = a2 /\ b1 = b2.
Proof.
  intros F1. revert a2. induction F1 as [| x a1 Hx _ IH]; intros a2 F2 E.
  - destruct F2 as [| y a2 Hy _]; simpl in E.
    + now injection E.
    + injection E as E _. congruence.
  - destruct F2 as [| y a2 Hy F2]; simpl in E.
    + injection E as E _. congruence.
    + injection E as -> E. destruct (IH a2 F2 E) as [-> ->]. auto.
Qed.

(** X17. Two different times never get the same label: [formatTime] is
    injective on the whole numbers of seconds from 0 on (the minutes are
    printed in full, not cut down to two digits). *)
Theorem formatTime_is_injective a b :
  (0 <= a < 2 ^ 53)%Z -> (0 <= b < 2 ^ 53)%Z -> a <> b ->
  formatTime a <> formatTime b.
Proof.
  intros Ha Hb N E. apply N. unfold formatTime in E. cbv zeta in E.
  assert (Ma : (0 <= a / 60)%Z) by (apply Z.div_pos; lia).
  assert (Mb : (0 <= b / 60)%Z) by (apply Z.div_pos; lia).
  assert (Sa : (0 <= Z.rem a 60)%Z) by (apply Z.rem_nonneg; lia).
  assert (Sb : (0 <= Z.rem b 60)%Z) by (apply Z.rem_nonneg; lia).
  destruct (padded_field _ Ma) as [Fa Va].
  destruct (padded_field _ Mb) as [Fb Vb].
  destruct (padded_field _ Sa) as [_ Wa].
  destruct (padded_field _ Sb) as [_ Wb].
  apply (split_at_first _ _ _ _ _ Fa Fb) in E. destruct E as [E1 E2].
  rewrite E1 in Va. rewrite E2 in Wa.
  assert (M : (a / 60 = b / 60)%Z) by (apply Z2N.inj; congruence).
  assert (S : Z.rem a 60 = Z.rem b 60) by (apply Z2N.inj; congruence).
  rewrite (Z.quot_rem' a 60), (Z.quot_rem' b 60).
  rewrite !Z.quot_div_nonneg by lia. now rewrite M, S.
Qed.

(** One hour and one hundred hours. *)
Lemma formatTime_is_injective_witness :
  formatTime 3600 <> formatTime 360000.
Proof.
  apply (formatTime_is_injective 3600 360000); simpl; lia.
Defined.

(* ================================================================== *)
(** * Export, archive and rows *)

(** X18. The file name of an export holds none of the ten characters
    that the pattern of [exportSession] replaces: it is a stem followed
    by [.txt], the stem is as long as the title, every reserved character
    of the title has become an underscore and every other unit is kept. *)
Theorem export_file_name_is_safe session :
  exists stem,
    exportFileName session = stem ++ js ".txt" /\
    length stem = length (title session) /\
    Forall (fun c => reservedInFileName c = false) stem /\
    (forall n c,
       nth_error (title session) n = Some c ->
       nth_error stem n = Some (if reservedInFileName c then 0x5F%N else c)).
Proof.
  exists (sanitizeTitle (title session)). unfold sanitizeTitle.
  split; [reflexivity |]. split; [apply length_map |]. split.
  - rewrite Forall_map, Forall_forall. intros c _.
    destruct (reservedInFileName c) eqn:E; [reflexivity | exact E].
  - intros n c H. rewrite nth_error_map, H. reflexivity.
Qed.

(** Comparisons of ids that came out true or false, as propositions. *)
Ltac id_tests :=
  repeat match goal with
         | H : String.eqb _ _ = true |- _ => apply String.eqb_eq in H
         | H : String.eqb _ _ = false |- _ => apply String.eqb_neq in H
         end.

Lemma findSession_retitle x t l y :
  findSession y (retitle x t l) =
  if String.eqb y x then option_map (retitled t) (findSession x l)
  else findSession y l.
Proof.
  unfold findSession, retitle. induction l as [| s l IH]; simpl.
  - now destruct (String.eqb y x).
  - rewrite IH.
    destruct (String.eqb (session_id s) x) eqn:E1; simpl;
      destruct (String.eqb (session_id s) y) eqn:E2;
      destruct (String.eqb y x) eqn:E3; try reflexivity;
      id_tests; congruence.
Qed.

Lemma retitle_keeps x t l :
  map session_id (retitle x t l) = map session_id l /\
  map session_segments (retitle x t l) = map session_segments l /\
  map duration (retitle x t l) = map duration l.
Proof.
  unfold retitle. rewrite !map_map.
  repeat split; apply map_ext; intros s;
    now destruct (String.eqb (session_id s) x).
Qed.

(** X19. [renameSession] changes titles only: the sessions keep their
    ids, segments, durations and order; looking up the renamed id gives
    the session it gave before, under the new title, and looking up any
    other id gives what it gave before.  The list that is rewritten is
    the one of the render the handler was created in. *)
Theorem renameSession_changes_titles_only cl x newTitle w :
  let renamed := sessions (state (renameSession cl x newTitle w)) in
  map session_id renamed = map session_id (sessions cl) /\
  map session_segments renamed = map session_segments (sessions cl) /\
  map duration renamed = map duration (sessions cl) /\
  (forall y,
     findSession y renamed =
     if String.eqb y x
     then option_map (retitled newTitle) (findSession x (sessions cl))
     else findSession y (sessions cl)) /\
  refs (renameSession cl x newTitle w) = refs w /\
  tasks (renameSession cl x newTitle w) = tasks w.
Proof.
  simpl. destruct (retitle_keeps x newTitle (sessions cl)) as (A & B & C).
  repeat split; try assumption. intros y. apply findSession_retitle.
Qed.

(** X20. The title request that follows [stopRecording] never leaves the
    session without a title: when it has settled, whether it resolved
    (with a text, a blank text or none) or failed, every session under
    the new id has a title that is not empty, and the sessions keep their
    ids, segments, durations and order. *)
Theorem generated_title_is_never_empty newSessionId o w :
  let titled := sessions (state (titleGenerated newSessionId o w)) in
  Forall (fun s => session_id s = newSessionId -> title s <> []) titled /\
  map session_id titled = map session_id (sessions (state w)) /\
  map session_segments titled = map session_segments (sessions (state w)) /\
  map duration titled = map duration (sessions (state w)) /\
  refs (titleGenerated newSessionId o w) = refs w /\
  tasks (titleGenerated newSessionId o w) = tasks w.
Proof.
  assert (T : forall t l,
             t <> [] ->
             Forall (fun s => session_id s = newSessionId -> title s <> [])
               (retitle newSessionId t l)).
  { intros t l Ht. unfold retitle. rewrite Forall_map, Forall_forall.
    intros s _. destruct (String.eqb_spec (session_id s) newSessionId);
      simpl; [intros _; exact Ht | congruence]. }
  destruct o as [r |]; simpl;
    match goal with
    | |- context [retitle ?x ?t ?l] =>
        destruct (retitle_keeps x t l) as (A & B & C)
    end;
    repeat split; try assumption; apply T;
    [apply trimmedOr_nonempty |]; discriminate.
Qed.

Lemma findSession_filter v l y :
  findSession y (filter (fun s => negb (String.eqb (session_id s) v)) l) =
  if String.eqb y v then None else findSession y l.
Proof.
  unfold findSession. induction l as [| s l IH]; simpl.
  - now destruct (String.eqb y v).
  - destruct (String.eqb (session_id s) v) eqn:E1; simpl; rewrite IH;
      destruct (String.eqb (session_id s) y) eqn:E2;
      destruct (String.eqb y v) eqn:E3; try reflexivity;
      id_tests; congruence.
Qed.

(** X21. A confirmed [deleteSession] ([src/types.ts]) removes every
    session under that id and no other: looking the id up afterwards
    finds nothing, any other id finds what it found before.  When the
    deleted session was being viewed the view goes back to the live
    list.  The queue, the timers and the calls in flight are left as they
    are. *)
Theorem deleteSession_removes_that_session cl v w :
  let w' := FixedCooldown.deleteSession cl v w in
  (forall y,
     findSession y (sessions (state w')) =
     if String.eqb y v then None else findSession y (sessions cl)) /\
  (viewingSessionId cl = Some v ->
   viewingSessionId (state w') = None /\
   activeSegments (state w') = Some (segments (state w))) /\
  (viewingSessionId cl <> Some v ->
   viewingSessionId (state w') = viewingSessionId (state w)) /\
  refs w' = refs w /\ tasks w' = tasks w.
Proof.
  unfold FixedCooldown.deleteSession. cbv zeta.
  destruct (viewingSessionId cl) as [v' |] eqn:V;
    [destruct (String.eqb_spec v' v) as [-> | N] |]; fields;
    repeat split; try apply findSession_filter; try congruence;
    intros H; congruence.
Qed.

Lemma deleteSession_removes_that_session_witness :
  let cl := mkRender IDLE [sampleSegment]
              [mkSession "a" (js "A") [] 0; mkSession "b" (js "B") [] 0]
              (Some "a"%string) false 0 in
  let w' := FixedCooldown.deleteSession cl "a" (mkWorld cl (refs sampleBusy) [])
  in
  viewingSessionId (state w') = None /\
  activeSegments (state w') = Some [sampleSegment].
Proof.
  intros cl w'.
  exact (proj1 (proj2 (deleteSession_removes_that_session cl "a"
                         (mkWorld cl (refs sampleBusy) []))) eq_refl).
Defined.

Lemma translation_blank target l :
  Forall (fun s =>
            id s = target ->
            translatedText s = Some [] /\
            translationRow true s = Translating /\
            copyContent true (text s) (translatedText s) = text s)
    (updateTranslation target [] l).
Proof.
  unfold updateTranslation. rewrite Forall_map, Forall_forall.
  intros s _. destruct (String.eqb_spec (id s) target); simpl;
    [auto | congruence].
Qed.

(** X22. In both revisions a translation that comes back blank (no text,
    or white space only) counts as a success: the empty string is stored
    as the translation, no retry is scheduled and the queue is left as it
    is.  Since the empty string is falsy, the row of that segment keeps
    showing the [Translating] indicator and copying it copies the text
    alone. *)
Theorem blank_translation_keeps_the_indicator n w cl item segment r w' :
  nth_error (tasks w) n = Some (AwaitTranslate cl item segment) ->
  trimmedOr r [] = [] ->
  w' = FixedCooldown.step (Settle n (Resolved r)) w \/
  w' = AdaptiveCooldown.step (Settle n (Resolved r)) w ->
  retryTimers (tasks w') = retryTimers (tasks w) /\
  processingQueueRef (refs w') = processingQueueRef (refs w) /\
  Forall (fun s =>
            id s = id segment ->
            translatedText s = Some [] /\
            translationRow true s = Translating /\
            copyContent true (text s) (translatedText s) = text s)
    (segments (state w')).
Proof.
  intros E B W.
  assert (S : retryTimers (tasks w') = retryTimers (tasks w) /\
              processingQueueRef (refs w') = processingQueueRef (refs w)).
  { destruct W as [-> | ->];
      [exact (fixed_success w n cl item segment r _ E (or_intror eq_refl))
      | exact (adaptive_success w n cl item segment r _ E
                 (or_intror eq_refl))]. }
  destruct S as [S1 S2]. split; [exact S1 |]. split; [exact S2 |].
  destruct W as [-> | ->];
    cbn [FixedCooldown.step AdaptiveCooldown.step]; rewrite E;
    unfold_handlers; rewrite B; all_cases; fields;
    apply translation_blank.
Qed.

(** The translation of the first utterance comes back as two spaces. *)
Lemma blank_translation_keeps_the_indicator_witness :
  let w' := FixedCooldown.step (Settle 1 (Resolved (Some (js "  "))))
              awaitingTranslation in
  retryTimers (tasks w') = retryTimers (tasks awaitingTranslation) /\
  processingQueueRef (refs w') =
  processingQueueRef (refs awaitingTranslation) /\
  Forall (fun s =>
            id s = "b"%string ->
            translatedText s = Some [] /\
            translationRow true s = Translating /\
            copyContent true (text s) (translatedText s) = text s)
    (segments (state w')).
Proof.
  intros w'.
  eapply (blank_translation_keeps_the_indicator 1 awaitingTranslation
            _ _ (mkSegment "b" _ _ _ _ _) (Some (js "  ")) w').
  - vm_compute. reflexivity.
  - reflexivity.
  - left. reflexivity.
Defined.

(* ================================================================== *)
(** * The bars of the waveform *)

Module WaveformFacts.
Import QArith Waveform.
Local Open Scope Q_scope.

(** From one bar to the next. *)
Lemma pitch : barWidth + 1 == 407 # 32.
Proof. reflexivity. Qed.

Lemma drawFrom_length dataArray x :
  length (drawFrom dataArray x) = length dataArray.
Proof.
  revert x. induction dataArray as [| b t IH]; intros x; simpl;
    [reflexivity | now rewrite IH].
Qed.

Lemma drawFrom_nth dataArray x i r :
  nth_error (drawFrom dataArray x) i = Some r ->
  exists byte,
    nth_error dataArray i = Some byte /\
    rectX r == x + inject_Z (Z.of_nat i) * (407 # 32) /\
    rectY r = canvasHeight - inject_Z (Z.of_N byte) / 2 /\
    rectW r = barWidth /\
    rectH r = inject_Z (Z.of_N byte) / 2.
Proof.
  revert x i. induction dataArray as [| b t IH]; intros x i H.
  - destruct i; discriminate.
  - destruct i as [| i]; simpl in H.
    + injection H as <-. exists b. simpl. repeat split. ring.
    + destruct (IH _ _ H) as (byte & E & X & R). exists byte.
      split; [exact E |]. split; [| exact R].
      rewrite X, Nat2Z.inj_succ, <- Z.add_1_r, inject_Z_plus, <- pitch.
      ring.
Qed.

(** X23. One frame of the waveform fills one rectangle for each of the
    128 frequency bins, [barHeight = byte / 2] high and standing on the
    bottom edge, bar [i] starting at [x = i * 12.71875].  The canvas being
    600 wide, only the bars of the first 48 bins start inside it: the
    other 80 are drawn beyond its right edge.  The canvas being 100 high,
    a bar fits in it exactly when its byte is at most 200. *)
Theorem draw_places_the_bars dataArray :
  length dataArray = bufferLength ->
  length (draw dataArray) = 128%nat /\
  forall i r,
    nth_error (draw dataArray) i = Some r ->
    exists byte,
      nth_error dataArray i = Some byte /\
      rectX r == inject_Z (Z.of_nat i) * (407 # 32) /\
      rectH r = inject_Z (Z.of_N byte) / 2 /\
      rectY r + rectH r == canvasHeight /\
      (rectX r < canvasWidth <-> (i < 48)%nat) /\
      (0 <= rectY r <-> (byte <= 200)%N).
Proof.
  intros L. unfold draw. split; [rewrite drawFrom_length; exact L |].
  intros i r H.
  destruct (drawFrom_nth _ _ _ _ H) as (byte & E & X & Y & _ & Hh).
  exists byte. split; [exact E |].
  assert (X' : rectX r == inject_Z (Z.of_nat i) * (407 # 32))
    by (rewrite X; ring).
  split; [exact X' |]. split; [exact Hh |]. split; [rewrite Y, Hh; ring |].
  split.
  - rewrite X'.
    cbv [Qlt Qmult inject_Z Qnum Qden canvasWidth]. lia.
  - rewrite Y.
    cbv [Qle Qminus Qdiv Qplus Qopp Qmult Qinv inject_Z Qnum Qden
         canvasHeight].
    lia.
Qed.

Lemma draw_places_the_bars_witness :
  length (draw (repeat 255%N 128)) = 128%nat.
Proof.
  exact (proj1 (draw_places_the_bars (repeat 255%N 128) eq_refl)).
Defined.

End WaveformFacts.
